(** * Lab catalog generator: a shallow embedding of [generate_lab_catalog.py]

    The script walks a directory of markdown lab documents, extracts a
    title/description pair and a list of technology labels from every
    document with regular expressions, asks [git] for the last change of
    the file, and writes one CSV row per document.

    Python strings are modelled as lists of characters ([list ascii]); the
    character classes of [Str] and [Re] are the ones [re] and the methods
    of [str] use on the ASCII range, so that this embedding is the script
    on documents of ASCII characters ([is_ascii]).  What is whitespace, a
    word character or the same letter in another case outside that range
    is read by the interpreter from its Unicode tables: the module [Uni]
    embeds [extract_technologies] over code points with those tables as a
    parameter, and the properties of the technologies field are proved
    there for every document and all tables.  The parts of the Python
    standard library the script calls ([re], [str] methods, [sorted],
    [csv], [datetime]) are modelled next to the functions of the script
    that use them. *)

From Stdlib Require Import Ascii String.
From Stdlib Require Import List Arith NArith ZArith Bool Lia Permutation Sorted.
From Stdlib Require Import DecimalString.
Import ListNotations.

Set Implicit Arguments.

(** ** Python [str] as a list of characters *)

Definition str := list ascii.

(** A string literal of the source. *)
Definition L (s : string) : str := list_ascii_of_string s.

Definition code (c : ascii) : nat := nat_of_ascii c.

Definition nl : ascii := ascii_of_nat 10.
Definition cr : ascii := ascii_of_nat 13.
Definition dquote : ascii := ascii_of_nat 34.
Definition squote : ascii := ascii_of_nat 39.

Definition str_eq_dec : forall a b : str, {a = b} + {a <> b} :=
  list_eq_dec ascii_dec.

Module Str.

(** [str.isspace] on one ASCII character, also the class [\s] of [re]:
    tab, line feed, vertical tab, form feed, carriage return, the four
    separators 0x1c-0x1f and the space. *)
Definition is_space (c : ascii) : bool :=
  let n := code c in
  ((9 <=? n) && (n <=? 13)) || ((28 <=? n) && (n <=? 32)).

Definition is_upper (c : ascii) : bool :=
  let n := code c in (65 <=? n) && (n <=? 90).

Definition is_lower (c : ascii) : bool :=
  let n := code c in (97 <=? n) && (n <=? 122).

Definition is_digit (c : ascii) : bool :=
  let n := code c in (48 <=? n) && (n <=? 57).

(** The class [\w] of [re]: letters, digits and the underscore. *)
Definition is_word (c : ascii) : bool :=
  is_upper c || is_lower c || is_digit c || (code c =? 95).

Definition lower_char (c : ascii) : ascii :=
  if is_upper c then ascii_of_nat (code c + 32) else c.

(** [str.lower] *)
Definition lower (s : str) : str := map lower_char s.

Fixpoint lstrip (s : str) : str :=
  match s with
  | c :: tl => if is_space c then lstrip tl else s
  | [] => []
  end.

Definition rstrip (s : str) : str := rev (lstrip (rev s)).

(** [str.strip()] *)
Definition strip (s : str) : str := rstrip (lstrip s).

(** [str.startswith(p)] *)
Fixpoint startswith (p s : str) : bool :=
  match p, s with
  | [], _ => true
  | a :: p', c :: s' => if ascii_dec a c then startswith p' s' else false
  | _ :: _, [] => false
  end.

(** [str.split(sep)] for a one-character separator: never empty. *)
Fixpoint split (sep : ascii) (s : str) : list str :=
  match s with
  | [] => [[]]
  | c :: tl =>
      if ascii_dec c sep then [] :: split sep tl
      else match split sep tl with
           | w :: ws => (c :: w) :: ws
           | [] => [[c]]
           end
  end.

(** [str.split()] without arguments: the maximal runs of characters
    that are not whitespace. *)
Fixpoint split_ws_aux (cur : str) (s : str) : list str :=
  match s with
  | [] => match cur with [] => [] | _ => [rev cur] end
  | c :: tl =>
      if is_space c
      then match cur with
           | [] => split_ws_aux [] tl
           | _ => rev cur :: split_ws_aux [] tl
           end
      else split_ws_aux (c :: cur) tl
  end.

Definition split_ws (s : str) : list str := split_ws_aux [] s.

(** [sep.join(parts)] *)
Fixpoint join (sep : str) (parts : list str) : str :=
  match parts with
  | [] => []
  | [p] => p
  | p :: more => p ++ sep ++ join sep more
  end.

(** [a < b] on strings: lexicographic on the character codes. *)
Fixpoint ltb (a b : str) : bool :=
  match a, b with
  | [], [] => false
  | [], _ :: _ => true
  | _ :: _, [] => false
  | x :: a', y :: b' =>
      if code x <? code y then true
      else if code y <? code x then false
      else ltb a' b'
  end.

(** [str(n)] for a natural number. *)
Definition of_nat (n : nat) : str :=
  L (NilEmpty.string_of_uint (Nat.to_uint n)).

End Str.

(** [sorted(xs)] and [sorted(xs, key=...)]: Python's sort is stable and
    compares with [<] only ([lt x y] is [x < y], on the keys when a key is
    given); insertion from the right is the same function. *)
Section Sorted.
Variable A : Type.
Variable lt : A -> A -> bool.

Fixpoint insert_sorted (x : A) (l : list A) : list A :=
  match l with
  | [] => [x]
  | y :: l' => if lt y x then y :: insert_sorted x l' else x :: l
  end.

Definition sorted (l : list A) : list A :=
  fold_right insert_sorted [] l.
End Sorted.

(** ** The fragment of Python's [re] the script uses

    A backtracking matcher: [ends fl r st] lists, in the order in which
    [re] tries them, the states in which a match of [r] started in [st]
    can end.  The match [re] reports is the first one. *)
Module Re.

Record flags := Flags { ignorecase : bool; multiline : bool; dotall : bool }.

Definition NOFLAG := Flags false false false.
Definition IGNORECASE := Flags true false false.
Definition MULTILINE := Flags false true false.
Definition DOTALL := Flags false false true.

(** One-character classes. *)
Inductive cclass :=
| CChar (c : ascii)          (* a literal character *)
| CSet (cs : list ascii)     (* [...] *)
| CSpace                     (* \s *)
| CDot.                      (* . *)

Inductive regex :=
| Eps
| Cls (c : cclass)
| Lit (l : str)                         (* a run of literal characters *)
| Seq (a b : regex)
| Alt (a b : regex)                     (* a|b *)
| Star (greedy : bool) (c : cclass)     (* c* and c*? *)
| Group (a : regex)                     (* ( ... ), the only capture *)
| Bol                                   (* ^ *)
| Eol                                   (* $ *)
| WordB.                                (* \b *)

(** [c+], [c+?] and [r?] *)
Definition Plus (greedy : bool) (c : cclass) : regex :=
  Seq (Cls c) (Star greedy c).
Definition Opt (r : regex) : regex := Alt r Eps.

Definition eq_char (fl : flags) (a c : ascii) : bool :=
  if ignorecase fl
  then if ascii_dec (Str.lower_char a) (Str.lower_char c) then true else false
  else if ascii_dec a c then true else false.

Definition cmatch (fl : flags) (k : cclass) (c : ascii) : bool :=
  match k with
  | CChar a => eq_char fl a c
  | CSet cs => existsb (fun a => eq_char fl a c) cs
  | CSpace => Str.is_space c
  | CDot => if dotall fl then true else if ascii_dec c nl then false else true
  end.

(** A position in the subject: the character before it, the text after
    it, and the text of the capture group when it has been closed. *)
Record mstate := MState { m_prev : option ascii; m_rest : str; m_grp : option str }.

Definition consumed (before after : str) : str :=
  firstn (length before - length after) before.

Fixpoint lit_ends (fl : flags) (l : str) (prev : option ascii) (rest : str)
         (g : option str) : list mstate :=
  match l with
  | [] => [MState prev rest g]
  | a :: l' =>
      match rest with
      | c :: tl => if eq_char fl a c then lit_ends fl l' (Some c) tl g else []
      | [] => []
      end
  end.

Fixpoint star_ends (p : ascii -> bool) (greedy : bool) (prev : option ascii)
         (rest : str) (g : option str) : list mstate :=
  let here := MState prev rest g in
  match rest with
  | c :: tl =>
      if p c
      then let more := star_ends p greedy (Some c) tl g in
           if greedy then more ++ [here] else here :: more
      else [here]
  | [] => [here]
  end.

Definition is_word_opt (c : option ascii) : bool :=
  match c with Some x => Str.is_word x | None => false end.

Definition at_bol (fl : flags) (st : mstate) : bool :=
  match m_prev st with
  | None => true
  | Some c => multiline fl && (if ascii_dec c nl then true else false)
  end.

Definition at_eol (fl : flags) (st : mstate) : bool :=
  match m_rest st with
  | [] => true
  | c :: tl =>
      (if ascii_dec c nl then true else false)
      && (multiline fl || match tl with [] => true | _ => false end)
  end.

Definition at_wordb (st : mstate) : bool :=
  negb (eqb (is_word_opt (m_prev st)) (is_word_opt (hd_error (m_rest st)))).

Fixpoint ends (fl : flags) (r : regex) (st : mstate) : list mstate :=
  match r with
  | Eps => [st]
  | Cls k =>
      match m_rest st with
      | c :: tl => if cmatch fl k c then [MState (Some c) tl (m_grp st)] else []
      | [] => []
      end
  | Lit l => lit_ends fl l (m_prev st) (m_rest st) (m_grp st)
  | Seq a b => flat_map (ends fl b) (ends fl a st)
  | Alt a b => ends fl a st ++ ends fl b st
  | Star greedy k =>
      star_ends (cmatch fl k) greedy (m_prev st) (m_rest st) (m_grp st)
  | Group a =>
      map (fun e => MState (m_prev e) (m_rest e)
                      (Some (consumed (m_rest st) (m_rest e))))
          (ends fl a st)
  | Bol => if at_bol fl st then [st] else []
  | Eol => if at_eol fl st then [st] else []
  | WordB => if at_wordb st then [st] else []
  end.

(** A match object: [group(0)], [group(1)] and where the match ended. *)
Record match_obj := Match { group0 : str; group1 : str; m_end : mstate }.

Definition match_at (fl : flags) (r : regex) (prev : option ascii) (rest : str)
  : option match_obj :=
  match ends fl r (MState prev rest None) with
  | e :: _ =>
      Some (Match (consumed rest (m_rest e))
                  (match m_grp e with Some g => g | None => [] end) e)
  | [] => None
  end.

(** [re.match(r, s, fl)]: a match at the start of [s]. *)
Definition re_match (fl : flags) (r : regex) (s : str) : option match_obj :=
  match_at fl r None s.

Fixpoint search_from (fl : flags) (r : regex) (prev : option ascii) (rest : str)
  : option match_obj :=
  match match_at fl r prev rest with
  | Some m => Some m
  | None =>
      match rest with
      | [] => None
      | c :: tl => search_from fl r (Some c) tl
      end
  end.

(** [re.search(r, s, fl)]: the leftmost match. *)
Definition re_search (fl : flags) (r : regex) (s : str) : option match_obj :=
  search_from fl r None s.

Fixpoint findall_from (fuel : nat) (fl : flags) (r : regex)
         (prev : option ascii) (rest : str) : list str :=
  match fuel with
  | 0 => []
  | S fuel' =>
      match match_at fl r prev rest with
      | Some m =>
          match group0 m with
          | [] =>
              (* an empty match: the scan moves on by one character *)
              [] :: match rest with
                    | [] => []
                    | c :: tl => findall_from fuel' fl r (Some c) tl
                    end
          | _ :: _ =>
              group0 m
                :: findall_from fuel' fl r (m_prev (m_end m)) (m_rest (m_end m))
          end
      | None =>
          match rest with
          | [] => []
          | c :: tl => findall_from fuel' fl r (Some c) tl
          end
      end
  end.

(** [re.findall(r, s, fl)] for a pattern without capture group: the
    texts of the matches found scanning from the left, none overlapping
    another.  Every step moves on by a character at least, so
    [length s + 1] steps reach the end. *)
Definition re_findall (fl : flags) (r : regex) (s : str) : list str :=
  findall_from (S (length s)) fl r None s.

End Re.

Import Re.

Declare Scope re_scope.
Delimit Scope re_scope with re.
Infix ";;" := Seq (at level 61, right associativity) : re_scope.
Infix "<|>" := Alt (at level 62, right associativity) : re_scope.
Open Scope re_scope.

(** [\s*], [\s+] and [\b] *)
Definition ws_star : regex := Star true CSpace.
Definition ws_plus : regex := Plus true CSpace.

(** ** [parse_frontmatter] *)

(** [r'^---\s*\n(.*?)\n---\s*\n'], used with [re.DOTALL] *)
Definition frontmatter_re : regex :=
  Bol ;; Lit (L "---") ;; ws_star ;; Cls (CChar nl) ;;
  Group (Star false CDot) ;;
  Cls (CChar nl) ;; Lit (L "---") ;; ws_star ;; Cls (CChar nl).

Definition quote_set : cclass := CSet [squote; dquote].

(** [r"title:\s*['\"](.+?)['\"]"] *)
Definition title_re : regex :=
  Lit (L "title:") ;; ws_star ;; Cls quote_set ;;
  Group (Plus false CDot) ;; Cls quote_set.

(** [r"description:\s*['\"](.+?)['\"]"] *)
Definition desc_re : regex :=
  Lit (L "description:") ;; ws_star ;; Cls quote_set ;;
  Group (Plus false CDot) ;; Cls quote_set.

(** [r'^#\s+(.+)$'], used with [re.MULTILINE] *)
Definition h1_re : regex :=
  Bol ;; Lit (L "#") ;; ws_plus ;; Group (Plus true CDot) ;; Eol.

Definition nonempty (s : str) : bool :=
  match s with [] => false | _ :: _ => true end.

(** The loop over the lines of the document in the heading fallback:
    [desc_lines] and [in_content] are the loop's two variables, and the
    [break] ends the recursion. *)
Fixpoint desc_loop (lines : list str) (desc_lines : list str) (in_content : bool)
  : list str :=
  match lines with
  | [] => desc_lines
  | line :: more =>
      if Str.startswith (L "# ") line then desc_loop more desc_lines true
      else if in_content && nonempty (Str.strip line)
              && negb (Str.startswith (L "#") line)
              && negb (Str.startswith (L "!") line)
      then
        let desc_lines' := desc_lines ++ [Str.strip line] in
        if 100 <? length (Str.join (L " ") desc_lines')
        then desc_lines'
        else desc_loop more desc_lines' in_content
      else desc_loop more desc_lines in_content
  end.

Definition parse_frontmatter (content : str) : str * str :=
  match re_match DOTALL frontmatter_re content with
  | Some m =>
      let frontmatter := group1 m in
      let title_match := re_search NOFLAG title_re frontmatter in
      let desc_match := re_search NOFLAG desc_re frontmatter in
      let title := match title_match with Some t => group1 t | None => [] end in
      let description := match desc_match with Some d => group1 d | None => [] end in
      (title, description)
  | None =>
      match re_search MULTILINE h1_re content with
      | Some h1_match =>
          let title := Str.strip (group1 h1_match) in
          let lines := Str.split nl content in
          let desc_lines := desc_loop lines [] false in
          let description := firstn 200 (Str.join (L " ") desc_lines) in
          (title, description)
      | None => ([], [])
      end
  end.

(** ** [extract_technologies] *)

Definition word (s : string) : regex := Lit (L s).

Definition tech_patterns : list regex :=
  [ WordB ;; word "Azure" ;; ws_plus ;; word "OpenAI" ;; WordB
  ; WordB ;; word "GPT-4" ;; Opt (Cls (CChar "o")) ;; WordB
  ; WordB ;; word "Foundry" ;; WordB
  ; WordB ;; word "prompt" ;; ws_plus ;; word "flow" ;; WordB
  ; WordB ;; word "RAG" ;; WordB
  ; WordB ;; word "Retrieval" ;; ws_plus ;; word "Augmented" ;; ws_plus ;;
      word "Generation" ;; WordB
  ; WordB ;; word "Azure" ;; ws_plus ;; word "AI" ;; ws_plus ;;
      (word "Services" <|> word "Studio" <|> word "Foundry") ;; WordB
  ; WordB ;; word "AI" ;; ws_plus ;; word "hub" ;; WordB
  ; WordB ;; word "Python" ;; ws_plus ;; word "SDK" ;; WordB
  ; WordB ;; word "TypeScript" ;; WordB
  ; WordB ;; word ".NET" ;; WordB
  ; WordB ;; word "fine-tun" ;; (word "e" <|> word "ing") ;; WordB
  ; WordB ;; word "content" ;; ws_plus ;; word "filter" ;;
      Opt (word "s" <|> word "ing") ;; WordB
  ; WordB ;; word "evaluation" ;; WordB
  ; WordB ;; word "embedding" ;; WordB
  ; WordB ;; word "model" ;; ws_plus ;; word "catalog" ;; WordB
  ; WordB ;; word "chat" ;; ws_plus ;; (word "app" <|> word "playground") ;; WordB
  ; WordB ;; word "NER" ;; WordB
  ; WordB ;; word "Named" ;; ws_plus ;; word "Entity" ;; ws_plus ;;
      word "Recognition" ;; WordB ].

(** [set.add]: the set [technologies] is kept as a list without
    repetition. *)
Definition set_add (x : str) (s : list str) : list str :=
  if in_dec str_eq_dec x s then s else s ++ [x].

(** The loop over [tech_patterns]. *)
Fixpoint tech_loop (patterns : list regex) (content : str)
         (technologies : list str) : list str :=
  match patterns with
  | [] => technologies
  | pattern :: more =>
      match re_findall IGNORECASE pattern content with
      | m0 :: _ => tech_loop more content (set_add (Str.strip m0) technologies)
      | [] => tech_loop more content technologies
      end
  end.

Definition NA : str := L "N/A".

(** The comparison of [sorted(technologies, key=str.lower)]. *)
Definition lower_lt (a b : str) : bool := Str.ltb (Str.lower a) (Str.lower b).

(** A Python [set] is iterated in an order the language does not fix (for
    strings it changes from one run of the interpreter to the next):
    [iter] is the order in which [sorted] reads the set. *)
Definition extract_technologies (iter : list str -> list str) (content : str)
  : str :=
  let technologies := tech_loop tech_patterns content [] in
  match technologies with
  | _ :: _ => Str.join (L ", ") (sorted lower_lt (iter technologies))
  | [] => NA
  end.

(** ** Effects: exceptions, the console, processes and the output file *)

(** A Python exception: its class and its message ([str(e)]). *)
Record exn := Exn { exn_class : string; exn_msg : str }.

Inductive outcome (A : Type) : Type :=
| Returned (a : A)
| Raised (e : exn).
Arguments Returned {A} a.
Arguments Raised {A} e.

Inductive event :=
| Ran (cmd : list str) (cwd : str)        (* subprocess.run(cmd, cwd=cwd, ...) *)
| Printed (line : str)                    (* print(line) *)
| Wrote (file : str) (data : str).        (* the text written to a file *)

(** A computation: what it did, in order, and how it ended. *)
Definition eff (A : Type) : Type := list event * outcome A.

Definition ret {A} (a : A) : eff A := ([], Returned a).

Definition bind {A B} (m : eff A) (f : A -> eff B) : eff B :=
  match m with
  | (l, Returned a) => let (l', r) := f a in (l ++ l', r)
  | (l, Raised e) => (l, Raised e)
  end.

Definition lift {A} (o : outcome A) : eff A := ([], o).

(** [try: m  except Exception as e: h e] *)
Definition try_except {A} (m : eff A) (h : exn -> eff A) : eff A :=
  match m with
  | (l, Returned a) => (l, Returned a)
  | (l, Raised e) => let (l', r) := h e in (l ++ l', r)
  end.

Definition print (line : str) : eff unit := ([Printed line], Returned tt).

Notation "x <- m ;;; k" := (bind m (fun x => k))
  (at level 100, m at next level, right associativity).
Notation "m >>> k" := (bind m (fun _ => k))
  (at level 100, right associativity).

(** [subprocess.CompletedProcess] with [capture_output=True, text=True] *)
Record completed := Completed { returncode : Z; stdout : str }.

(** What the script sees of the machine it runs on.  Each field is the
    answer of the operating system or of [git] to a call of the script;
    a call that fails raises. *)
Record world := World {
  (** [os.path.relpath(path, start)] *)
  relpath : str -> str -> outcome str;
  (** [subprocess.run(cmd, cwd=cwd, capture_output=True, text=True, check=False)] *)
  subprocess_run : list str -> str -> outcome completed;
  (** the files [*.md] below a directory, as the parts of their paths
      relative to it, in the order in which [rglob] yields them *)
  rglob_md : str -> list (list str);
  (** [open(path, 'r', encoding='utf-8').read()] *)
  read_text : str -> outcome str
}.

Definition run (w : world) (cmd : list str) (cwd : str) : eff completed :=
  ([Ran cmd cwd], subprocess_run w cmd cwd).

(** ** [datetime.strptime(s, '%Y-%m-%d')] and [strftime('%Y-%m-%d')] *)

Record date := Date { year : nat; month : nat; day : nat }.

Definition digit (c : ascii) : option nat :=
  if Str.is_digit c then Some (code c - 48) else None.

Definition digit_in (lo hi : nat) (c : ascii) : option nat :=
  match digit c with
  | Some d => if (lo <=? d) && (d <=? hi) then Some d else None
  | None => None
  end.

(** [(?P<Y>\d\d\d\d)] *)
Definition parse_Y (s : str) : list (nat * str) :=
  match s with
  | a :: b :: c :: d :: r =>
      match digit a, digit b, digit c, digit d with
      | Some a, Some b, Some c, Some d => [(1000 * a + 100 * b + 10 * c + d, r)]
      | _, _, _, _ => []
      end
  | _ => []
  end.

(** One alternative made of a fixed first character and a digit range. *)
Definition two_chars (first : ascii) (tens lo hi : nat) (s : str) : list (nat * str) :=
  match s with
  | a :: b :: r =>
      if ascii_dec a first
      then match digit_in lo hi b with Some d => [(tens + d, r)] | None => [] end
      else []
  | _ => []
  end.

Definition one_char (lo hi : nat) (s : str) : list (nat * str) :=
  match s with
  | a :: r => match digit_in lo hi a with Some d => [(d, r)] | None => [] end
  | [] => []
  end.

(** [(?P<m>1[0-2]|0[1-9]|[1-9])] *)
Definition parse_m (s : str) : list (nat * str) :=
  two_chars "1" 10 0 2 s ++ two_chars "0" 0 1 9 s ++ one_char 1 9 s.

(** [(?P<d>3[0-1]|[1-2]\d|0[1-9]|[1-9]| [1-9])] *)
Definition parse_d (s : str) : list (nat * str) :=
  two_chars "3" 30 0 1 s ++ two_chars "1" 10 0 9 s ++ two_chars "2" 20 0 9 s
  ++ two_chars "0" 0 1 9 s ++ one_char 1 9 s ++ two_chars " " 0 1 9 s.

Definition dash (k : str -> list (nat * nat * nat * str)) (s : str)
  : list (nat * nat * nat * str) :=
  match s with
  | c :: r => if ascii_dec c "-" then k r else []
  | [] => []
  end.

(** The matches of the pattern [strptime] compiles ['%Y-%m-%d'] to, in the
    order of the backtracking search. *)
Definition ymd_matches (s : str) : list (nat * nat * nat * str) :=
  flat_map (fun '(y, r1) =>
    dash (fun r2 =>
      flat_map (fun '(m, r3) =>
        dash (fun r4 => map (fun '(d, r5) => (y, m, d, r5)) (parse_d r4)) r3)
        (parse_m r2)) r1)
    (parse_Y s).

Definition is_leap (y : nat) : bool :=
  (y mod 4 =? 0) && (negb (y mod 100 =? 0) || (y mod 400 =? 0)).

Definition days_in_month (y m : nat) : nat :=
  match m with
  | 2 => if is_leap y then 29 else 28
  | 4 | 6 | 9 | 11 => 30
  | _ => 31
  end.

Definition ValueError (msg : string) : exn := Exn "ValueError" (L msg).
Definition IndexError (msg : string) : exn := Exn "IndexError" (L msg).

Definition strptime (s : str) : outcome date :=
  match ymd_matches s with
  | [] => Raised (ValueError "time data does not match format")
  | (y, m, d, rest) :: _ =>
      match rest with
      | _ :: _ => Raised (ValueError "unconverted data remains")
      | [] =>
          if (1 <=? y) && (d <=? days_in_month y m)
          then Returned (Date y m d)
          else Raised (ValueError "date value out of range")
      end
  end.

Definition digit_char (n : nat) : ascii := ascii_of_nat (48 + n mod 10).

Definition pad2 (n : nat) : str := [digit_char (n / 10); digit_char n].

Definition pad4 (n : nat) : str :=
  [digit_char (n / 1000); digit_char (n / 100); digit_char (n / 10); digit_char n].

(** [strftime('%Y-%m-%d')], with the four-digit year of the [datetime]
    documentation. *)
Definition strftime (d : date) : str :=
  pad4 (year d) ++ L "-" ++ pad2 (month d) ++ L "-" ++ pad2 (day d).

(** ** [get_git_info] *)

(** [xs[0]] *)
Definition index0 (xs : list str) : outcome str :=
  match xs with
  | x :: _ => Returned x
  | [] => Raised (IndexError "list index out of range")
  end.

Definition git_log_merges (rel_path : str) : list str :=
  [L "git"; L "log"; L "-1"; L "--merges"; L "--format=%ai|%an"; L "--"; rel_path].

Definition git_log (rel_path : str) : list str :=
  [L "git"; L "log"; L "-1"; L "--format=%ai|%an"; L "--"; rel_path].

(** The block that follows each of the two queries: [Some] is its
    [return], [None] leaves the [if] without returning. *)
Definition read_result (result : completed) : eff (option (str * str)) :=
  if (returncode result =? 0)%Z && nonempty (Str.strip (stdout result))
  then
    match Str.split "|" (Str.strip (stdout result)) with
    | [date_str; author] =>
        first <- lift (index0 (Str.split_ws date_str)) ;;;
        date_obj <- lift (strptime first) ;;;
        ret (Some (strftime date_obj, author))
    | _ => ret None
    end
  else ret None.

Definition get_git_info (w : world) (file_path repo_root : str) : eff (str * str) :=
  try_except
    (rel_path <- lift (relpath w file_path repo_root) ;;;
     result <- run w (git_log_merges rel_path) repo_root ;;;
     merged <- read_result result ;;;
     match merged with
     | Some info => ret info
     | None =>
         result <- run w (git_log rel_path) repo_root ;;;
         any <- read_result result ;;;
         match any with
         | Some info => ret info
         | None => ret (NA, NA)
         end
     end)
    (fun e =>
       print (L "Warning: Could not get git info for " ++ file_path ++ L ": "
                ++ exn_msg e) >>>
       ret (NA, NA)).

(** ** [pathlib.Path]: a path is the tuple of its parts *)

Definition Path := list str.

Definition slash : str := L "/".

(** [Path(s).parts] on POSIX: the root when [s] is absolute, then the
    names between the slashes; empty names and [.] are dropped. *)
Definition path_of (s : str) : Path :=
  (if Str.startswith slash s then [slash] else [])
  ++ filter (fun p => negb (if str_eq_dec p [] then true else false)
                      && negb (if str_eq_dec p (L ".") then true else false))
            (Str.split "/" s).

(** [str(p)] *)
Definition path_str (p : Path) : str :=
  match p with
  | [] => L "."
  | first :: more =>
      if str_eq_dec first slash then slash ++ Str.join slash more
      else Str.join slash p
  end.

(** [p < q]: the parts are compared as tuples. *)
Fixpoint path_lt (p q : Path) : bool :=
  match p, q with
  | [], [] => false
  | [], _ :: _ => true
  | _ :: _, [] => false
  | a :: p', b :: q' =>
      if Str.ltb a b then true
      else if Str.ltb b a then false
      else path_lt p' q'
  end.

Fixpoint strip_prefix (other p : Path) : option Path :=
  match other, p with
  | [], _ => Some p
  | a :: other', b :: p' =>
      if str_eq_dec a b then strip_prefix other' p' else None
  | _ :: _, [] => None
  end.

(** [p.relative_to(other)] *)
Definition relative_to (p other : Path) : outcome Path :=
  match strip_prefix other p with
  | Some r => Returned r
  | None => Raised (ValueError "path is not in the subpath of the other")
  end.

(** [os.path.join(a, b)] for a relative [b] *)
Definition os_path_join (a b : str) : str :=
  match rev a with
  | [] => b
  | c :: _ => if ascii_dec c "/" then a ++ b else a ++ slash ++ b
  end.

(** ** [process_lab_files] *)

(** One entry of [labs]: the dictionary with the five keys. *)
Record lab := Lab {
  filename : str;
  description : str;
  technologies : str;
  last_merge_date : str;
  last_merge_author : str
}.

(** [f"{title}. {description}" if title and description
     else (description or title or "N/A")] *)
Definition full_description (title description : str) : str :=
  if nonempty title && nonempty description
  then title ++ L ". " ++ description
  else if nonempty description then description
  else if nonempty title then title
  else NA.

Section Run.
Variable w : world.
(** The order in which the interpreter of this run iterates a set. *)
Variable iter : list str -> list str.

(** The body of the [try] of one turn of the loop. *)
Definition process_one (repo_root : str) (instructions_path md_file : Path)
           (labs : list lab) : eff (list lab) :=
  content <- lift (read_text w (path_str md_file)) ;;;
  let (title, description) := parse_frontmatter content in
  let technologies := extract_technologies iter content in
  info <- get_git_info w (path_str md_file) repo_root ;;;
  let (last_merge_date, last_merge_author) := info in
  rel_filename <- lift (relative_to md_file instructions_path) ;;;
  ret (labs ++ [Lab (path_str rel_filename)
                    (full_description title description)
                    technologies last_merge_date last_merge_author]).

Fixpoint process_loop (repo_root : str) (instructions_path : Path)
         (md_files : list Path) (labs : list lab) : eff (list lab) :=
  match md_files with
  | [] => ret labs
  | md_file :: more =>
      print (L "Processing: " ++ path_str md_file) >>>
      labs' <- try_except
                 (process_one repo_root instructions_path md_file labs)
                 (fun e =>
                    print (L "Error processing " ++ path_str md_file ++ L ": "
                             ++ exn_msg e) >>>
                    ret labs) ;;;
      process_loop repo_root instructions_path more labs'
  end.

(** [sorted(instructions_path.rglob('*.md'))] *)
Definition md_files_of (instructions_dir : str) : list Path :=
  sorted path_lt
    (map (fun rel => path_of instructions_dir ++ rel)
         (rglob_md w instructions_dir)).

Definition process_lab_files (repo_root instructions_dir : str)
  : eff (list lab) :=
  let instructions_path := path_of instructions_dir in
  let md_files := md_files_of instructions_dir in
  print (L "Found " ++ Str.of_nat (length md_files)
           ++ L " markdown files in " ++ instructions_dir) >>>
  process_loop repo_root instructions_path md_files [].

(** ** [generate_csv]: [csv.DictWriter] with the default dialect *)

Definition fieldnames : list str :=
  [L "filename"; L "description"; L "technologies";
   L "last_merge_date"; L "last_merge_author"].

(** [QUOTE_MINIMAL]: a field is quoted when it holds the delimiter, the
    quote character or a character of the line terminator. *)
Definition special (c : ascii) : bool :=
  if ascii_dec c "," then true
  else if ascii_dec c dquote then true
  else if ascii_dec c cr then true
  else if ascii_dec c nl then true
  else false.

Definition csv_field (field : str) : str :=
  if existsb special field
  then [dquote]
         ++ flat_map (fun c => if ascii_dec c dquote then [dquote; dquote] else [c])
                     field
         ++ [dquote]
  else field.

Definition crlf : str := [cr; nl].

(** [writer.writerow(fields)]: a row made of one empty field is written
    as a pair of quotes. *)
Definition csv_row (fields : list str) : str :=
  match fields with
  | [[]] => [dquote; dquote] ++ crlf
  | _ => Str.join (L ",") (map csv_field fields) ++ crlf
  end.

(** The row [DictWriter] makes of a dictionary: its values in the order
    of [fieldnames]. *)
Definition lab_fields (r : lab) : list str :=
  [filename r; description r; technologies r;
   last_merge_date r; last_merge_author r].

Definition csv_text (labs : list lab) : str :=
  csv_row fieldnames ++ flat_map (fun r => csv_row (lab_fields r)) labs.

Definition generate_csv (labs : list lab) (output_file : str) : eff unit :=
  ([Wrote output_file (csv_text labs)], Returned tt) >>>
  print ([nl] ++ L "CSV file generated: " ++ output_file) >>>
  print (L "Total labs documented: " ++ Str.of_nat (length labs)).

(** ** [main] *)

Definition rule : str := repeat "="%char 60.

(** [repo_root] is [os.path.dirname(os.path.abspath(__file__))]. *)
Definition main (repo_root : str) : eff unit :=
  let instructions_dir := os_path_join repo_root (L "Instructions") in
  let output_file := os_path_join repo_root (L "lab_catalog.csv") in
  print rule >>>
  print (L "Lab Catalog Generator") >>>
  print rule >>>
  labs <- process_lab_files repo_root instructions_dir ;;;
  generate_csv labs output_file >>>
  print ([nl] ++ rule) >>>
  print (L "Done!") >>>
  print rule.

End Run.

(** The files a run wrote, in order. *)
Definition written (r : eff unit) : list (str * str) :=
  flat_map (fun e => match e with Wrote f d => [(f, d)] | _ => [] end) (fst r).

(** * Vocabulary of the properties

    The predicates in which the properties below are stated, and the
    concrete inputs at which they are tried. *)

(** ** The provenance lookup *)

(** The commands a computation ran, in order. *)
Definition ran (A : Type) (r : eff A) : list (list str) :=
  flat_map (fun e => match e with Ran cmd _ => [cmd] | _ => [] end) (fst r).

(** A completed query is of no use when [git] exited with an error, printed
    nothing, or printed something that is not [date|author]. *)
Definition unusable (r : completed) : Prop :=
  returncode r <> 0%Z
  \/ Str.strip (stdout r) = []
  \/ length (Str.split "|" (Str.strip (stdout r))) <> 2.

(** It holds a result when it exited with 0 and printed [date_str|author]. *)
Definition holds (r : completed) (date_str author : str) : Prop :=
  returncode r = 0%Z
  /\ Str.strip (stdout r) <> []
  /\ Str.split "|" (Str.strip (stdout r)) = [date_str; author].

(** The date part of [date_str] parses to [d]. *)
Definition parses (date_str : str) (d : date) : Prop :=
  exists first more,
    Str.split_ws date_str = first :: more /\ strptime first = Returned d.

(** The date part of [date_str] does not parse. *)
Definition unparseable (date_str : str) : Prop :=
  Str.split_ws date_str = []
  \/ exists first more e,
       Str.split_ws date_str = first :: more /\ strptime first = Raised e.

(** [YYYY-MM-DD] *)
Definition is_iso_date (s : str) : bool :=
  match s with
  | [y1; y2; y3; y4; d1; m1; m2; d2; a1; a2] =>
      forallb Str.is_digit [y1; y2; y3; y4; m1; m2; a1; a2]
      && (if ascii_dec d1 "-" then true else false)
      && (if ascii_dec d2 "-" then true else false)
  | _ => false
  end.


(** The first query gave no result: the call raised (the tool is absent,
    the directory is invalid), or it completed and is of no use. *)
Definition no_result (o : outcome completed) : Prop :=
  match o with
  | Raised _ => True
  | Returned r => unusable r
  end.

(** The fallback read as covering every way of getting no result: the
    unrestricted query is run whenever the restricted one gave none. *)
Definition fallback_on_every_failure : Prop :=
  forall (w : world) (file_path repo_root rel_path : str),
    relpath w file_path repo_root = Returned rel_path ->
    no_result (subprocess_run w (git_log_merges rel_path) repo_root) ->
    In (git_log rel_path) (ran (get_git_info w file_path repo_root)).

(** [git] answered a query of the lookup for [file_path]: it exited with 0
    and printed a date that parses to [d], and an author. *)
Definition answered (w : world) (file_path repo_root : str) (date author : str)
  : Prop :=
  exists rel_path cmd result date_str d,
    relpath w file_path repo_root = Returned rel_path
    /\ (cmd = git_log_merges rel_path \/ cmd = git_log rel_path)
    /\ subprocess_run w cmd repo_root = Returned result
    /\ holds result date_str author
    /\ parses date_str d
    /\ date = strftime d.

Definition FileNotFoundError : exn :=
  Exn "FileNotFoundError" (L "[Errno 2] No such file or directory: 'git'").

(** A machine without [git]: every call of [subprocess.run] raises. *)
Definition no_git : world :=
  World (fun path _ => Returned path)
        (fun _ _ => Raised FileNotFoundError)
        (fun _ => [])
        (fun _ => Returned []).

(** A repository in which the file was never merged: the restricted query
    prints nothing, the unrestricted one the last commit. *)
Definition never_merged : world :=
  World (fun path _ => Returned path)
        (fun cmd _ =>
           if in_dec str_eq_dec (L "--merges") cmd
           then Returned (Completed 0 [])
           else Returned (Completed 0 (L "2024-03-09 10:11:12 +0100|Jane Doe" ++ [nl])))
        (fun _ => [])
        (fun _ => Returned []).

(** The line the lookup prints when it catches an exception. *)
Definition warning (file_path : str) (e : exn) : event :=
  Printed (L "Warning: Could not get git info for " ++ file_path ++ L ": "
             ++ exn_msg e).

(** The ways in which the lookup fails to resolve the history of a file:
    the relative path cannot be computed; the first call of [git] raises
    (tool absent); a query the lookup reads holds a date that does not
    parse; the first query is of no use (no repository, non-zero exit, empty
    or malformed output) and the second raises or is of no use either. *)
Inductive failed (w : world) (file_path repo_root : str) : Prop :=
| failed_relpath e :
    relpath w file_path repo_root = Raised e ->
    failed w file_path repo_root
| failed_first_raises rel_path e :
    relpath w file_path repo_root = Returned rel_path ->
    subprocess_run w (git_log_merges rel_path) repo_root = Raised e ->
    failed w file_path repo_root
| failed_first_date rel_path r1 date_str author :
    relpath w file_path repo_root = Returned rel_path ->
    subprocess_run w (git_log_merges rel_path) repo_root = Returned r1 ->
    holds r1 date_str author -> unparseable date_str ->
    failed w file_path repo_root
| failed_second_raises rel_path r1 e :
    relpath w file_path repo_root = Returned rel_path ->
    subprocess_run w (git_log_merges rel_path) repo_root = Returned r1 ->
    unusable r1 ->
    subprocess_run w (git_log rel_path) repo_root = Raised e ->
    failed w file_path repo_root
| failed_second_unusable rel_path r1 r2 :
    relpath w file_path repo_root = Returned rel_path ->
    subprocess_run w (git_log_merges rel_path) repo_root = Returned r1 ->
    unusable r1 ->
    subprocess_run w (git_log rel_path) repo_root = Returned r2 ->
    unusable r2 ->
    failed w file_path repo_root
| failed_second_date rel_path r1 r2 date_str author :
    relpath w file_path repo_root = Returned rel_path ->
    subprocess_run w (git_log_merges rel_path) repo_root = Returned r1 ->
    unusable r1 ->
    subprocess_run w (git_log rel_path) repo_root = Returned r2 ->
    holds r2 date_str author -> unparseable date_str ->
    failed w file_path repo_root.

(** ** Sorted lists *)

(** [y] may stand after [x]: it is not smaller. *)
Definition not_after (A : Type) (lt : A -> A -> bool) (x y : A) : Prop :=
  lt y x = false.

(** ** The catalog assembler *)

Section Rows.
Variable w : world.
Variable iter : list str -> list str.
Variable repo_root : str.
Variable instructions_path : Path.

(** The record of a file whose text [content] was read. *)
Definition lab_of (md_file : Path) (content : str) : lab :=
  let (title, description) := parse_frontmatter content in
  let info := match snd (get_git_info w (path_str md_file) repo_root) with
              | Returned info => info
              | Raised _ => (NA, NA)
              end in
  Lab (path_str (match strip_prefix instructions_path md_file with
                 | Some rel => rel
                 | None => []
                 end))
      (full_description title description)
      (extract_technologies iter content)
      (fst info) (snd info).

(** One record for each file that can be read, none for the others, in
    the order of the files. *)
Definition rows_of (md_files : list Path) : list lab :=
  flat_map (fun md_file =>
              match read_text w (path_str md_file) with
              | Returned content => [lab_of md_file content]
              | Raised _ => []
              end) md_files.

(** The files whose read fails. *)
Definition skipped (md_files : list Path) : list Path :=
  filter (fun md_file =>
            match read_text w (path_str md_file) with
            | Returned _ => false
            | Raised _ => true
            end) md_files.

(** The files that are read. *)
Definition readable (md_files : list Path) : list Path :=
  filter (fun md_file =>
            match read_text w (path_str md_file) with
            | Returned _ => true
            | Raised _ => false
            end) md_files.
End Rows.

(** The line logged for a file that is skipped. *)
Definition error_line (md_file : Path) (e : exn) : event :=
  Printed (L "Error processing " ++ path_str md_file ++ L ": " ++ exn_msg e).

(** The header row the specification gives. *)
Definition spec_header : str :=
  L "filename,description,technologies,last_change_date,last_change_author".

(** The header row the code writes. *)
Definition code_header : str :=
  L "filename,description,technologies,last_merge_date,last_merge_author".

(** The output file begins with the header row of the specification,
    whatever the records. *)
Definition begins_with_spec_header : Prop :=
  forall labs : list lab,
    Str.startswith spec_header (csv_text labs) = true.

(** A field as [QUOTE_MINIMAL] writes it: as it is when it holds no comma,
    quote, carriage return or line feed; otherwise between quotes, each
    quote of the field doubled. *)
Inductive quoted_as : str -> str -> Prop :=
| quoted_plain field :
    (forall c, In c field -> c <> ","%char /\ c <> dquote /\ c <> cr /\ c <> nl) ->
    quoted_as field field
| quoted_quotes field :
    (exists c, In c field /\ (c = ","%char \/ c = dquote \/ c = cr \/ c = nl)) ->
    quoted_as field
      ([dquote]
         ++ flat_map (fun c => if ascii_dec c dquote then [dquote; dquote] else [c])
                     field
         ++ [dquote]).

(** A record whose description holds a comma and a quote. *)
Definition quoted_lab : lab :=
  Lab (L "01-intro.md") (L "Intro, the " ++ [dquote] ++ L "first" ++ [dquote] ++ L " lab")
      (L "Azure OpenAI, RAG") (L "2024-03-09") (L "Jane Doe").

(** A computation that writes no file. *)
Definition quiet (A : Type) (m : eff A) : Prop :=
  Forall (fun e => match e with Wrote _ _ => False | _ => True end) (fst m).
Arguments quiet {A} m.

(** ** The matcher *)

(** The text a match that starts in [st] and ends in [e] went over. *)
Definition text_between (st e : mstate) (m : str) : Prop :=
  m_rest st = m ++ m_rest e.

(** [m] is the first match of [r] in [s]: the match the matcher reports at
    the leftmost position at which [r] matches at all; [pre] is the text
    before it and [post] the text after it. *)
Definition first_match (fl : flags) (r : regex) (s m : str) : Prop :=
  exists pre post mo,
    s = pre ++ m ++ post
    /\ match_at fl r (hd_error (rev pre)) (m ++ post) = Some mo
    /\ group0 mo = m
    /\ (forall a b, pre = a ++ b -> b <> [] ->
          match_at fl r (hd_error (rev a)) (b ++ m ++ post) = None).

(** [r] matches nowhere in [s]. *)
Definition no_match (fl : flags) (r : regex) (s : str) : Prop :=
  forall pre rest, s = pre ++ rest -> match_at fl r (hd_error (rev pre)) rest = None.

(** ** The technology labels *)

(** The label a pattern contributes: its first match, stripped. *)
Definition label_of (pattern : regex) (content : str) : option str :=
  match re_search IGNORECASE pattern content with
  | Some mo => Some (Str.strip (group0 mo))
  | None => None
  end.

(** The labels of the patterns that match, in the order of the patterns:
    at most one for each pattern. *)
Definition first_labels (patterns : list regex) (content : str) : list str :=
  flat_map (fun pattern =>
              match label_of pattern content with
              | Some l => [l]
              | None => []
              end) patterns.

(** A text without its whitespace and in lower case. *)
Definition norm (s : str) : str :=
  Str.lower (filter (fun c => negb (Str.is_space c)) s).

Definition products (xs ys : list str) : list str :=
  flat_map (fun x => map (fun y => x ++ y) ys) xs.

(** The texts a pattern can match, without their whitespace and in lower
    case, for a pattern made of literal text, whitespace and
    alternatives. *)
Fixpoint norms (r : regex) : option (list str) :=
  match r with
  | Eps | Bol | Eol | WordB => Some [[]]
  | Cls (CChar c) => Some [norm [c]]
  | Cls (CSet cs) => Some (map (fun c => norm [c]) cs)
  | Cls CSpace => Some [[]]
  | Cls CDot => None
  | Lit l => Some [norm l]
  | Seq a b =>
      match norms a, norms b with
      | Some xs, Some ys => Some (products xs ys)
      | _, _ => None
      end
  | Alt a b =>
      match norms a, norms b with
      | Some xs, Some ys => Some (xs ++ ys)
      | _, _ => None
      end
  | Star _ CSpace => Some [[]]
  | Star _ _ => None
  | Group a => norms a
  end.

(** No text is matched, up to whitespace and case, by both patterns. *)
Definition disjointb (p q : regex) : bool :=
  match norms p, norms q with
  | Some xs, Some ys =>
      forallb (fun x => negb (existsb (fun y => if str_eq_dec x y then true else false) ys)) xs
  | _, _ => false
  end.

Fixpoint all_disjoint (ps : list regex) : bool :=
  match ps with
  | [] => true
  | p :: more => forallb (disjointb p) more && all_disjoint more
  end.

(** Two positions that differ in the case of letters only. *)
Definition same_but_case (s1 s2 : mstate) : Prop :=
  option_map Str.lower_char (m_prev s1) = option_map Str.lower_char (m_prev s2)
  /\ Str.lower (m_rest s1) = Str.lower (m_rest s2)
  /\ option_map Str.lower (m_grp s1) = option_map Str.lower (m_grp s2).

(** Two results of a match that differ in the case of letters only. *)
Definition same_match_but_case (m1 m2 : option match_obj) : Prop :=
  match m1, m2 with
  | Some a, Some b =>
      Str.lower (group0 a) = Str.lower (group0 b)
      /\ Str.lower (group1 a) = Str.lower (group1 b)
      /\ same_but_case (m_end a) (m_end b)
  | None, None => True
  | _, _ => False
  end.

(** ** Documents and machines the properties are tried on *)

(** A document whose frontmatter is empty: the two delimiter lines, then a
    heading and a paragraph. *)
Definition empty_frontmatter_doc : str :=
  L "---" ++ [nl] ++ L "---" ++ [nl]
  ++ L "# Deploy a model" ++ [nl] ++ [nl]
  ++ L "In this lab you deploy a model." ++ [nl].

(** A document whose frontmatter is one blank line, with a horizontal rule
    further down. *)
Definition blank_frontmatter_doc : str :=
  L "---" ++ [nl] ++ [nl] ++ L "---" ++ [nl]
  ++ L "# Deploy a model" ++ [nl]
  ++ L "description: 'not a field'" ++ [nl]
  ++ L "---" ++ [nl].

(** A document whose title, between double quotes, holds an apostrophe. *)
Definition apostrophe_doc : str :=
  L "---" ++ [nl]
  ++ L "title: " ++ [dquote] ++ L "Don't panic" ++ [dquote] ++ [nl]
  ++ L "description: " ++ [dquote] ++ L "A first lab" ++ [dquote] ++ [nl]
  ++ L "---" ++ [nl]
  ++ L "# Heading" ++ [nl].

(** Two machines with the same files and the same history; the second
    enumerates the files in another order. *)
Definition lab_text (p : str) : outcome str :=
  if str_eq_dec p (L "/repo/Instructions/01-intro.md")
  then Returned (L "# Intro" ++ [nl] ++ L "Use RAG with Azure OpenAI." ++ [nl])
  else if str_eq_dec p (L "/repo/Instructions/extra/02-more.md")
  then Returned (L "No heading, only prompt flow.")
  else Raised (Exn "FileNotFoundError" (L "No such file or directory")).

Definition git_answer (cmd : list str) (cwd : str) : outcome completed :=
  if in_dec str_eq_dec (L "--merges") cmd
  then Returned (Completed 0 [])
  else Returned (Completed 0 (L "2024-03-09 10:11:12 +0100|Jane Doe" ++ [nl])).

Definition first_run : world :=
  World (fun path _ => Returned path) git_answer
        (fun _ => [[L "01-intro.md"]; [L "extra"; L "02-more.md"]])
        lab_text.

Definition second_run : world :=
  World (fun path _ => Returned path) git_answer
        (fun _ => [[L "extra"; L "02-more.md"]; [L "01-intro.md"]])
        lab_text.

(** ** Where a text occurs *)

(** The character before the position reached after [l]. *)
Fixpoint last_char (prev : option ascii) (l : str) : option ascii :=
  match l with
  | [] => prev
  | c :: l' => last_char (Some c) l'
  end.

(** [key] starts at a position of [pre], in the text [pre ++ after]. *)
Fixpoint occurs_within (key pre after : str) : bool :=
  match pre with
  | [] => false
  | _ :: pre' => Str.startswith key (pre ++ after) || occurs_within key pre' after
  end.

(** [key] occurs in [s]. *)
Fixpoint occurs (key s : str) : bool :=
  Str.startswith key s
  || match s with
     | [] => false
     | _ :: s' => occurs key s'
     end.

Definition is_quote (c : ascii) : bool :=
  (if ascii_dec c squote then true else false)
  || (if ascii_dec c dquote then true else false).

(** A character a quoted value may hold for the patterns to read it whole:
    no quote of either kind and no line feed. *)
Definition plain (c : ascii) : bool :=
  negb (is_quote c) && negb (if ascii_dec c nl then true else false).

(** The first line of [s] is not blank: before any line feed, [s] holds a
    character that is not whitespace. *)
Fixpoint starts_with_text (s : str) : bool :=
  match s with
  | [] => false
  | c :: s' =>
      if ascii_dec c nl then false
      else if Str.is_space c then starts_with_text s'
      else true
  end.

(** [r"key\s*['\"](.+?)['\"]"] *)
Definition field_re (key : str) : regex :=
  Lit key ;; ws_star ;; Cls quote_set ;; Group (Plus false CDot) ;; Cls quote_set.

(** In the block [fm] the first occurrence of [key] is followed by
    optional whitespace and the quoted, non-empty, plain [value]. *)
Definition field_first (key fm value : str) : Prop :=
  exists pre ws q1 q2 post,
    fm = pre ++ key ++ ws ++ q1 :: value ++ q2 :: post
    /\ occurs_within key pre key = false
    /\ forallb Str.is_space ws = true
    /\ is_quote q1 = true /\ is_quote q2 = true
    /\ value <> []
    /\ forallb plain value = true.

(** The positions inside [u], a run the lazy star goes over, each with the
    text left from there. *)
Fixpoint inner (prev : option ascii) (u v : str) (g : option str) : list mstate :=
  match u with
  | [] => []
  | c :: u' => MState prev (u ++ v) g :: inner (Some c) u' v g
  end.

(** The closing delimiter: [\n---\s*\n]. *)
Definition closing_re : regex :=
  Cls (CChar nl) ;; Lit (L "---") ;; ws_star ;; Cls (CChar nl).

(** A document with the frontmatter [fm] between two delimiter lines. *)
Definition with_frontmatter (fm rest : str) : str :=
  L "---" ++ [nl] ++ fm ++ [nl] ++ L "---" ++ [nl] ++ rest.

(** A document that opens with a pair of delimiter lines: [block] is what
    stands between them, nothing or whole lines. *)
Definition between_delimiters (block rest : str) : str :=
  L "---" ++ [nl] ++ block ++ L "---" ++ [nl] ++ rest.

(** The fallback is cut short by every pair of delimiter lines: whenever
    the block between them, empty or not, holds neither [title:] nor
    [description:], the parser returns two empty strings. *)
Definition frontmatter_short_circuits : Prop :=
  forall block rest : str,
    (block = [] \/ exists fm, block = fm ++ [nl]) ->
    occurs (L "title:") block = false ->
    occurs (L "description:") block = false ->
    parse_frontmatter (between_delimiters block rest) = ([], []).

(** The frontmatter of a lab of the repository. *)
Definition lab_frontmatter : str :=
  L "lab:" ++ [nl]
  ++ L "    title: 'Explore the model catalog'" ++ [nl]
  ++ L "    description: " ++ [dquote] ++ L "Compare models" ++ [dquote].

(** A frontmatter without title and description. *)
Definition bare_frontmatter : str :=
  L "lab:" ++ [nl] ++ L "    level: 100".

(** ** The heading fallback *)

(** The position after [prev] is the start of a line. *)
Definition line_start (prev : option ascii) : bool :=
  match prev with
  | None => true
  | Some c => if ascii_dec c nl then true else false
  end.

(** A line of [s] begins with [#] and a whitespace character; [prev] is
    the character before [s]. *)
Fixpoint has_heading (prev : option ascii) (s : str) : bool :=
  match s with
  | [] => false
  | c :: s' =>
      (line_start prev
       && (if ascii_dec c "#" then true else false)
       && match s' with
          | d :: _ => Str.is_space d
          | [] => false
          end)
      || has_heading (Some c) s'
  end.

(** [s] begins with a character that is not whitespace. *)
Definition begins_unspaced (s : str) : bool :=
  match s with
  | c :: _ => negb (Str.is_space c)
  | [] => false
  end.

Definition no_line_feed (s : str) : bool :=
  forallb (fun c => if ascii_dec c nl then false else true) s.

(** The end of a line: the end of the text, or a line feed. *)
Definition line_end (s : str) : bool :=
  match s with
  | [] => true
  | c :: _ => if ascii_dec c nl then true else false
  end.

(** A document without frontmatter, with a heading and a paragraph. *)
Definition widgets_doc : str :=
  L "# Introduction to Widgets" ++ [nl] ++ [nl]
  ++ L "This is a lab about widgets and Azure OpenAI integration.".

(** ** Tactics *)

(** Turns the boolean range tests on character codes among the hypotheses
    into inequalities. *)
Ltac char_ranges :=
  repeat match goal with
         | H : (_ && _) = true |- _ => apply andb_true_iff in H; destruct H
         | H : (_ || _) = true |- _ => apply orb_true_iff in H; destruct H
         | H : (_ && _) = false |- _ => apply andb_false_iff in H; destruct H
         | H : (_ || _) = false |- _ => apply orb_false_iff in H; destruct H
         | H : (_ <=? _) = true |- _ => apply Nat.leb_le in H
         | H : (_ <=? _) = false |- _ => apply Nat.leb_gt in H
         | H : (_ =? _) = true |- _ => apply Nat.eqb_eq in H
         | H : (_ =? _) = false |- _ => apply Nat.eqb_neq in H
         end.


(** ** Documents of ASCII characters

    The classes of characters of [Str] and [Re] are those of the ASCII
    range; on a document made of ASCII characters they are the classes
    [re] and the methods of [str] work with. *)
Definition is_ascii (s : str) : bool := forallb (fun c => code c <? 128) s.

(** ** More vocabulary: the lines of [git] *)

(** A date of the calendar with a year of four digits (from 1000 to 9999). *)
Definition valid_date (d : date) : bool :=
  (1000 <=? year d) && (year d <? 100 * 100)
  && (1 <=? month d) && (month d <=? 12)
  && (1 <=? day d) && (day d <=? days_in_month (year d) (month d)).

Definition no_bar (s : str) : bool :=
  forallb (fun c => if ascii_dec c "|" then false else true) s.

(** The line [git log --format=%ai|%an] prints for a commit: the date, the
    time and zone, a bar, the author and what ends the line. *)
Definition git_line (d : date) (time tail : str) : str :=
  strftime d ++ L " " ++ time ++ L "|" ++ tail.

(** ** Reading a field of the output file back *)

(** The text of a quoted field, read from behind its opening quote up to
    its closing quote: a doubled quote stands for a quote. *)
Fixpoint unquote (s : str) : option (str * str) :=
  match s with
  | [] => None
  | c :: tl =>
      if ascii_dec c dquote
      then match tl with
           | c' :: tl' =>
               if ascii_dec c' dquote
               then match unquote tl' with
                    | Some (f, r) => Some (dquote :: f, r)
                    | None => None
                    end
               else Some ([], tl)
           | [] => Some ([], [])
           end
      else match unquote tl with
           | Some (f, r) => Some (c :: f, r)
           | None => None
           end
  end.

(** The text of a field without quotes: up to the next delimiter or line
    end. *)
Fixpoint unplain (s : str) : str * str :=
  match s with
  | [] => ([], [])
  | c :: tl =>
      if special c then ([], s)
      else let (f, r) := unplain tl in (c :: f, r)
  end.

(** The field at the start of [s], and the text that follows it. *)
Definition read_field (s : str) : option (str * str) :=
  match s with
  | c :: tl => if ascii_dec c dquote then unquote tl else Some (unplain s)
  | [] => Some ([], [])
  end.

(** What follows a field in a row: nothing, a comma or a line end. *)
Definition after_field (s : str) : bool :=
  match s with
  | [] => true
  | c :: _ => special c && (if ascii_dec c dquote then false else true)
  end.

(** Two records that the same line would stand for if fields were joined
    without quoting. *)
Definition comma_lab_1 : lab :=
  Lab (L "a.md") (L "Setup, then deploy") (L "RAG") NA NA.
Definition comma_lab_2 : lab :=
  Lab (L "a.md") (L "Setup") (L " then deploy,RAG") NA NA.

(** ** The closed set of labels *)

(** The spellings of the labels, in lower case and without whitespace. *)
Definition vocabulary : list str :=
  map L [ "azureopenai"; "gpt-4o"; "gpt-4"; "foundry"; "promptflow"; "rag";
          "retrievalaugmentedgeneration";
          "azureaiservices"; "azureaistudio"; "azureaifoundry";
          "aihub"; "pythonsdk"; "typescript"; ".net";
          "fine-tune"; "fine-tuning";
          "contentfilters"; "contentfiltering"; "contentfilter";
          "evaluation"; "embedding"; "modelcatalog";
          "chatapp"; "chatplayground"; "ner"; "namedentityrecognition" ]%string.

(** Every text [pattern] can match is, up to whitespace and case, in
    [vocabulary]. *)
Definition in_vocabulary (pattern : regex) : bool :=
  match norms pattern with
  | Some ns =>
      forallb (fun n => existsb (fun v => if str_eq_dec n v then true else false)
                                vocabulary) ns
  | None => false
  end.

Definition no_comma (s : str) : bool :=
  forallb (fun c => if ascii_dec c "," then false else true) s.

(** What a row of the catalog always holds: a description, a list of
    technologies, and a date that is a date or comes, as the sentinel, with
    the sentinel author. *)
Definition filled (r : lab) : Prop :=
  description r <> []
  /\ technologies r <> []
  /\ ((last_merge_date r = NA /\ last_merge_author r = NA)
      \/ is_iso_date (last_merge_date r) = true).

(** ** The heading fallback, line by line *)

(** No line of [content] begins with [#] and a space. *)
Definition no_hash_space_line (content : str) : bool :=
  forallb (fun line => negb (Str.startswith (L "# ") line)) (Str.split nl content).

(** A heading written with a tab after the [#]. *)
Definition tab_heading_doc : str :=
  L "#" ++ [ascii_of_nat 9] ++ L "Setup" ++ [nl] ++ L "Install the tool.".

(** What may follow the paragraph line for the description to be that line
    alone: nothing, or further lines when the line is longer than 100
    characters once stripped. *)
Definition paragraph_ends (paragraph rest : str) : bool :=
  match rest with
  | [] => true
  | c :: _ => (if ascii_dec c nl then true else false)
              && (100 <? length (Str.strip paragraph))
  end.

(** The second half of [parse_frontmatter]: what it returns when the
    frontmatter pattern does not match. *)
Definition heading_fallback (content : str) : str * str :=
  match re_search MULTILINE h1_re content with
  | Some h1_match =>
      (Str.strip (group1 h1_match),
       firstn 200 (Str.join (L " ") (desc_loop (Str.split nl content) [] false)))
  | None => ([], [])
  end.

(** A document whose frontmatter is never closed. *)
Definition unclosed_doc : str :=
  L "---" ++ [nl] ++ L "title: 'Lab'" ++ [nl] ++ [nl]
  ++ L "# Setup" ++ [nl] ++ L "Install the tool.".

(** ** The pattern of [.NET] *)

(** [r'\b\.NET\b'], the eleventh pattern. *)
Definition dotnet_re : regex := WordB ;; word ".NET" ;; WordB.

(** The full stop at the head of [c :: s'], if there is one and an [n] or
    [N] follows it, does not stand right after a letter, a digit or an
    underscore; [prev] is the character before it. *)
Definition dot_apart (prev : option ascii) (c : ascii) (s' : str) : bool :=
  if ascii_dec c "."
  then match s' with
       | n :: _ =>
           if ascii_dec (Str.lower_char n) "n" then negb (is_word_opt prev) else true
       | [] => true
       end
  else true.

(** So it is for every full stop of [s]. *)
Fixpoint dots_apart (prev : option ascii) (s : str) : bool :=
  match s with
  | [] => true
  | c :: s' => dot_apart prev c s' && dots_apart (Some c) s'
  end.

(** ** The trace of a run *)

(** What the run does for one file: it announces the file; then, when the
    file is read, it looks its history up, and when it is not, it logs the
    error. *)
Definition file_events (w : world) (repo_root : str) (md_file : Path) : list event :=
  Printed (L "Processing: " ++ path_str md_file)
    :: match read_text w (path_str md_file) with
       | Returned _ => fst (get_git_info w (path_str md_file) repo_root)
       | Raised e => [error_line md_file e]
       end.

(** ** Where a match begins and ends *)

Definition unspaced (c : ascii) : bool := negb (Str.is_space c).

Definition unspaced_opt (c : option ascii) : bool :=
  match c with Some x => unspaced x | None => false end.

(** A pattern that consumes nothing. *)
Definition empty_only (r : regex) : bool :=
  match r with
  | Eps | Bol | Eol | WordB => true
  | _ => false
  end.

(** Every match of the pattern begins with a character that is not
    whitespace. *)
Fixpoint starts_unspaced (r : regex) : bool :=
  match r with
  | Lit l => begins_unspaced l
  | Cls (CChar c) => unspaced c
  | Seq a b => starts_unspaced a || (empty_only a && starts_unspaced b)
  | Alt a b => starts_unspaced a && starts_unspaced b
  | Group a => starts_unspaced a
  | _ => false
  end.

(** A match of the pattern that starts after a character that is not
    whitespace ends after one. *)
Fixpoint keeps_unspaced (r : regex) : bool :=
  match r with
  | Eps | Bol | Eol | WordB => true
  | Lit l => forallb unspaced l
  | Cls (CChar c) => unspaced c
  | Seq a b => keeps_unspaced a && keeps_unspaced b
  | Alt a b => keeps_unspaced a && keeps_unspaced b
  | Group a => keeps_unspaced a
  | _ => false
  end.

(** Every match of the pattern ends after a character that is not
    whitespace. *)
Fixpoint ends_unspaced (r : regex) : bool :=
  match r with
  | Lit l => forallb unspaced l && nonempty l
  | Cls (CChar c) => unspaced c
  | Seq a b => ends_unspaced b || (ends_unspaced a && keeps_unspaced b)
  | Alt a b => ends_unspaced a && ends_unspaced b
  | Group a => ends_unspaced a
  | _ => false
  end.

(** A document in which a line ends between the two words of a name. *)
Definition wrapped_doc : str :=
  L "Deploy a model with Azure" ++ [nl] ++ L "  OpenAI today.".

(** ** The lines of the description *)

(** The lines the loop of the fallback may add to the description,
    stripped: those after a line that begins with [#] and a space which
    are not blank and begin with neither [#] nor [!]. *)
Fixpoint content_lines (lines : list str) (in_content : bool) : list str :=
  match lines with
  | [] => []
  | line :: more =>
      if Str.startswith (L "# ") line then content_lines more true
      else if in_content && nonempty (Str.strip line)
              && negb (Str.startswith (L "#") line)
              && negb (Str.startswith (L "!") line)
      then Str.strip line :: content_lines more in_content
      else content_lines more in_content
  end.

(** The lines of a document with a heading, a short line, a line of 120
    characters and a last line. *)
Definition long_lines : list str :=
  [L "# Title"; []; L "  Short. "; repeat "x"%char 120; L "Not read."].

(** ** Bars in the answer of [git] *)

Definition count_bars (s : str) : nat :=
  length (filter (fun c => if ascii_dec c "|" then true else false) s).

(** An author whose name holds a bar. *)
Definition bar_author : world :=
  World (fun path _ => Returned path)
        (fun _ _ => Returned (Completed 0 (L "2024-03-09 10:11:12 +0100|Jane | Doe" ++ [nl])))
        (fun _ => [])
        (fun _ => Returned []).

(** * The technologies of a document of any script

    [re] and the methods of [str] work on code points, and what counts as
    whitespace, as a word character, as the same letter in another case is
    read from the Unicode tables of the interpreter.  [Uni] is the
    embedding of [extract_technologies] over code points, with those
    tables as a parameter: what is proved of it for every [tables] holds
    for the tables of the interpreter that runs the script.  The patterns
    are the ones of [tech_patterns]. *)
Module Uni.

(** A character of a Python [str]: a code point. *)
Definition char := N.
Definition ustr := list char.

Definition of_ascii (a : ascii) : char := N_of_ascii a.

(** A string literal of the source. *)
Definition U (s : string) : ustr := map of_ascii (list_ascii_of_string s).

Definition nl : char := 10%N.

Definition ustr_eq_dec : forall a b : ustr, {a = b} + {a <> b} :=
  list_eq_dec N.eq_dec.

(** The tables of the interpreter:
    - [is_space c]: [str.isspace], the class [\s] of [re] and what
      [str.strip()] removes;
    - [is_word c]: the class [\w] of [re], which [\b] looks at;
    - [matches_ci a c]: the character [a] of a pattern matches [c] under
      [re.IGNORECASE];
    - [lower s]: [str.lower], which may look at the characters around a
      letter and may change the length. *)
Record tables := Tables {
  is_space : char -> bool;
  is_word : char -> bool;
  matches_ci : ascii -> char -> bool;
  lower : ustr -> ustr
}.

Section Tables.
Variable T : tables.

Fixpoint lstrip (s : ustr) : ustr :=
  match s with
  | c :: tl => if is_space T c then lstrip tl else s
  | [] => []
  end.

Definition rstrip (s : ustr) : ustr := rev (lstrip (rev s)).

(** [str.strip()] *)
Definition strip (s : ustr) : ustr := rstrip (lstrip s).

(** [sep.join(parts)] *)
Fixpoint join (sep : ustr) (parts : list ustr) : ustr :=
  match parts with
  | [] => []
  | [p] => p
  | p :: more => p ++ sep ++ join sep more
  end.

(** [a < b] on strings: lexicographic on the code points. *)
Fixpoint ltb (a b : ustr) : bool :=
  match a, b with
  | [], [] => false
  | [], _ :: _ => true
  | _ :: _, [] => false
  | x :: a', y :: b' =>
      if (x <? y)%N then true
      else if (y <? x)%N then false
      else ltb a' b'
  end.

(** ** The matcher of [Re], on code points *)

Definition eq_char (fl : flags) (a : ascii) (c : char) : bool :=
  if ignorecase fl then matches_ci T a c else (of_ascii a =? c)%N.

Definition cmatch (fl : flags) (k : cclass) (c : char) : bool :=
  match k with
  | CChar a => eq_char fl a c
  | CSet cs => existsb (fun a => eq_char fl a c) cs
  | CSpace => is_space T c
  | CDot => if dotall fl then true else negb (c =? nl)%N
  end.

Record mstate := MState { m_prev : option char; m_rest : ustr; m_grp : option ustr }.

Definition consumed (before after : ustr) : ustr :=
  firstn (length before - length after) before.

Fixpoint lit_ends (fl : flags) (l : str) (prev : option char) (rest : ustr)
         (g : option ustr) : list mstate :=
  match l with
  | [] => [MState prev rest g]
  | a :: l' =>
      match rest with
      | c :: tl => if eq_char fl a c then lit_ends fl l' (Some c) tl g else []
      | [] => []
      end
  end.

Fixpoint star_ends (p : char -> bool) (greedy : bool) (prev : option char)
         (rest : ustr) (g : option ustr) : list mstate :=
  let here := MState prev rest g in
  match rest with
  | c :: tl =>
      if p c
      then let more := star_ends p greedy (Some c) tl g in
           if greedy then more ++ [here] else here :: more
      else [here]
  | [] => [here]
  end.

Definition is_word_opt (c : option char) : bool :=
  match c with Some x => is_word T x | None => false end.

Definition at_bol (fl : flags) (st : mstate) : bool :=
  match m_prev st with
  | None => true
  | Some c => multiline fl && (c =? nl)%N
  end.

Definition at_eol (fl : flags) (st : mstate) : bool :=
  match m_rest st with
  | [] => true
  | c :: tl =>
      (c =? nl)%N && (multiline fl || match tl with [] => true | _ => false end)
  end.

Definition at_wordb (st : mstate) : bool :=
  negb (eqb (is_word_opt (m_prev st)) (is_word_opt (hd_error (m_rest st)))).

Fixpoint ends (fl : flags) (r : regex) (st : mstate) : list mstate :=
  match r with
  | Eps => [st]
  | Cls k =>
      match m_rest st with
      | c :: tl => if cmatch fl k c then [MState (Some c) tl (m_grp st)] else []
      | [] => []
      end
  | Lit l => lit_ends fl l (m_prev st) (m_rest st) (m_grp st)
  | Seq a b => flat_map (ends fl b) (ends fl a st)
  | Alt a b => ends fl a st ++ ends fl b st
  | Star greedy k =>
      star_ends (cmatch fl k) greedy (m_prev st) (m_rest st) (m_grp st)
  | Group a =>
      map (fun e => MState (m_prev e) (m_rest e)
                      (Some (consumed (m_rest st) (m_rest e))))
          (ends fl a st)
  | Bol => if at_bol fl st then [st] else []
  | Eol => if at_eol fl st then [st] else []
  | WordB => if at_wordb st then [st] else []
  end.

Record match_obj := Match { group0 : ustr; group1 : ustr; m_end : mstate }.

Definition match_at (fl : flags) (r : regex) (prev : option char) (rest : ustr)
  : option match_obj :=
  match ends fl r (MState prev rest None) with
  | e :: _ =>
      Some (Match (consumed rest (m_rest e))
                  (match m_grp e with Some g => g | None => [] end) e)
  | [] => None
  end.

Fixpoint search_from (fl : flags) (r : regex) (prev : option char) (rest : ustr)
  : option match_obj :=
  match match_at fl r prev rest with
  | Some m => Some m
  | None =>
      match rest with
      | [] => None
      | c :: tl => search_from fl r (Some c) tl
      end
  end.

(** [re.search(r, s, fl)] *)
Definition re_search (fl : flags) (r : regex) (s : ustr) : option match_obj :=
  search_from fl r None s.

Fixpoint findall_from (fuel : nat) (fl : flags) (r : regex)
         (prev : option char) (rest : ustr) : list ustr :=
  match fuel with
  | 0 => []
  | S fuel' =>
      match match_at fl r prev rest with
      | Some m =>
          match group0 m with
          | [] =>
              [] :: match rest with
                    | [] => []
                    | c :: tl => findall_from fuel' fl r (Some c) tl
                    end
          | _ :: _ =>
              group0 m
                :: findall_from fuel' fl r (m_prev (m_end m)) (m_rest (m_end m))
          end
      | None =>
          match rest with
          | [] => []
          | c :: tl => findall_from fuel' fl r (Some c) tl
          end
      end
  end.

(** [re.findall(r, s, fl)] for a pattern without capture group. *)
Definition re_findall (fl : flags) (r : regex) (s : ustr) : list ustr :=
  findall_from (S (length s)) fl r None s.

(** ** [extract_technologies] *)

(** [set.add] *)
Definition set_add (x : ustr) (s : list ustr) : list ustr :=
  if in_dec ustr_eq_dec x s then s else s ++ [x].

(** The loop over [tech_patterns]. *)
Fixpoint tech_loop (patterns : list regex) (content : ustr)
         (technologies : list ustr) : list ustr :=
  match patterns with
  | [] => technologies
  | pattern :: more =>
      match re_findall IGNORECASE pattern content with
      | m0 :: _ => tech_loop more content (set_add (strip m0) technologies)
      | [] => tech_loop more content technologies
      end
  end.

Definition NA : ustr := U "N/A".

(** The comparison of [sorted(technologies, key=str.lower)]. *)
Definition lower_lt (a b : ustr) : bool := ltb (lower T a) (lower T b).

(** [iter] is the order in which [sorted] reads the set. *)
Definition extract_technologies (iter : list ustr -> list ustr) (content : ustr)
  : ustr :=
  let technologies := tech_loop tech_patterns content [] in
  match technologies with
  | _ :: _ => join (U ", ") (sorted lower_lt (iter technologies))
  | [] => NA
  end.

(** ** The vocabulary of the properties *)

(** [m] is the first match of [r] in [s]: the match the matcher reports at
    the leftmost position at which [r] matches at all. *)
Definition first_match (fl : flags) (r : regex) (s m : ustr) : Prop :=
  exists pre post mo,
    s = pre ++ m ++ post
    /\ match_at fl r (hd_error (rev pre)) (m ++ post) = Some mo
    /\ group0 mo = m
    /\ (forall a b, pre = a ++ b -> b <> [] ->
          match_at fl r (hd_error (rev a)) (b ++ m ++ post) = None).

(** [r] matches nowhere in [s]. *)
Definition no_match (fl : flags) (r : regex) (s : ustr) : Prop :=
  forall pre rest, s = pre ++ rest -> match_at fl r (hd_error (rev pre)) rest = None.

(** The label a pattern contributes: its first match, stripped. *)
Definition label_of (pattern : regex) (content : ustr) : option ustr :=
  match re_search IGNORECASE pattern content with
  | Some mo => Some (strip (group0 mo))
  | None => None
  end.

(** The labels of the patterns that match, in the order of the patterns:
    at most one for each pattern. *)
Definition first_labels (patterns : list regex) (content : ustr) : list ustr :=
  flat_map (fun pattern =>
              match label_of pattern content with
              | Some l => [l]
              | None => []
              end) patterns.

(** [a] does not come after [b] in the order of the keys. *)
Definition key_le (a b : ustr) : Prop := lower_lt b a = false.

End Tables.

(** The other case of an ASCII letter. *)
Definition ascii_lower (c : char) : char :=
  if ((65 <=? c) && (c <=? 90))%N then (c + 32)%N else c.

(** The tables do not tell an ASCII letter from the same letter in the
    other case: both are whitespace or neither, both are word characters
    or neither, and a character of a pattern matches both or neither. *)
Definition ignores_ascii_case (T : tables) : Prop :=
  forall c c' : char,
    ascii_lower c = ascii_lower c' ->
    is_space T c = is_space T c'
    /\ is_word T c = is_word T c'
    /\ forall a, matches_ci T a c = matches_ci T a c'.

(** Two positions that differ in the case of ASCII letters only. *)
Definition same_but_case (s1 s2 : mstate) : Prop :=
  option_map ascii_lower (m_prev s1) = option_map ascii_lower (m_prev s2)
  /\ map ascii_lower (m_rest s1) = map ascii_lower (m_rest s2)
  /\ option_map (map ascii_lower) (m_grp s1) = option_map (map ascii_lower) (m_grp s2).

Definition same_match_but_case (m1 m2 : option match_obj) : Prop :=
  match m1, m2 with
  | Some a, Some b =>
      map ascii_lower (group0 a) = map ascii_lower (group0 b)
      /\ same_but_case (m_end a) (m_end b)
  | None, None => True
  | _, _ => False
  end.

(** ** The tables of Python 3.11 (Unicode 14.0)

    [space_ranges] and [word_ranges] are the code points for which
    [str.isspace] holds and those the class [\w] of [re] accepts;
    [python_matches_ci] is exact for the ASCII characters, which are the
    characters of the patterns; [python_lower] is exact on the code points
    below U+0100 and on the characters that match an ASCII letter, which,
    with whitespace, is what a label is made of. *)
Definition in_ranges (ranges : list (N * N)) (c : char) : bool :=
  existsb (fun '(lo, hi) => (lo <=? c) && (c <=? hi))%N ranges.

Definition space_ranges : list (N * N) :=
  [ (9, 13); (28, 32); (133, 133); (160, 160); (5760, 5760); (8192, 8202);
    (8232, 8233); (8239, 8239); (8287, 8287); (12288, 12288) ]%N.

Definition word_ranges : list (N * N) :=
  [ (48, 57); (65, 90); (95, 95); (97, 122); (170, 170); (178, 179);
    (181, 181); (185, 186); (188, 190); (192, 214); (216, 246); (248, 705);
    (710, 721); (736, 740); (748, 748); (750, 750); (880, 884); (886, 887);
    (890, 893); (895, 895); (902, 902); (904, 906); (908, 908); (910, 929);
    (931, 1013); (1015, 1153); (1162, 1327); (1329, 1366); (1369, 1369);
    (1376, 1416); (1488, 1514); (1519, 1522); (1568, 1610); (1632, 1641);
    (1646, 1647); (1649, 1747); (1749, 1749); (1765, 1766); (1774, 1788);
    (1791, 1791); (1808, 1808); (1810, 1839); (1869, 1957); (1969, 1969);
    (1984, 2026); (2036, 2037); (2042, 2042); (2048, 2069); (2074, 2074);
    (2084, 2084); (2088, 2088); (2112, 2136); (2144, 2154); (2160, 2183);
    (2185, 2190); (2208, 2249); (2308, 2361); (2365, 2365); (2384, 2384);
    (2392, 2401); (2406, 2415); (2417, 2432); (2437, 2444); (2447, 2448);
    (2451, 2472); (2474, 2480); (2482, 2482); (2486, 2489); (2493, 2493);
    (2510, 2510); (2524, 2525); (2527, 2529); (2534, 2545); (2548, 2553);
    (2556, 2556); (2565, 2570); (2575, 2576); (2579, 2600); (2602, 2608);
    (2610, 2611); (2613, 2614); (2616, 2617); (2649, 2652); (2654, 2654);
    (2662, 2671); (2674, 2676); (2693, 2701); (2703, 2705); (2707, 2728);
    (2730, 2736); (2738, 2739); (2741, 2745); (2749, 2749); (2768, 2768);
    (2784, 2785); (2790, 2799); (2809, 2809); (2821, 2828); (2831, 2832);
    (2835, 2856); (2858, 2864); (2866, 2867); (2869, 2873); (2877, 2877);
    (2908, 2909); (2911, 2913); (2918, 2927); (2929, 2935); (2947, 2947);
    (2949, 2954); (2958, 2960); (2962, 2965); (2969, 2970); (2972, 2972);
    (2974, 2975); (2979, 2980); (2984, 2986); (2990, 3001); (3024, 3024);
    (3046, 3058); (3077, 3084); (3086, 3088); (3090, 3112); (3114, 3129);
    (3133, 3133); (3160, 3162); (3165, 3165); (3168, 3169); (3174, 3183);
    (3192, 3198); (3200, 3200); (3205, 3212); (3214, 3216); (3218, 3240);
    (3242, 3251); (3253, 3257); (3261, 3261); (3293, 3294); (3296, 3297);
    (3302, 3311); (3313, 3314); (3332, 3340); (3342, 3344); (3346, 3386);
    (3389, 3389); (3406, 3406); (3412, 3414); (3416, 3425); (3430, 3448);
    (3450, 3455); (3461, 3478); (3482, 3505); (3507, 3515); (3517, 3517);
    (3520, 3526); (3558, 3567); (3585, 3632); (3634, 3635); (3648, 3654);
    (3664, 3673); (3713, 3714); (3716, 3716); (3718, 3722); (3724, 3747);
    (3749, 3749); (3751, 3760); (3762, 3763); (3773, 3773); (3776, 3780);
    (3782, 3782); (3792, 3801); (3804, 3807); (3840, 3840); (3872, 3891);
    (3904, 3911); (3913, 3948); (3976, 3980); (4096, 4138); (4159, 4169);
    (4176, 4181); (4186, 4189); (4193, 4193); (4197, 4198); (4206, 4208);
    (4213, 4225); (4238, 4238); (4240, 4249); (4256, 4293); (4295, 4295);
    (4301, 4301); (4304, 4346); (4348, 4680); (4682, 4685); (4688, 4694);
    (4696, 4696); (4698, 4701); (4704, 4744); (4746, 4749); (4752, 4784);
    (4786, 4789); (4792, 4798); (4800, 4800); (4802, 4805); (4808, 4822);
    (4824, 4880); (4882, 4885); (4888, 4954); (4969, 4988); (4992, 5007);
    (5024, 5109); (5112, 5117); (5121, 5740); (5743, 5759); (5761, 5786);
    (5792, 5866); (5870, 5880); (5888, 5905); (5919, 5937); (5952, 5969);
    (5984, 5996); (5998, 6000); (6016, 6067); (6103, 6103); (6108, 6108);
    (6112, 6121); (6128, 6137); (6160, 6169); (6176, 6264); (6272, 6276);
    (6279, 6312); (6314, 6314); (6320, 6389); (6400, 6430); (6470, 6509);
    (6512, 6516); (6528, 6571); (6576, 6601); (6608, 6618); (6656, 6678);
    (6688, 6740); (6784, 6793); (6800, 6809); (6823, 6823); (6917, 6963);
    (6981, 6988); (6992, 7001); (7043, 7072); (7086, 7141); (7168, 7203);
    (7232, 7241); (7245, 7293); (7296, 7304); (7312, 7354); (7357, 7359);
    (7401, 7404); (7406, 7411); (7413, 7414); (7418, 7418); (7424, 7615);
    (7680, 7957); (7960, 7965); (7968, 8005); (8008, 8013); (8016, 8023);
    (8025, 8025); (8027, 8027); (8029, 8029); (8031, 8061); (8064, 8116);
    (8118, 8124); (8126, 8126); (8130, 8132); (8134, 8140); (8144, 8147);
    (8150, 8155); (8160, 8172); (8178, 8180); (8182, 8188); (8304, 8305);
    (8308, 8313); (8319, 8329); (8336, 8348); (8450, 8450); (8455, 8455);
    (8458, 8467); (8469, 8469); (8473, 8477); (8484, 8484); (8486, 8486);
    (8488, 8488); (8490, 8493); (8495, 8505); (8508, 8511); (8517, 8521);
    (8526, 8526); (8528, 8585); (9312, 9371); (9450, 9471); (10102, 10131);
    (11264, 11492); (11499, 11502); (11506, 11507); (11517, 11517);
    (11520, 11557); (11559, 11559); (11565, 11565); (11568, 11623);
    (11631, 11631); (11648, 11670); (11680, 11686); (11688, 11694);
    (11696, 11702); (11704, 11710); (11712, 11718); (11720, 11726);
    (11728, 11734); (11736, 11742); (11823, 11823); (12293, 12295);
    (12321, 12329); (12337, 12341); (12344, 12348); (12353, 12438);
    (12445, 12447); (12449, 12538); (12540, 12543); (12549, 12591);
    (12593, 12686); (12690, 12693); (12704, 12735); (12784, 12799);
    (12832, 12841); (12872, 12879); (12881, 12895); (12928, 12937);
    (12977, 12991); (13312, 19903); (19968, 42124); (42192, 42237);
    (42240, 42508); (42512, 42539); (42560, 42606); (42623, 42653);
    (42656, 42735); (42775, 42783); (42786, 42888); (42891, 42954);
    (42960, 42961); (42963, 42963); (42965, 42969); (42994, 43009);
    (43011, 43013); (43015, 43018); (43020, 43042); (43056, 43061);
    (43072, 43123); (43138, 43187); (43216, 43225); (43250, 43255);
    (43259, 43259); (43261, 43262); (43264, 43301); (43312, 43334);
    (43360, 43388); (43396, 43442); (43471, 43481); (43488, 43492);
    (43494, 43518); (43520, 43560); (43584, 43586); (43588, 43595);
    (43600, 43609); (43616, 43638); (43642, 43642); (43646, 43695);
    (43697, 43697); (43701, 43702); (43705, 43709); (43712, 43712);
    (43714, 43714); (43739, 43741); (43744, 43754); (43762, 43764);
    (43777, 43782); (43785, 43790); (43793, 43798); (43808, 43814);
    (43816, 43822); (43824, 43866); (43868, 43881); (43888, 44002);
    (44016, 44025); (44032, 55203); (55216, 55238); (55243, 55291);
    (63744, 64109); (64112, 64217); (64256, 64262); (64275, 64279);
    (64285, 64285); (64287, 64296); (64298, 64310); (64312, 64316);
    (64318, 64318); (64320, 64321); (64323, 64324); (64326, 64433);
    (64467, 64829); (64848, 64911); (64914, 64967); (65008, 65019);
    (65136, 65140); (65142, 65276); (65296, 65305); (65313, 65338);
    (65345, 65370); (65382, 65470); (65474, 65479); (65482, 65487);
    (65490, 65495); (65498, 65500); (65536, 65547); (65549, 65574);
    (65576, 65594); (65596, 65597); (65599, 65613); (65616, 65629);
    (65664, 65786); (65799, 65843); (65856, 65912); (65930, 65931);
    (66176, 66204); (66208, 66256); (66273, 66299); (66304, 66339);
    (66349, 66378); (66384, 66421); (66432, 66461); (66464, 66499);
    (66504, 66511); (66513, 66517); (66560, 66717); (66720, 66729);
    (66736, 66771); (66776, 66811); (66816, 66855); (66864, 66915);
    (66928, 66938); (66940, 66954); (66956, 66962); (66964, 66965);
    (66967, 66977); (66979, 66993); (66995, 67001); (67003, 67004);
    (67072, 67382); (67392, 67413); (67424, 67431); (67456, 67461);
    (67463, 67504); (67506, 67514); (67584, 67589); (67592, 67592);
    (67594, 67637); (67639, 67640); (67644, 67644); (67647, 67669);
    (67672, 67702); (67705, 67742); (67751, 67759); (67808, 67826);
    (67828, 67829); (67835, 67867); (67872, 67897); (67968, 68023);
    (68028, 68047); (68050, 68096); (68112, 68115); (68117, 68119);
    (68121, 68149); (68160, 68168); (68192, 68222); (68224, 68255);
    (68288, 68295); (68297, 68324); (68331, 68335); (68352, 68405);
    (68416, 68437); (68440, 68466); (68472, 68497); (68521, 68527);
    (68608, 68680); (68736, 68786); (68800, 68850); (68858, 68899);
    (68912, 68921); (69216, 69246); (69248, 69289); (69296, 69297);
    (69376, 69415); (69424, 69445); (69457, 69460); (69488, 69505);
    (69552, 69579); (69600, 69622); (69635, 69687); (69714, 69743);
    (69745, 69746); (69749, 69749); (69763, 69807); (69840, 69864);
    (69872, 69881); (69891, 69926); (69942, 69951); (69956, 69956);
    (69959, 69959); (69968, 70002); (70006, 70006); (70019, 70066);
    (70081, 70084); (70096, 70106); (70108, 70108); (70113, 70132);
    (70144, 70161); (70163, 70187); (70272, 70278); (70280, 70280);
    (70282, 70285); (70287, 70301); (70303, 70312); (70320, 70366);
    (70384, 70393); (70405, 70412); (70415, 70416); (70419, 70440);
    (70442, 70448); (70450, 70451); (70453, 70457); (70461, 70461);
    (70480, 70480); (70493, 70497); (70656, 70708); (70727, 70730);
    (70736, 70745); (70751, 70753); (70784, 70831); (70852, 70853);
    (70855, 70855); (70864, 70873); (71040, 71086); (71128, 71131);
    (71168, 71215); (71236, 71236); (71248, 71257); (71296, 71338);
    (71352, 71352); (71360, 71369); (71424, 71450); (71472, 71483);
    (71488, 71494); (71680, 71723); (71840, 71922); (71935, 71942);
    (71945, 71945); (71948, 71955); (71957, 71958); (71960, 71983);
    (71999, 71999); (72001, 72001); (72016, 72025); (72096, 72103);
    (72106, 72144); (72161, 72161); (72163, 72163); (72192, 72192);
    (72203, 72242); (72250, 72250); (72272, 72272); (72284, 72329);
    (72349, 72349); (72368, 72440); (72704, 72712); (72714, 72750);
    (72768, 72768); (72784, 72812); (72818, 72847); (72960, 72966);
    (72968, 72969); (72971, 73008); (73030, 73030); (73040, 73049);
    (73056, 73061); (73063, 73064); (73066, 73097); (73112, 73112);
    (73120, 73129); (73440, 73458); (73648, 73648); (73664, 73684);
    (73728, 74649); (74752, 74862); (74880, 75075); (77712, 77808);
    (77824, 78894); (82944, 83526); (92160, 92728); (92736, 92766);
    (92768, 92777); (92784, 92862); (92864, 92873); (92880, 92909);
    (92928, 92975); (92992, 92995); (93008, 93017); (93019, 93025);
    (93027, 93047); (93053, 93071); (93760, 93846); (93952, 94026);
    (94032, 94032); (94099, 94111); (94176, 94177); (94179, 94179);
    (94208, 100343); (100352, 101589); (101632, 101640); (110576, 110579);
    (110581, 110587); (110589, 110590); (110592, 110882); (110928, 110930);
    (110948, 110951); (110960, 111355); (113664, 113770); (113776, 113788);
    (113792, 113800); (113808, 113817); (119520, 119539); (119648, 119672);
    (119808, 119892); (119894, 119964); (119966, 119967); (119970, 119970);
    (119973, 119974); (119977, 119980); (119982, 119993); (119995, 119995);
    (119997, 120003); (120005, 120069); (120071, 120074); (120077, 120084);
    (120086, 120092); (120094, 120121); (120123, 120126); (120128, 120132);
    (120134, 120134); (120138, 120144); (120146, 120485); (120488, 120512);
    (120514, 120538); (120540, 120570); (120572, 120596); (120598, 120628);
    (120630, 120654); (120656, 120686); (120688, 120712); (120714, 120744);
    (120746, 120770); (120772, 120779); (120782, 120831); (122624, 122654);
    (123136, 123180); (123191, 123197); (123200, 123209); (123214, 123214);
    (123536, 123565); (123584, 123627); (123632, 123641); (124896, 124902);
    (124904, 124907); (124909, 124910); (124912, 124926); (124928, 125124);
    (125127, 125135); (125184, 125251); (125259, 125259); (125264, 125273);
    (126065, 126123); (126125, 126127); (126129, 126132); (126209, 126253);
    (126255, 126269); (126464, 126467); (126469, 126495); (126497, 126498);
    (126500, 126500); (126503, 126503); (126505, 126514); (126516, 126519);
    (126521, 126521); (126523, 126523); (126530, 126530); (126535, 126535);
    (126537, 126537); (126539, 126539); (126541, 126543); (126545, 126546);
    (126548, 126548); (126551, 126551); (126553, 126553); (126555, 126555);
    (126557, 126557); (126559, 126559); (126561, 126562); (126564, 126564);
    (126567, 126570); (126572, 126578); (126580, 126583); (126585, 126588);
    (126590, 126590); (126592, 126601); (126603, 126619); (126625, 126627);
    (126629, 126633); (126635, 126651); (127232, 127244); (130032, 130041);
    (131072, 173791); (173824, 177976); (177984, 178205); (178208, 183969);
    (183984, 191456); (194560, 195101); (196608, 201546) ]%N.

(** Under [re.IGNORECASE] an ASCII letter matches itself in both cases;
    [I] and [i] also match U+0130 and U+0131, [S] and [s] U+017F, [K] and
    [k] U+212A; another ASCII character matches itself only. *)
Definition python_matches_ci (a : ascii) (c : char) : bool :=
  let la := ascii_lower (of_ascii a) in
  ((c <? 128) && (ascii_lower c =? la))%N
  || ((la =? 105) && ((c =? 304) || (c =? 305)))%N
  || ((la =? 115) && (c =? 383))%N
  || ((la =? 107) && (c =? 8490))%N.

(** [str.lower] of one character: U+0130 gives two code points. *)
Definition python_lower_char (c : char) : ustr :=
  if in_ranges [(65, 90); (192, 214); (216, 222)]%N c then [(c + 32)%N]
  else if (c =? 304)%N then [105; 775]%N
  else if (c =? 8490)%N then [107%N]
  else [c].

Definition python_lower (s : ustr) : ustr := flat_map python_lower_char s.

Definition python_tables : tables :=
  Tables (in_ranges space_ranges) (in_ranges word_ranges)
         python_matches_ci python_lower.

(** A document in which the two words of a name are held together by a
    no-break space (U+00A0), and a label is written in lower case; and the
    same document in capitals. *)
Definition nbsp_doc : ustr :=
  U "Use rag with Azure" ++ [160%N] ++ U "OpenAI.".

Definition nbsp_doc_capitals : ustr :=
  U "USE RAG WITH AZURE" ++ [160%N] ++ U "OPENAI.".

(** A document in which a line ends between the two words of a name, the
    next line starting with a no-break space. *)
Definition line_break_doc : ustr :=
  U "Try Azure" ++ [nl; 160%N] ++ U "OpenAI and rag.".

(** Every character of a pattern, and every code point below 128. *)
Definition all_ascii : list ascii := map ascii_of_nat (seq 0 256).
Definition below_128 : list char := map N.of_nat (seq 0 128).

(** [T] does not tell the case of the letters apart, checked on the code
    points below 128. *)
Definition case_blind_below_128 (T : tables) : bool :=
  forallb (fun c =>
    forallb (fun c' =>
      if (ascii_lower c =? ascii_lower c')%N
      then eqb (is_space T c) (is_space T c')
           && eqb (is_word T c) (is_word T c')
           && forallb (fun a => eqb (matches_ci T a c) (matches_ci T a c')) all_ascii
      else true) below_128) below_128.

End Uni.

(** ** Documents of ASCII characters as lists of code points *)

Definition embed (s : str) : Uni.ustr := map Uni.of_ascii s.

Definition embed_state (st : mstate) : Uni.mstate :=
  Uni.MState (option_map Uni.of_ascii (m_prev st)) (embed (m_rest st))
             (option_map embed (m_grp st)).

Definition embed_match (mo : match_obj) : Uni.match_obj :=
  Uni.Match (embed (group0 mo)) (embed (group1 mo)) (embed_state (m_end mo)).

Definition is_ascii_char (c : ascii) : bool := code c <? 128.

Definition is_ascii_opt (c : option ascii) : bool :=
  match c with Some x => is_ascii_char x | None => true end.

(** A position in a document of ASCII characters. *)
Definition ascii_state (st : mstate) : bool :=
  is_ascii_opt (m_prev st) && is_ascii (m_rest st).

(** On the ASCII characters the tables of Python are the classes of
    [Str] and [Re]. *)
Definition agree_on (c : ascii) : bool :=
  eqb (Uni.is_space Uni.python_tables (Uni.of_ascii c)) (Str.is_space c)
  && eqb (Uni.is_word Uni.python_tables (Uni.of_ascii c)) (Str.is_word c)
  && forallb (fun a =>
                eqb (Uni.matches_ci Uni.python_tables a (Uni.of_ascii c))
                    (eq_char IGNORECASE a c)) Uni.all_ascii
  && (if Uni.ustr_eq_dec (Uni.python_lower_char (Uni.of_ascii c))
                         [Uni.of_ascii (Str.lower_char c)] then true else false).

(** * Properties *)

Unset Implicit Arguments.

(** ** The provenance lookup *)

Lemma nonempty_false (s : str) : nonempty s = false <-> s = [].
Proof. destruct s; simpl; split; congruence. Qed.

Lemma nonempty_true (s : str) : nonempty s = true <-> s <> [].
Proof. destruct s; simpl; split; congruence. Qed.

Lemma read_result_unusable (r : completed) :
  unusable r -> read_result r = ([], Returned None).
Proof.
  unfold unusable, read_result. intros [H | [H | H]].
  - destruct (returncode r =? 0)%Z eqn:E; [apply Z.eqb_eq in E; contradiction | reflexivity].
  - rewrite H. simpl. rewrite andb_false_r. reflexivity.
  - destruct ((returncode r =? 0)%Z && nonempty (Str.strip (stdout r))); [| reflexivity].
    destruct (Str.split "|" (Str.strip (stdout r))) as [| a [| b [| c l]]];
      simpl in H; try reflexivity. contradiction.
Qed.

Lemma read_result_found (r : completed) (date_str author : str) (d : date) :
  holds r date_str author -> parses date_str d ->
  read_result r = ([], Returned (Some (strftime d, author))).
Proof.
  intros (Hrc & Hne & Hsplit) (first & more & Hws & Hp).
  unfold read_result. rewrite Hrc, Hsplit. simpl.
  apply nonempty_true in Hne. rewrite Hne.
  rewrite Hws. simpl. rewrite Hp. reflexivity.
Qed.

Lemma read_result_bad_date (r : completed) (date_str author : str) :
  holds r date_str author -> unparseable date_str ->
  exists e, read_result r = ([], Raised e).
Proof.
  intros (Hrc & Hne & Hsplit) Hbad.
  unfold read_result. rewrite Hrc, Hsplit. simpl.
  apply nonempty_true in Hne. rewrite Hne.
  destruct Hbad as [Hws | (first & more & e & Hws & Hp)]; rewrite Hws; simpl.
  - eexists; reflexivity.
  - rewrite Hp. eexists; reflexivity.
Qed.

(** Every completed query is of no use, or holds a result whose date
    parses or does not. *)
Lemma read_result_cases (r : completed) :
  (unusable r /\ read_result r = ([], Returned None))
  \/ (exists date_str author d,
        holds r date_str author /\ parses date_str d
        /\ read_result r = ([], Returned (Some (strftime d, author))))
  \/ (exists date_str author e,
        holds r date_str author /\ unparseable date_str
        /\ read_result r = ([], Raised e)).
Proof.
  destruct (Z.eq_dec (returncode r) 0) as [Hrc | Hrc].
  2:{ left. split; [left; assumption | apply read_result_unusable; left; assumption]. }
  destruct (Str.strip (stdout r)) as [| c s] eqn:Hs.
  { left. split; [right; left; assumption | apply read_result_unusable; right; left; assumption]. }
  destruct (Str.split "|" (Str.strip (stdout r))) as [| a [| b [| x l]]] eqn:Hsp.
  1,2,4: left; assert (U : unusable r) by (right; right; rewrite Hsp; simpl; lia);
         split; [exact U | apply read_result_unusable; exact U].
  assert (Hh : holds r a b).
  { repeat split; try assumption. rewrite Hs. discriminate. }
  right.
  destruct (Str.split_ws a) as [| first more] eqn:Hws.
  { right. assert (Hb : unparseable a) by (left; assumption).
    destruct (read_result_bad_date _ _ _ Hh Hb) as [e He].
    exists a, b, e. auto. }
  destruct (strptime first) as [d | e] eqn:Hp.
  - left. exists a, b, d.
    assert (Hpar : parses a d) by (exists first, more; auto).
    split; [exact Hh | split; [exact Hpar | eapply read_result_found; eassumption]].
  - right. assert (Hb : unparseable a) by (right; exists first, more, e; auto).
    destruct (read_result_bad_date _ _ _ Hh Hb) as [e' He'].
    exists a, b, e'. auto.
Qed.

Lemma code_ascii_of_nat (n : nat) : n < 256 -> code (ascii_of_nat n) = n.
Proof. apply nat_ascii_embedding. Qed.

Lemma is_digit_digit_char (n : nat) : Str.is_digit (digit_char n) = true.
Proof.
  unfold digit_char, Str.is_digit.
  assert (H : n mod 10 < 10) by (apply Nat.mod_upper_bound; lia).
  rewrite code_ascii_of_nat by lia.
  apply andb_true_iff; split; apply Nat.leb_le; lia.
Qed.

Lemma strftime_iso (d : date) : is_iso_date (strftime d) = true.
Proof.
  cbv [strftime pad4 pad2 app L list_ascii_of_string is_iso_date forallb].
  rewrite !is_digit_digit_char. reflexivity.
Qed.

(** [get_git_info], path by path. *)
Lemma git_relpath_raises (w : world) (file_path repo_root : str) (e : exn) :
  relpath w file_path repo_root = Raised e ->
  get_git_info w file_path repo_root = ([warning file_path e], Returned (NA, NA)).
Proof. intros H. unfold get_git_info. rewrite H. reflexivity. Qed.

Lemma git_first_raises (w : world) (file_path repo_root rel_path : str) (e : exn) :
  relpath w file_path repo_root = Returned rel_path ->
  subprocess_run w (git_log_merges rel_path) repo_root = Raised e ->
  get_git_info w file_path repo_root
  = ([Ran (git_log_merges rel_path) repo_root; warning file_path e],
     Returned (NA, NA)).
Proof.
  intros H H1. unfold get_git_info, run. rewrite H. simpl. rewrite H1. reflexivity.
Qed.

Lemma git_first_read (w : world) (file_path repo_root rel_path : str)
      (r1 : completed) (o : outcome (option (str * str))) :
  relpath w file_path repo_root = Returned rel_path ->
  subprocess_run w (git_log_merges rel_path) repo_root = Returned r1 ->
  read_result r1 = ([], o) ->
  get_git_info w file_path repo_root
  = match o with
    | Returned (Some info) =>
        ([Ran (git_log_merges rel_path) repo_root], Returned info)
    | Raised e =>
        ([Ran (git_log_merges rel_path) repo_root; warning file_path e],
         Returned (NA, NA))
    | Returned None =>
        match subprocess_run w (git_log rel_path) repo_root with
        | Raised e =>
            ([Ran (git_log_merges rel_path) repo_root;
              Ran (git_log rel_path) repo_root; warning file_path e],
             Returned (NA, NA))
        | Returned r2 =>
            match snd (read_result r2) with
            | Returned (Some info) =>
                ([Ran (git_log_merges rel_path) repo_root;
                  Ran (git_log rel_path) repo_root], Returned info)
            | Returned None =>
                ([Ran (git_log_merges rel_path) repo_root;
                  Ran (git_log rel_path) repo_root], Returned (NA, NA))
            | Raised e =>
                ([Ran (git_log_merges rel_path) repo_root;
                  Ran (git_log rel_path) repo_root; warning file_path e],
                 Returned (NA, NA))
            end
        end
    end.
Proof.
  intros H H1 Hr. unfold get_git_info, run. rewrite H. simpl. rewrite H1. simpl.
  rewrite Hr. destruct o as [[info |] | e]; simpl; try reflexivity.
  destruct (subprocess_run w (git_log rel_path) repo_root) as [r2 | e]; simpl;
    [| reflexivity].
  destruct (read_result_cases r2) as [[_ E] | [(ds & a & d & _ & _ & E) | (ds & a & e & _ & _ & E)]];
    rewrite E; reflexivity.
Qed.

Lemma git_failed_sentinel (w : world) (file_path repo_root : str) :
  failed w file_path repo_root ->
  snd (get_git_info w file_path repo_root) = Returned (NA, NA).
Proof.
  intros [e H | rel e H H1 | rel r1 ds a H H1 Hh Hb | rel r1 e H H1 U H2
          | rel r1 r2 H H1 U H2 U2 | rel r1 r2 ds a H H1 U H2 Hh Hb].
  - rewrite (git_relpath_raises _ _ _ _ H). reflexivity.
  - rewrite (git_first_raises _ _ _ _ _ H H1). reflexivity.
  - destruct (read_result_bad_date _ _ _ Hh Hb) as [e E].
    rewrite (git_first_read _ _ _ _ _ _ H H1 E). reflexivity.
  - rewrite (git_first_read _ _ _ _ _ _ H H1 (read_result_unusable _ U)), H2. reflexivity.
  - rewrite (git_first_read _ _ _ _ _ _ H H1 (read_result_unusable _ U)), H2.
    rewrite (read_result_unusable _ U2). reflexivity.
  - destruct (read_result_bad_date _ _ _ Hh Hb) as [e E].
    rewrite (git_first_read _ _ _ _ _ _ H H1 (read_result_unusable _ U)), H2, E. reflexivity.
Qed.

Lemma git_failed_or_answered (w : world) (file_path repo_root : str) :
  failed w file_path repo_root
  \/ exists date author,
       answered w file_path repo_root date author
       /\ snd (get_git_info w file_path repo_root) = Returned (date, author).
Proof.
  destruct (relpath w file_path repo_root) as [rel_path | e] eqn:Hrel.
  2:{ left. eapply failed_relpath; eassumption. }
  destruct (subprocess_run w (git_log_merges rel_path) repo_root) as [r1 | e] eqn:H1.
  2:{ left. eapply failed_first_raises; eassumption. }
  destruct (read_result_cases r1)
    as [[U E] | [(ds & a & d & Hh & Hp & E) | (ds & a & e & Hh & Hb & E)]].
  - destruct (subprocess_run w (git_log rel_path) repo_root) as [r2 | e] eqn:H2.
    2:{ left. eapply failed_second_raises; eassumption. }
    destruct (read_result_cases r2)
      as [[U2 E2] | [(ds & a & d & Hh & Hp & E2) | (ds & a & e & Hh & Hb & E2)]].
    + left. eapply failed_second_unusable; eassumption.
    + right. exists (strftime d), a. split.
      * exists rel_path, (git_log rel_path), r2, ds, d. auto 10.
      * rewrite (git_first_read _ _ _ _ _ _ Hrel H1 E), H2, E2. reflexivity.
    + left. eapply failed_second_date; eassumption.
  - right. exists (strftime d), a. split.
    + exists rel_path, (git_log_merges rel_path), r1, ds, d. auto 10.
    + rewrite (git_first_read _ _ _ _ _ _ Hrel H1 E). reflexivity.
  - left. eapply failed_first_date; eassumption.
Qed.

Lemma get_git_info_total (w : world) (file_path repo_root : str) :
  exists date author,
    snd (get_git_info w file_path repo_root) = Returned (date, author).
Proof.
  destruct (git_failed_or_answered w file_path repo_root) as [F | (d & a & _ & E)].
  - exists NA, NA. apply git_failed_sentinel, F.
  - exists d, a. exact E.
Qed.

(** C6. The lookup never lets an exception through.  Whatever the machine
    answers, it returns a pair; in every failure mode (no relative path,
    tool absent, no repository or another non-zero exit, empty or malformed
    output, a date that does not parse) the pair is exactly the sentinel
    pair; and when no failure mode applies the pair is the date and the
    author [git] answered. *)
Theorem get_git_info_never_raises (w : world) (file_path repo_root : str) :
  (exists date author,
     snd (get_git_info w file_path repo_root) = Returned (date, author))
  /\ (failed w file_path repo_root ->
      snd (get_git_info w file_path repo_root) = Returned (NA, NA))
  /\ (failed w file_path repo_root
      \/ exists date author,
           answered w file_path repo_root date author
           /\ snd (get_git_info w file_path repo_root) = Returned (date, author)).
Proof.
  split; [| split].
  - apply get_git_info_total.
  - apply git_failed_sentinel.
  - apply git_failed_or_answered.
Qed.

(** On a machine without [git] the first call raises, and the lookup
    returns the sentinel pair. *)
Lemma get_git_info_never_raises_witness :
  failed no_git (L "Instructions/lab.md") (L "/repo")
  /\ snd (get_git_info no_git (L "Instructions/lab.md") (L "/repo"))
     = Returned (NA, NA).
Proof.
  assert (F : failed no_git (L "Instructions/lab.md") (L "/repo")).
  { eapply failed_first_raises; reflexivity. }
  split; [exact F |].
  exact (proj1 (proj2 (get_git_info_never_raises no_git (L "Instructions/lab.md")
                         (L "/repo"))) F).
Defined.

(** C7, as stated, fails: when the first call of [git] raises (the tool is
    absent) the exception leaves the [try] block, and the unrestricted
    query is never run. *)
Lemma fallback_on_every_failure_fails : ~ fallback_on_every_failure.
Proof.
  intros H.
  specialize (H no_git (L "Instructions/lab.md") (L "/repo") (L "Instructions/lab.md")
                eq_refl I).
  vm_compute in H. intuition discriminate.
Qed.

(** C7, amended.  When the merge-restricted query completes and is of no
    use (non-zero exit, empty output, malformed output) the lookup runs the
    query again without the restriction; when the call of the
    merge-restricted query raises (tool absent) the lookup returns the
    sentinel pair and runs nothing more.  A query that holds a result gives
    the pair of the lookup: its date rendered as YYYY-MM-DD and its author
    when the date parses, the sentinel pair when it does not. *)
Theorem git_fallback_and_date (w : world) (file_path repo_root rel_path : str)
        (Hrel : relpath w file_path repo_root = Returned rel_path) :
  let lookup := get_git_info w file_path repo_root in
  let merges := subprocess_run w (git_log_merges rel_path) repo_root in
  let any := subprocess_run w (git_log rel_path) repo_root in
  (forall r1, merges = Returned r1 -> unusable r1 ->
     ran lookup = [git_log_merges rel_path; git_log rel_path])
  /\ (forall e, merges = Raised e ->
        ran lookup = [git_log_merges rel_path]
        /\ snd lookup = Returned (NA, NA))
  /\ (forall r1 date_str author, merges = Returned r1 ->
        holds r1 date_str author ->
        (forall d, parses date_str d ->
           snd lookup = Returned (strftime d, author)
           /\ is_iso_date (strftime d) = true)
        /\ (unparseable date_str -> snd lookup = Returned (NA, NA)))
  /\ (forall r1 r2 date_str author, merges = Returned r1 -> unusable r1 ->
        any = Returned r2 -> holds r2 date_str author ->
        (forall d, parses date_str d ->
           snd lookup = Returned (strftime d, author)
           /\ is_iso_date (strftime d) = true)
        /\ (unparseable date_str -> snd lookup = Returned (NA, NA))).
Proof.
  intros lookup merges any. subst lookup merges any.
  split; [| split; [| split]].
  - intros r1 H1 U.
    rewrite (git_first_read _ _ _ _ _ _ Hrel H1 (read_result_unusable _ U)).
    destruct (subprocess_run w (git_log rel_path) repo_root) as [r2 | e];
      [| reflexivity].
    destruct (snd (read_result r2)) as [[info |] | e]; reflexivity.
  - intros e H1. rewrite (git_first_raises _ _ _ _ _ Hrel H1). split; reflexivity.
  - intros r1 ds a H1 Hh. split.
    + intros d Hp.
      rewrite (git_first_read _ _ _ _ _ _ Hrel H1 (read_result_found _ _ _ _ Hh Hp)).
      split; [reflexivity | apply strftime_iso].
    + intros Hb. destruct (read_result_bad_date _ _ _ Hh Hb) as [e E].
      rewrite (git_first_read _ _ _ _ _ _ Hrel H1 E). reflexivity.
  - intros r1 r2 ds a H1 U H2 Hh. split.
    + intros d Hp.
      rewrite (git_first_read _ _ _ _ _ _ Hrel H1 (read_result_unusable _ U)), H2.
      rewrite (read_result_found _ _ _ _ Hh Hp).
      split; [reflexivity | apply strftime_iso].
    + intros Hb. destruct (read_result_bad_date _ _ _ Hh Hb) as [e E].
      rewrite (git_first_read _ _ _ _ _ _ Hrel H1 (read_result_unusable _ U)), H2, E.
      reflexivity.
Qed.

(** A file that was never merged: the restricted query prints nothing, the
    lookup runs the unrestricted one and returns its date and author. *)
Lemma git_fallback_and_date_witness :
  ran (get_git_info never_merged (L "Instructions/lab.md") (L "/repo"))
  = [git_log_merges (L "Instructions/lab.md"); git_log (L "Instructions/lab.md")]
  /\ snd (get_git_info never_merged (L "Instructions/lab.md") (L "/repo"))
     = Returned (L "2024-03-09", L "Jane Doe").
Proof.
  pose proof (git_fallback_and_date never_merged (L "Instructions/lab.md")
                (L "/repo") (L "Instructions/lab.md") eq_refl) as H.
  cbv zeta in H. destruct H as (H1 & _ & _ & H4). split.
  - apply (H1 (Completed 0 [])); [reflexivity | right; left; reflexivity].
  - refine (proj1 (proj1 (H4 (Completed 0 []) _ (L "2024-03-09 10:11:12 +0100")
                             (L "Jane Doe") eq_refl _ eq_refl _)
                         (Date 2024 3 9) _)).
    + right; left; reflexivity.
    + repeat split; discriminate.
    + exists (L "2024-03-09"), [L "10:11:12"; L "+0100"]. split; reflexivity.
Defined.

(** ** Order on strings and paths, and [sorted] *)

Lemma ltb_irrefl (a : str) : Str.ltb a a = false.
Proof.
  induction a as [| x a IH]; simpl; [reflexivity |].
  rewrite Nat.ltb_irrefl. exact IH.
Qed.

Lemma code_inj (x y : ascii) : code x = code y -> x = y.
Proof.
  unfold code. intros H.
  rewrite <- (ascii_nat_embedding x), <- (ascii_nat_embedding y), H. reflexivity.
Qed.

Lemma ltb_trans (a b c : str) :
  Str.ltb a b = true -> Str.ltb b c = true -> Str.ltb a c = true.
Proof.
  revert b c. induction a as [| x a IH]; intros [| y b] [| z c]; simpl;
    try congruence.
  destruct (code x <? code y) eqn:Exy.
  - intros _. apply Nat.ltb_lt in Exy.
    destruct (code y <? code z) eqn:Eyz.
    + intros _. apply Nat.ltb_lt in Eyz.
      assert (H : (code x <? code z) = true) by (apply Nat.ltb_lt; lia).
      rewrite H. reflexivity.
    + destruct (code z <? code y) eqn:Ezy; [discriminate |].
      apply Nat.ltb_ge in Eyz, Ezy. intros _.
      assert (H : (code x <? code z) = true) by (apply Nat.ltb_lt; lia).
      rewrite H. reflexivity.
  - destruct (code y <? code x) eqn:Eyx; [discriminate |].
    apply Nat.ltb_ge in Exy, Eyx. intros Hab.
    destruct (code y <? code z) eqn:Eyz.
    + intros _. apply Nat.ltb_lt in Eyz.
      assert (H : (code x <? code z) = true) by (apply Nat.ltb_lt; lia).
      rewrite H. reflexivity.
    + destruct (code z <? code y) eqn:Ezy; [discriminate |].
      apply Nat.ltb_ge in Eyz, Ezy. intros Hbc.
      assert (H1 : (code x <? code z) = false) by (apply Nat.ltb_ge; lia).
      assert (H2 : (code z <? code x) = false) by (apply Nat.ltb_ge; lia).
      rewrite H1, H2. eapply IH; eassumption.
Qed.

Lemma ltb_total (a b : str) :
  Str.ltb a b = false -> Str.ltb b a = false -> a = b.
Proof.
  revert b. induction a as [| x a IH]; intros [| y b]; simpl; try congruence.
  destruct (code x <? code y) eqn:Exy; [discriminate |].
  destruct (code y <? code x) eqn:Eyx; [discriminate |].
  apply Nat.ltb_ge in Exy, Eyx. intros H1 H2.
  assert (x = y) by (apply code_inj; lia). subst y.
  f_equal. apply IH; assumption.
Qed.

Lemma path_lt_irrefl (p : Path) : path_lt p p = false.
Proof.
  induction p as [| a p IH]; simpl; [reflexivity |].
  rewrite ltb_irrefl. exact IH.
Qed.

Lemma path_lt_trans (p q r : Path) :
  path_lt p q = true -> path_lt q r = true -> path_lt p r = true.
Proof.
  revert q r. induction p as [| a p IH]; intros [| b q] [| c r]; simpl;
    try congruence.
  destruct (Str.ltb a b) eqn:Eab.
  - intros _. destruct (Str.ltb b c) eqn:Ebc.
    + intros _. rewrite (ltb_trans _ _ _ Eab Ebc). reflexivity.
    + destruct (Str.ltb c b) eqn:Ecb; [discriminate |]. intros _.
      rewrite <- (ltb_total _ _ Ebc Ecb), Eab. reflexivity.
  - destruct (Str.ltb b a) eqn:Eba; [discriminate |].
    rewrite <- (ltb_total _ _ Eab Eba). intros Hpq.
    destruct (Str.ltb a c) eqn:Eac; [reflexivity |].
    destruct (Str.ltb c a) eqn:Eca; [discriminate |].
    intros Hqr. eapply IH; eassumption.
Qed.

Lemma path_lt_total (p q : Path) :
  path_lt p q = false -> path_lt q p = false -> p = q.
Proof.
  revert q. induction p as [| a p IH]; intros [| b q]; simpl; try congruence.
  destruct (Str.ltb a b) eqn:Eab; [discriminate |].
  destruct (Str.ltb b a) eqn:Eba; [discriminate |].
  rewrite (ltb_total _ _ Eab Eba).
  intros H1 H2. f_equal. apply IH; assumption.
Qed.

Lemma lower_lt_irrefl (a : str) : lower_lt a a = false.
Proof. apply ltb_irrefl. Qed.

Lemma lower_lt_trans (a b c : str) :
  lower_lt a b = true -> lower_lt b c = true -> lower_lt a c = true.
Proof. apply ltb_trans. Qed.

Section SortedFacts.
Variable A : Type.
Variable lt : A -> A -> bool.

Hypothesis lt_irrefl : forall x, lt x x = false.
Hypothesis lt_trans : forall x y z, lt x y = true -> lt y z = true -> lt x z = true.

Lemma lt_asym (x y : A) : lt x y = true -> lt y x = false.
  Proof.
    intros H. destruct (lt y x) eqn:E; [| reflexivity].
    rewrite <- (lt_irrefl x). symmetry. eapply lt_trans; eassumption.
  Qed.

Lemma insert_sorted_perm (x : A) (l : list A) :
    Permutation (insert_sorted lt x l) (x :: l).
  Proof.
    induction l as [| y l IH]; simpl; [reflexivity |].
    destruct (lt y x); [| reflexivity].
    rewrite IH. apply perm_swap.
  Qed.

Lemma sorted_perm (l : list A) : Permutation (sorted lt l) l.
  Proof.
    induction l as [| x l IH]; simpl; [reflexivity |].
    rewrite insert_sorted_perm. constructor. exact IH.
  Qed.

Lemma sorted_length (l : list A) : length (sorted lt l) = length l.
  Proof. apply Permutation_length, sorted_perm. Qed.

  (** On a total order the result has no inversion. *)
Hypothesis lt_cotrans :
    forall x y z, lt x y = false -> lt y z = false -> lt x z = false.

Lemma insert_sorted_sorted (x : A) (l : list A) :
    StronglySorted (not_after lt) l -> StronglySorted (not_after lt) (insert_sorted lt x l).
  Proof.
    induction l as [| y l IH]; intros S; simpl.
    - repeat constructor.
    - inversion S as [| ? ? S' F]; subst.
      destruct (lt y x) eqn:E.
      + constructor; [apply IH, S' |].
        assert (P := insert_sorted_perm x l).
        apply (Permutation_Forall (Permutation_sym P)).
        constructor; [apply lt_asym, E | exact F].
      + constructor; [exact S |].
        constructor; [exact E |].
        apply (Forall_impl (P := not_after lt y)); [| exact F].
        intros z Hz. eapply lt_cotrans; eassumption.
  Qed.

Lemma sorted_sorted (l : list A) : StronglySorted (not_after lt) (sorted lt l).
  Proof.
    induction l as [| x l IH]; simpl; [constructor |].
    apply insert_sorted_sorted, IH.
  Qed.

  (** Two sorted arrangements of the same elements are equal when no two
      different elements are tied. *)
Lemma sorted_unique (l1 l2 : list A) :
    Permutation l1 l2 ->
    StronglySorted (not_after lt) l1 -> StronglySorted (not_after lt) l2 ->
    (forall x y, In x l1 -> In y l1 -> lt x y = false -> lt y x = false -> x = y) ->
    l1 = l2.
  Proof.
    revert l2. induction l1 as [| x l1 IH]; intros l2 P S1 S2 T.
    - apply Permutation_nil in P. subst. reflexivity.
    - destruct l2 as [| y l2].
      { apply Permutation_sym, Permutation_nil in P. discriminate. }
      inversion S1 as [| ? ? S1' F1]; subst.
      inversion S2 as [| ? ? S2' F2]; subst.
      assert (Hx : In x (y :: l2)) by (apply (Permutation_in _ P); left; reflexivity).
      assert (Hy : In y (x :: l1))
        by (apply (Permutation_in _ (Permutation_sym P)); left; reflexivity).
      assert (E : x = y).
      { destruct Hx as [Hx | Hx]; [congruence |].
        destruct Hy as [Hy | Hy]; [congruence |].
        apply T; [left; reflexivity | right; exact Hy | |].
        - rewrite Forall_forall in F2. apply F2, Hx.
        - rewrite Forall_forall in F1. apply F1, Hy. }
      subst y. f_equal. apply IH.
      + eapply Permutation_cons_inv, P.
      + exact S1'.
      + exact S2'.
      + intros a b Ha Hb. apply T; right; assumption.
  Qed.

Lemma sorted_perm_eq (l1 l2 : list A) :
    Permutation l1 l2 ->
    (forall x y, In x l1 -> In y l1 -> lt x y = false -> lt y x = false -> x = y) ->
    sorted lt l1 = sorted lt l2.
  Proof.
    intros P T. apply sorted_unique.
    - rewrite !sorted_perm. exact P.
    - apply sorted_sorted.
    - apply sorted_sorted.
    - intros x y Hx Hy. apply T; apply (Permutation_in _ (sorted_perm l1)); assumption.
  Qed.
End SortedFacts.

Lemma cotrans_of_total (A : Type) (lt : A -> A -> bool) :
  (forall x, lt x x = false) ->
  (forall x y z, lt x y = true -> lt y z = true -> lt x z = true) ->
  (forall x y, lt x y = false -> lt y x = false -> x = y) ->
  forall x y z, lt x y = false -> lt y z = false -> lt x z = false.
Proof.
  intros Hi Ht Hto x y z Hxy Hyz.
  destruct (lt x z) eqn:Exz; [| reflexivity].
  destruct (lt y x) eqn:Eyx.
  - rewrite (Ht _ _ _ Eyx Exz) in Hyz. discriminate.
  - rewrite (Hto _ _ Hxy Eyx) in Exz. congruence.
Qed.

Lemma ltb_cotrans (a b c : str) :
  Str.ltb a b = false -> Str.ltb b c = false -> Str.ltb a c = false.
Proof. apply cotrans_of_total; [apply ltb_irrefl | apply ltb_trans | apply ltb_total]. Qed.

Lemma path_lt_cotrans (p q r : Path) :
  path_lt p q = false -> path_lt q r = false -> path_lt p r = false.
Proof.
  apply cotrans_of_total;
    [apply path_lt_irrefl | apply path_lt_trans | apply path_lt_total].
Qed.

Lemma lower_lt_cotrans (a b c : str) :
  lower_lt a b = false -> lower_lt b c = false -> lower_lt a c = false.
Proof. apply ltb_cotrans. Qed.


(** ** The catalog assembler *)

Lemma strip_prefix_app (base rel : Path) : strip_prefix base (base ++ rel) = Some rel.
Proof.
  induction base as [| a base IH]; simpl; [reflexivity |].
  destruct (str_eq_dec a a); [exact IH | congruence].
Qed.

Lemma relative_to_app (base rel : Path) : relative_to (base ++ rel) base = Returned rel.
Proof. unfold relative_to. rewrite strip_prefix_app. reflexivity. Qed.

Lemma get_git_info_returns (w : world) (file_path repo_root : str) :
  exists evs info, get_git_info w file_path repo_root = (evs, Returned info).
Proof.
  destruct (get_git_info_total w file_path repo_root) as (d & a & E).
  destruct (get_git_info w file_path repo_root) as [evs r]. simpl in E. subst r.
  exists evs, (d, a). reflexivity.
Qed.

Section Assembler.
Variable w : world.
Variable iter : list str -> list str.
Variable repo_root : str.
Variable instructions_path : Path.

(** One turn of the loop on a file that is read: one record more. *)
Lemma process_one_read (md_file : Path) (rel : Path) (content : str) (labs : list lab) :
  md_file = instructions_path ++ rel ->
  read_text w (path_str md_file) = Returned content ->
  exists evs,
    process_one w iter repo_root instructions_path md_file labs
    = (evs, Returned (labs ++ [lab_of w iter repo_root instructions_path md_file content])).
Proof.
  intros Hp Hr. unfold process_one, lab_of. rewrite Hr. simpl.
  destruct (parse_frontmatter content) as [title description].
  destruct (get_git_info_returns w (path_str md_file) repo_root) as (evs & [d a] & E).
  rewrite E. simpl. subst md_file.
  rewrite relative_to_app, strip_prefix_app. simpl.
  eexists. reflexivity.
Qed.

(** One turn of the loop on a file whose read fails: nothing is added. *)
Lemma process_one_skipped (md_file : Path) (e : exn) (labs : list lab) :
  read_text w (path_str md_file) = Raised e ->
  process_one w iter repo_root instructions_path md_file labs = ([], Raised e).
Proof. intros Hr. unfold process_one. rewrite Hr. reflexivity. Qed.

Lemma process_loop_rows (md_files : list Path) :
  Forall (fun p => exists rel, p = instructions_path ++ rel) md_files ->
  forall labs,
    snd (process_loop w iter repo_root instructions_path md_files labs)
    = Returned (labs ++ rows_of w iter repo_root instructions_path md_files)
    /\ (forall p e, In p md_files -> read_text w (path_str p) = Raised e ->
          In (error_line p e)
             (fst (process_loop w iter repo_root instructions_path md_files labs))).
Proof.
  induction 1 as [| md_file more [rel Hrel] _ IH]; intros labs.
  - simpl. rewrite app_nil_r. split; [reflexivity | intros p e []].
  - cbn [process_loop rows_of flat_map].
    destruct (read_text w (path_str md_file)) as [content | e] eqn:Hr.
    + destruct (process_one_read _ _ _ labs Hrel Hr) as [evs E].
      rewrite E. cbn [try_except bind print].
      destruct (IH (labs ++ [lab_of w iter repo_root instructions_path md_file content]))
        as [IH1 IH2].
      destruct (process_loop w iter repo_root instructions_path more
                  (labs ++ [lab_of w iter repo_root instructions_path md_file content]))
        as [evs' r'] eqn:El.
      simpl in IH1. subst r'. simpl. rewrite <- app_assoc. split; [reflexivity |].
      intros p e [<- | Hin] Hp; [congruence |].
      right. apply in_or_app. right. apply (IH2 p e Hin Hp).
    + rewrite (process_one_skipped _ _ labs Hr). cbn [try_except bind print ret].
      destruct (IH labs) as [IH1 IH2].
      destruct (process_loop w iter repo_root instructions_path more labs)
        as [evs' r'] eqn:El.
      simpl in IH1. subst r'. simpl. split; [reflexivity |].
      intros p e' [<- | Hin] Hp.
      * assert (e = e') by congruence. subst e'. right. left. reflexivity.
      * right. right. apply (IH2 p e' Hin Hp).
Qed.

Lemma rows_skipped_length (md_files : list Path) :
  length (rows_of w iter repo_root instructions_path md_files)
  + length (skipped w md_files) = length md_files.
Proof.
  induction md_files as [| p l IH]; simpl; [reflexivity |].
  destruct (read_text w (path_str p)); simpl; lia.
Qed.

End Assembler.

Lemma md_files_perm (w : world) (instructions_dir : str) :
  Permutation (md_files_of w instructions_dir)
              (map (fun rel => path_of instructions_dir ++ rel)
                   (rglob_md w instructions_dir)).
Proof. apply sorted_perm. Qed.

Lemma md_files_below (w : world) (instructions_dir : str) :
  Forall (fun p => exists rel, p = path_of instructions_dir ++ rel)
         (md_files_of w instructions_dir).
Proof.
  apply (Permutation_Forall (Permutation_sym (md_files_perm w instructions_dir))).
  apply Forall_forall. intros p Hp. apply in_map_iff in Hp.
  destruct Hp as (rel & <- & _). exists rel. reflexivity.
Qed.

Lemma md_files_sorted (w : world) (instructions_dir : str) :
  StronglySorted (not_after path_lt) (md_files_of w instructions_dir).
Proof.
  apply sorted_sorted;
    [apply path_lt_irrefl | apply path_lt_trans | apply path_lt_cotrans].
Qed.

Lemma process_lab_files_rows (w : world) (iter : list str -> list str)
      (repo_root instructions_dir : str) :
  snd (process_lab_files w iter repo_root instructions_dir)
  = Returned (rows_of w iter repo_root (path_of instructions_dir)
                      (md_files_of w instructions_dir))
  /\ (forall p e, In p (md_files_of w instructions_dir) ->
        read_text w (path_str p) = Raised e ->
        In (error_line p e) (fst (process_lab_files w iter repo_root instructions_dir))).
Proof.
  unfold process_lab_files.
  destruct (process_loop_rows w iter repo_root (path_of instructions_dir)
              (md_files_of w instructions_dir) (md_files_below w instructions_dir) [])
    as [H1 H2].
  destruct (process_loop w iter repo_root (path_of instructions_dir)
              (md_files_of w instructions_dir) []) as [evs r] eqn:E.
  simpl in H1. subst r. cbn [bind print]. split; [reflexivity |].
  intros p e Hin Hp. right. apply (H2 p e Hin Hp).
Qed.

Lemma rows_readable_length (w : world) (iter : list str -> list str)
      (repo_root : str) (ip : Path) (md_files : list Path) :
  length (rows_of w iter repo_root ip md_files) = length (readable w md_files).
Proof.
  induction md_files as [| p l IH]; simpl; [reflexivity |].
  destruct (read_text w (path_str p)); simpl; lia.
Qed.

Lemma rows_readable (w : world) (iter : list str -> list str)
      (repo_root : str) (ip : Path) (md_files : list Path) :
  Forall2 (fun p r => exists content,
             read_text w (path_str p) = Returned content
             /\ r = lab_of w iter repo_root ip p content)
          (readable w md_files) (rows_of w iter repo_root ip md_files).
Proof.
  induction md_files as [| p l IH]; simpl; [constructor |].
  destruct (read_text w (path_str p)) as [content | e] eqn:E; simpl; [| exact IH].
  constructor; [| exact IH]. exists content. auto.
Qed.

(** C1. Every enumerated markdown file that is read yields exactly one
    record and every file whose read fails yields none: the records of a
    run are, in the order of the sorted files, one record per file that is
    read, whatever the extraction and the provenance lookup do (the run
    itself never raises).  Each file whose read fails is logged, and the
    records and the skipped files together are as many as the enumerated
    files. *)
Theorem one_row_per_readable_file (w : world) (iter : list str -> list str)
        (repo_root instructions_dir : str) :
  let md_files := md_files_of w instructions_dir in
  let run := process_lab_files w iter repo_root instructions_dir in
  exists labs,
    snd run = Returned labs
    /\ Permutation md_files
         (map (fun rel => path_of instructions_dir ++ rel)
              (rglob_md w instructions_dir))
    /\ Forall2 (fun p r => exists content,
                  read_text w (path_str p) = Returned content
                  /\ r = lab_of w iter repo_root (path_of instructions_dir) p content)
               (readable w md_files) labs
    /\ (forall p e, In p md_files -> read_text w (path_str p) = Raised e ->
          In (error_line p e) (fst run))
    /\ length md_files = length (readable w md_files) + length (skipped w md_files)
    /\ length labs + length (skipped w md_files)
       = length (rglob_md w instructions_dir).
Proof.
  intros md_files run. subst md_files run.
  destruct (process_lab_files_rows w iter repo_root instructions_dir) as [H1 H2].
  exists (rows_of w iter repo_root (path_of instructions_dir)
                  (md_files_of w instructions_dir)).
  split; [exact H1 |].
  split; [apply md_files_perm |].
  split; [apply rows_readable |].
  split; [exact H2 |].
  split.
  - rewrite <- (rows_readable_length w iter repo_root (path_of instructions_dir)).
    symmetry. apply rows_skipped_length.
  - rewrite rows_skipped_length.
    rewrite (Permutation_length (md_files_perm w instructions_dir)).
    apply length_map.
Qed.

Lemma rows_filenames (w : world) (iter : list str -> list str)
      (repo_root : str) (ip : Path) (md_files : list Path) :
  Forall (fun p => exists rel, p = ip ++ rel) md_files ->
  Forall2 (fun p r => exists rel, p = ip ++ rel /\ filename r = path_str rel)
          (readable w md_files) (rows_of w iter repo_root ip md_files).
Proof.
  induction 1 as [| p l [rel Hrel] _ IH]; simpl; [constructor |].
  destruct (read_text w (path_str p)) as [content | e]; simpl; [| exact IH].
  constructor; [| exact IH].
  exists rel. split; [exact Hrel |].
  unfold lab_of. destruct (parse_frontmatter content). simpl.
  subst p. rewrite strip_prefix_app. reflexivity.
Qed.

(** Nothing but [generate_csv] writes a file. *)
Lemma quiet_ret (A : Type) (a : A) : quiet (ret a).
Proof. constructor. Qed.

Lemma quiet_lift (A : Type) (o : outcome A) : quiet (lift o).
Proof. constructor. Qed.

Lemma quiet_print (line : str) : quiet (print line).
Proof. repeat constructor. Qed.

Lemma quiet_run (w : world) (cmd : list str) (cwd : str) : quiet (run w cmd cwd).
Proof. repeat constructor. Qed.

Lemma quiet_bind (A B : Type) (m : eff A) (f : A -> eff B) :
  quiet m -> (forall a, quiet (f a)) -> quiet (bind m f).
Proof.
  unfold quiet. destruct m as [l [a | e]]; simpl; intros Hm Hf; [| exact Hm].
  specialize (Hf a). destruct (f a) as [l' r]. simpl in *.
  apply Forall_app. split; assumption.
Qed.

Lemma quiet_try_except (A : Type) (m : eff A) (h : exn -> eff A) :
  quiet m -> (forall e, quiet (h e)) -> quiet (try_except m h).
Proof.
  unfold quiet. destruct m as [l [a | e]]; simpl; intros Hm Hh; [exact Hm |].
  specialize (Hh e). destruct (h e) as [l' r]. simpl in *.
  apply Forall_app. split; assumption.
Qed.

Lemma quiet_read_result (r : completed) : quiet (read_result r).
Proof.
  unfold read_result.
  destruct ((returncode r =? 0)%Z && nonempty (Str.strip (stdout r)));
    [| apply quiet_ret].
  destruct (Str.split "|" (Str.strip (stdout r))) as [| a [| b [| c l]]];
    try apply quiet_ret.
  apply quiet_bind; [apply quiet_lift | intros first].
  apply quiet_bind; [apply quiet_lift | intros d]. apply quiet_ret.
Qed.

Lemma quiet_get_git_info (w : world) (file_path repo_root : str) :
  quiet (get_git_info w file_path repo_root).
Proof.
  unfold get_git_info. apply quiet_try_except.
  - apply quiet_bind; [apply quiet_lift | intros rel].
    apply quiet_bind; [apply quiet_run | intros r1].
    apply quiet_bind; [apply quiet_read_result | intros [info |]];
      [apply quiet_ret |].
    apply quiet_bind; [apply quiet_run | intros r2].
    apply quiet_bind; [apply quiet_read_result | intros [info |]]; apply quiet_ret.
  - intros e. apply quiet_bind; [apply quiet_print | intros _; apply quiet_ret].
Qed.

Lemma quiet_process_loop (w : world) (iter : list str -> list str)
      (repo_root : str) (ip : Path) (md_files : list Path) :
  forall labs, quiet (process_loop w iter repo_root ip md_files labs).
Proof.
  induction md_files as [| p l IH]; intros labs; [apply quiet_ret |].
  cbn [process_loop].
  apply quiet_bind; [apply quiet_print | intros _].
  apply quiet_bind; [| exact IH].
  apply quiet_try_except.
  - unfold process_one.
    apply quiet_bind; [apply quiet_lift | intros content].
    destruct (parse_frontmatter content) as [title description].
    apply quiet_bind; [apply quiet_get_git_info | intros [d a]].
    apply quiet_bind; [apply quiet_lift | intros rel]. apply quiet_ret.
  - intros e. apply quiet_bind; [apply quiet_print | intros _; apply quiet_ret].
Qed.

Lemma quiet_written (l : list event) :
  Forall (fun e => match e with Wrote _ _ => False | _ => True end) l ->
  flat_map (fun e => match e with Wrote f d => [(f, d)] | _ => [] end) l = [].
Proof.
  induction 1 as [| e l He _ IH]; simpl; [reflexivity |].
  destruct e; simpl; [exact IH | exact IH | contradiction].
Qed.

(** The one file a run writes is the catalog: the rows of the files that
    are read, in the order of the sorted files. *)
Lemma main_written (w : world) (iter : list str -> list str) (repo_root : str) :
  written (main w iter repo_root)
  = [(os_path_join repo_root (L "lab_catalog.csv"),
      csv_text (rows_of w iter repo_root
                  (path_of (os_path_join repo_root (L "Instructions")))
                  (md_files_of w (os_path_join repo_root (L "Instructions")))))].
Proof.
  unfold main, written.
  destruct (process_lab_files_rows w iter repo_root
              (os_path_join repo_root (L "Instructions"))) as [H1 _].
  assert (Q : quiet (process_lab_files w iter repo_root
                       (os_path_join repo_root (L "Instructions")))).
  { unfold process_lab_files.
    apply quiet_bind; [apply quiet_print | intros _; apply quiet_process_loop]. }
  destruct (process_lab_files w iter repo_root
              (os_path_join repo_root (L "Instructions"))) as [evs r] eqn:E.
  simpl in H1. subst r. unfold quiet in Q. simpl in Q.
  cbn [bind print generate_csv fst app flat_map].
  rewrite flat_map_app, (quiet_written _ Q). reflexivity.
Qed.

(** C8. The rows of the output file follow the sorted order of the
    enumerated markdown files: the files are sorted by path, the file the
    run writes holds the header and then the rows of the records in their
    order, and the records are, in that order, those of the sorted files
    that are read, each under its path relative to the scanned directory. *)
Theorem rows_in_sorted_path_order (w : world) (iter : list str -> list str)
        (repo_root : str) :
  let instructions_dir := os_path_join repo_root (L "Instructions") in
  let md_files := md_files_of w instructions_dir in
  let labs := rows_of w iter repo_root (path_of instructions_dir) md_files in
  StronglySorted (not_after path_lt) md_files
  /\ Permutation md_files
       (map (fun rel => path_of instructions_dir ++ rel) (rglob_md w instructions_dir))
  /\ written (main w iter repo_root)
     = [(os_path_join repo_root (L "lab_catalog.csv"),
         csv_row fieldnames ++ flat_map (fun r => csv_row (lab_fields r)) labs)]
  /\ Forall2 (fun p r => exists rel,
                p = path_of instructions_dir ++ rel /\ filename r = path_str rel)
             (readable w md_files) labs.
Proof.
  intros instructions_dir md_files labs. subst md_files labs.
  split; [apply md_files_sorted |].
  split; [apply md_files_perm |].
  split; [apply main_written |].
  apply rows_filenames, md_files_below.
Qed.

(** ** The output file *)

(** C2, as stated, fails: the header row the code writes names its last
    two columns [last_merge_date] and [last_merge_author]. *)
Lemma begins_with_spec_header_fails : ~ begins_with_spec_header.
Proof.
  intros H. specialize (H []). vm_compute in H. discriminate.
Qed.

Lemma csv_field_quoted (field : str) : quoted_as field (csv_field field).
Proof.
  unfold csv_field. destruct (existsb special field) eqn:E.
  - apply quoted_quotes. apply existsb_exists in E. destruct E as (c & Hin & Hc).
    exists c. split; [exact Hin |]. unfold special in Hc.
    destruct (ascii_dec c ","); [auto |].
    destruct (ascii_dec c dquote); [auto |].
    destruct (ascii_dec c cr); [auto |].
    destruct (ascii_dec c nl); [auto | discriminate].
  - apply quoted_plain. intros c Hin.
    assert (Hc : special c = false).
    { destruct (special c) eqn:Ec; [| reflexivity].
      rewrite <- E. symmetry. apply existsb_exists. exists c. auto. }
    unfold special in Hc.
    destruct (ascii_dec c ","); [discriminate |].
    destruct (ascii_dec c dquote); [discriminate |].
    destruct (ascii_dec c cr); [discriminate |].
    destruct (ascii_dec c nl); [discriminate | auto].
Qed.

(** C2, amended.  The output file begins with the header row
    [filename,description,technologies,last_merge_date,last_merge_author],
    followed by one row per record, in order: the five fields of the record
    separated by commas, every row ended by CR LF, a field that holds a
    comma, a quote, a carriage return or a line feed written between quotes
    with its quotes doubled, any other field written as it is. *)
Theorem csv_text_header_and_rows (labs : list lab) :
  csv_text labs
  = code_header ++ crlf
    ++ flat_map (fun r =>
                   csv_field (filename r) ++ L "," ++ csv_field (description r)
                   ++ L "," ++ csv_field (technologies r)
                   ++ L "," ++ csv_field (last_merge_date r)
                   ++ L "," ++ csv_field (last_merge_author r) ++ crlf) labs
  /\ (forall field, quoted_as field (csv_field field)).
Proof.
  split; [| apply csv_field_quoted].
  unfold csv_text. change (csv_row fieldnames) with (code_header ++ crlf).
  rewrite <- app_assoc. f_equal. f_equal.
  apply flat_map_ext. intros r. unfold csv_row, lab_fields.
  cbn [map Str.join]. rewrite <- !app_assoc.
  destruct (filename r); reflexivity.
Qed.

(** ** The matcher *)

Lemma consumed_app (m rest : str) : consumed (m ++ rest) rest = m.
Proof.
  unfold consumed. rewrite length_app.
  replace (length m + length rest - length rest) with (length m + 0) by lia.
  rewrite firstn_app_2. simpl. apply app_nil_r.
Qed.

(** Every end of a match is further on in the subject. *)
Lemma lit_ends_between (fl : flags) (l : str) :
  forall prev rest g e,
    In e (lit_ends fl l prev rest g) ->
    exists m, rest = m ++ m_rest e /\ length m = length l /\ m_grp e = g.
Proof.
  induction l as [| a l IH]; intros prev rest g e; simpl.
  - intros [<- | []]. exists []. auto.
  - destruct rest as [| c tl]; [intros [] |].
    destruct (eq_char fl a c); [| intros []].
    intros H. destruct (IH _ _ _ _ H) as (m & -> & Hl & Hg).
    exists (c :: m). simpl. auto.
Qed.

Lemma star_ends_between (p : ascii -> bool) (greedy : bool) :
  forall rest prev g e,
    In e (star_ends p greedy prev rest g) ->
    exists m, rest = m ++ m_rest e /\ forallb p m = true /\ m_grp e = g.
Proof.
  induction rest as [| c tl IH]; intros prev g e; simpl.
  - intros [<- | []]. exists []. auto.
  - destruct (p c) eqn:Hc.
    + intros H.
      assert (H' : e = MState prev (c :: tl) g \/ In e (star_ends p greedy (Some c) tl g)).
      { destruct greedy.
        - apply in_app_or in H. destruct H as [H | [H | []]]; auto.
        - destruct H as [H | H]; auto. }
      destruct H' as [-> | H'].
      * exists []. auto.
      * destruct (IH _ _ _ H') as (m & -> & Hm & Hg).
        exists (c :: m). simpl. rewrite Hc. auto.
    + intros [<- | []]. exists []. auto.
Qed.

Lemma ends_between (fl : flags) (r : regex) :
  forall st e, In e (ends fl r st) -> exists m, text_between st e m.
Proof.
  unfold text_between.
  induction r as [| k | l | a IHa b IHb | a IHa b IHb | greedy k | a IHa | | |];
    intros st e; simpl.
  - intros [<- | []]. exists []. reflexivity.
  - destruct (m_rest st) as [| c tl]; [intros [] |].
    destruct (cmatch fl k c); [| intros []].
    intros [<- | []]. exists [c]. reflexivity.
  - intros H. destruct (lit_ends_between _ _ _ _ _ _ H) as (m & E & _). eauto.
  - intros H. apply in_flat_map in H. destruct H as (mid & H1 & H2).
    destruct (IHa _ _ H1) as (m1 & E1). destruct (IHb _ _ H2) as (m2 & E2).
    exists (m1 ++ m2). rewrite E1, E2. apply app_assoc.
  - intros H. apply in_app_or in H. destruct H; eauto.
  - intros H. destruct (star_ends_between _ _ _ _ _ _ H) as (m & E & _). eauto.
  - intros H. apply in_map_iff in H. destruct H as (e' & <- & H).
    destruct (IHa _ _ H) as (m & E). exists m. exact E.
  - destruct (at_bol fl st); [| intros []]. intros [<- | []]. exists []. reflexivity.
  - destruct (at_eol fl st); [| intros []]. intros [<- | []]. exists []. reflexivity.
  - destruct (at_wordb st); [| intros []]. intros [<- | []]. exists []. reflexivity.
Qed.

(** The text of a reported match lies in the subject where it was found. *)
Lemma match_at_between (fl : flags) (r : regex) (prev : option ascii) (rest : str)
      (mo : match_obj) :
  match_at fl r prev rest = Some mo ->
  rest = group0 mo ++ m_rest (m_end mo)
  /\ In (m_end mo) (ends fl r (MState prev rest None)).
Proof.
  unfold match_at. destruct (ends fl r (MState prev rest None)) as [| e l] eqn:E;
    [discriminate |].
  intros H. inversion H; subst; clear H. simpl.
  assert (Hin : In e (ends fl r (MState prev rest None))) by (rewrite E; left; reflexivity).
  destruct (ends_between _ _ _ _ Hin) as (m & Hm). unfold text_between in Hm.
  simpl in Hm. split; [| left; reflexivity].
  rewrite Hm at 2. rewrite consumed_app. exact Hm.
Qed.

Lemma hd_rev_snoc (pre : str) (c : ascii) : hd_error (rev (pre ++ [c])) = Some c.
Proof. rewrite rev_app_distr. reflexivity. Qed.

(** [re.search] reports the match at the leftmost position that has one. *)
Lemma search_from_first (fl : flags) (r : regex) :
  forall rest pre mo,
    search_from fl r (hd_error (rev pre)) rest = Some mo ->
    exists skip rest',
      rest = skip ++ rest'
      /\ match_at fl r (hd_error (rev (pre ++ skip))) rest' = Some mo
      /\ (forall a b, skip = a ++ b -> b <> [] ->
            match_at fl r (hd_error (rev (pre ++ a))) (b ++ rest') = None).
Proof.
  induction rest as [| c tl IH]; intros pre mo; simpl.
  - destruct (match_at fl r (hd_error (rev pre)) []) as [m |] eqn:E; [| discriminate].
    intros H. inversion H; subst; clear H.
    exists [], []. split; [reflexivity |]. rewrite app_nil_r. split; [exact E |].
    intros a b Hab Hb. destruct a; destruct b; simpl in Hab; congruence.
  - destruct (match_at fl r (hd_error (rev pre)) (c :: tl)) as [m |] eqn:E.
    + intros H. inversion H; subst; clear H.
      exists [], (c :: tl). split; [reflexivity |]. rewrite app_nil_r. split; [exact E |].
      intros a b Hab Hb. destruct a; destruct b; simpl in Hab; congruence.
    + intros H. rewrite <- (hd_rev_snoc pre c) in H.
      destruct (IH _ _ H) as (skip & rest' & -> & Hm & Hno).
      exists (c :: skip), rest'. split; [reflexivity |].
      rewrite <- app_assoc in Hm. split; [exact Hm |].
      intros a b Hab Hb. destruct a as [| x a].
      * simpl in Hab. subst b. rewrite app_nil_r. simpl. exact E.
      * simpl in Hab. injection Hab as Hx Hs. subst x.
        replace (pre ++ c :: a) with ((pre ++ [c]) ++ a) by (rewrite <- app_assoc; reflexivity).
        apply Hno; auto.
Qed.

Lemma search_from_none (fl : flags) (r : regex) :
  forall rest pre,
    search_from fl r (hd_error (rev pre)) rest = None ->
    forall a b, rest = a ++ b -> match_at fl r (hd_error (rev (pre ++ a))) b = None.
Proof.
  induction rest as [| c tl IH]; intros pre; simpl.
  - destruct (match_at fl r (hd_error (rev pre)) []) eqn:E; [discriminate |].
    intros _ a b Hab. destruct a; destruct b; simpl in Hab; try discriminate.
    rewrite app_nil_r. exact E.
  - destruct (match_at fl r (hd_error (rev pre)) (c :: tl)) eqn:E; [discriminate |].
    intros H a b Hab. destruct a as [| x a].
    + simpl in Hab. subst b. rewrite app_nil_r. exact E.
    + simpl in Hab. injection Hab as Hx Hs. subst x.
      rewrite <- (hd_rev_snoc pre c) in H.
      replace (pre ++ c :: a) with ((pre ++ [c]) ++ a) by (rewrite <- app_assoc; reflexivity).
      apply (IH _ H). exact Hs.
Qed.

Lemma re_search_first (fl : flags) (r : regex) (s : str) (mo : match_obj) :
  re_search fl r s = Some mo -> first_match fl r s (group0 mo).
Proof.
  intros H. destruct (search_from_first fl r s [] mo H) as (skip & rest' & -> & Hm & Hno).
  simpl in Hm. destruct (match_at_between _ _ _ _ _ Hm) as [E _].
  exists skip, (m_rest (m_end mo)), mo. rewrite <- E.
  split; [reflexivity | split; [exact Hm | split; [reflexivity | exact Hno]]].
Qed.

Lemma re_search_none (fl : flags) (r : regex) (s : str) :
  re_search fl r s = None -> no_match fl r s.
Proof. intros H pre rest E. apply (search_from_none fl r s [] H pre rest E). Qed.

(** The first element of [re.findall] is the match of [re.search]. *)
Lemma findall_from_head (fl : flags) (r : regex) :
  forall rest fuel prev,
    length rest < fuel ->
    hd_error (findall_from fuel fl r prev rest)
    = option_map group0 (search_from fl r prev rest).
Proof.
  induction rest as [| c tl IH]; intros [| fuel] prev Hf; try (simpl in Hf; lia).
  - simpl. destruct (match_at fl r prev []) as [m |]; [| reflexivity].
    destruct (group0 m) eqn:E; simpl; rewrite ?E; reflexivity.
  - simpl. destruct (match_at fl r prev (c :: tl)) as [m |].
    + destruct (group0 m) eqn:E; simpl; rewrite ?E; reflexivity.
    + apply IH. simpl in Hf. lia.
Qed.

Lemma re_findall_head (fl : flags) (r : regex) (s : str) :
  hd_error (re_findall fl r s) = option_map group0 (re_search fl r s).
Proof. apply findall_from_head. lia. Qed.

(** The loop over the patterns adds the labels of the patterns that match,
    in their order. *)
Lemma tech_loop_first_labels (content : str) (patterns : list regex) :
  forall technologies,
    tech_loop patterns content technologies
    = fold_left (fun acc l => set_add l acc) (first_labels patterns content)
                technologies.
Proof.
  induction patterns as [| p ps IH]; intros acc; simpl; [reflexivity |].
  unfold label_of. pose proof (re_findall_head IGNORECASE p content) as H.
  destruct (re_findall IGNORECASE p content) as [| m0 l];
    destruct (re_search IGNORECASE p content) as [mo |]; simpl in H; try discriminate.
  - apply IH.
  - inversion H; subst. simpl. apply IH.
Qed.

(** ** Characters and case *)

Lemma code_lower_char (c : ascii) :
  code (Str.lower_char c) = if Str.is_upper c then code c + 32 else code c.
Proof.
  unfold Str.lower_char. destruct (Str.is_upper c) eqn:E; [| reflexivity].
  apply code_ascii_of_nat. unfold Str.is_upper in E.
  apply andb_true_iff in E. destruct E as [_ E]. apply Nat.leb_le in E. lia.
Qed.

Lemma is_space_lower_char (c : ascii) :
  Str.is_space (Str.lower_char c) = Str.is_space c.
Proof.
  unfold Str.is_space. rewrite code_lower_char.
  destruct (Str.is_upper c) eqn:E; [| reflexivity].
  unfold Str.is_upper in E. char_ranges.
  destruct (_ || _) eqn:E1; destruct (_ || _) eqn:E2 in |- *; char_ranges;
    try reflexivity; lia.
Qed.

Lemma is_upper_lower_char (c : ascii) : Str.is_upper (Str.lower_char c) = false.
Proof.
  unfold Str.is_upper at 1. rewrite code_lower_char.
  destruct (Str.is_upper c) eqn:E; unfold Str.is_upper in E.
  - char_ranges. apply andb_false_iff. right. apply Nat.leb_gt. lia.
  - exact E.
Qed.

Lemma lower_char_idem (c : ascii) : Str.lower_char (Str.lower_char c) = Str.lower_char c.
Proof. unfold Str.lower_char at 1. rewrite is_upper_lower_char. reflexivity. Qed.

Lemma is_word_lower_char (c : ascii) :
  Str.is_word (Str.lower_char c) = Str.is_word c.
Proof.
  destruct (Str.is_upper c) eqn:E.
  - unfold Str.is_word. rewrite E. simpl.
    assert (H : Str.is_lower (Str.lower_char c) = true).
    { unfold Str.is_lower. rewrite code_lower_char, E.
      unfold Str.is_upper in E. char_ranges.
      apply andb_true_iff. split; apply Nat.leb_le; lia. }
    rewrite H. rewrite orb_true_r. reflexivity.
  - unfold Str.lower_char. rewrite E. reflexivity.
Qed.

Lemma lower_char_nl (c : ascii) : Str.lower_char c = nl <-> c = nl.
Proof.
  split.
  - intros H. assert (Hc : code (Str.lower_char c) = 10) by (rewrite H; reflexivity).
    rewrite code_lower_char in Hc.
    destruct (Str.is_upper c) eqn:E; unfold Str.is_upper in E; char_ranges; try lia;
      apply code_inj; exact Hc.
  - intros ->. reflexivity.
Qed.

Lemma lower_app (a b : str) : Str.lower (a ++ b) = Str.lower a ++ Str.lower b.
Proof. apply map_app. Qed.

Lemma lower_length (a : str) : length (Str.lower a) = length a.
Proof. apply length_map. Qed.

(** ** Texts up to whitespace and case *)

Lemma norm_app (a b : str) : norm (a ++ b) = norm a ++ norm b.
Proof. unfold norm. rewrite filter_app. apply lower_app. Qed.

Lemma norm_of_lower (s : str) :
  norm s = filter (fun c => negb (Str.is_space c)) (Str.lower s).
Proof.
  unfold norm, Str.lower. induction s as [| c s IH]; simpl; [reflexivity |].
  rewrite is_space_lower_char. destruct (Str.is_space c); simpl; rewrite IH; reflexivity.
Qed.

Lemma norm_lower_eq (a b : str) : Str.lower a = Str.lower b -> norm a = norm b.
Proof. intros H. rewrite !norm_of_lower, H. reflexivity. Qed.

Lemma norm_spaces (s : str) : forallb Str.is_space s = true -> norm s = [].
Proof.
  unfold norm. induction s as [| c s IH]; simpl; [reflexivity |].
  intros H. apply andb_true_iff in H. destruct H as [Hc Hs].
  rewrite Hc. simpl. apply IH, Hs.
Qed.

Lemma norm_rev (s : str) : norm (rev s) = rev (norm s).
Proof.
  induction s as [| c s IH]; simpl; [reflexivity |].
  rewrite norm_app, IH. change (c :: s) with ([c] ++ s). rewrite (norm_app [c] s).
  rewrite rev_app_distr. f_equal.
  unfold norm. simpl. destruct (Str.is_space c); reflexivity.
Qed.

Lemma norm_lstrip (s : str) : norm (Str.lstrip s) = norm s.
Proof.
  induction s as [| c s IH]; simpl; [reflexivity |].
  destruct (Str.is_space c) eqn:E; [| reflexivity].
  rewrite IH. unfold norm. simpl. rewrite E. reflexivity.
Qed.

Lemma norm_strip (s : str) : norm (Str.strip s) = norm s.
Proof.
  unfold Str.strip, Str.rstrip.
  rewrite norm_rev, norm_lstrip, norm_rev, rev_involutive. apply norm_lstrip.
Qed.

(** ** What a pattern of the catalog can match *)

Lemma eq_char_lower (fl : flags) (a c : ascii) :
  ignorecase fl = true -> eq_char fl a c = true ->
  Str.lower_char a = Str.lower_char c.
Proof.
  unfold eq_char. intros ->.
  destruct (ascii_dec (Str.lower_char a) (Str.lower_char c)); congruence.
Qed.

Lemma norm_char (a c : ascii) :
  Str.lower_char a = Str.lower_char c -> norm [c] = norm [a].
Proof. intros H. apply norm_lower_eq. simpl. congruence. Qed.

Lemma lit_ends_lower (fl : flags) (l : str) :
  ignorecase fl = true ->
  forall prev rest g e,
    In e (lit_ends fl l prev rest g) ->
    exists m, rest = m ++ m_rest e /\ Str.lower m = Str.lower l.
Proof.
  intros Hfl. induction l as [| a l IH]; intros prev rest g e; simpl.
  - intros [<- | []]. exists []. auto.
  - destruct rest as [| c tl]; [intros [] |].
    destruct (eq_char fl a c) eqn:Ec; [| intros []].
    intros H. destruct (IH _ _ _ _ H) as (m & -> & Hl).
    exists (c :: m). simpl. rewrite Hl, (eq_char_lower _ _ _ Hfl Ec). auto.
Qed.

Lemma in_products (xs ys : list str) (x y : str) :
  In x xs -> In y ys -> In (x ++ y) (products xs ys).
Proof.
  intros Hx Hy. unfold products. apply in_flat_map. exists x. split; [exact Hx |].
  apply in_map. exact Hy.
Qed.

(** The text of a match of a pattern made of literal text, whitespace and
    alternatives is, up to whitespace and case, one of [norms]. *)
Lemma ends_norms (fl : flags) (r : regex) :
  ignorecase fl = true ->
  forall ns st e,
    norms r = Some ns -> In e (ends fl r st) ->
    exists m, text_between st e m /\ In (norm m) ns.
Proof.
  intros Hfl. unfold text_between.
  induction r as [| k | l | a IHa b IHb | a IHa b IHb | greedy k | a IHa | | |];
    intros ns st e Hn; simpl in Hn |- *.
  - inversion Hn; subst. intros [<- | []]. exists []. simpl. auto.
  - destruct (m_rest st) as [| c tl]; [intros [] |].
    destruct (cmatch fl k c) eqn:Ec; [| intros []].
    intros [<- | []]. exists [c]. split; [reflexivity |].
    destruct k as [a | cs | |]; inversion Hn; subst; simpl in Ec.
    + left. symmetry. apply norm_char, (eq_char_lower _ _ _ Hfl Ec).
    + apply existsb_exists in Ec. destruct Ec as (a & Ha & Ea).
      apply in_map_iff. exists a. split; [| exact Ha].
      symmetry. apply norm_char, (eq_char_lower _ _ _ Hfl Ea).
    + left. symmetry. apply norm_spaces. simpl. rewrite Ec. reflexivity.
  - inversion Hn; subst. intros H.
    destruct (lit_ends_lower _ _ Hfl _ _ _ _ H) as (m & E & Hl).
    exists m. split; [exact E |]. left. symmetry. apply norm_lower_eq, Hl.
  - destruct (norms a) as [xs |]; [| discriminate].
    destruct (norms b) as [ys |]; [| discriminate].
    inversion Hn; subst. intros H. apply in_flat_map in H.
    destruct H as (mid & H1 & H2).
    destruct (IHa _ _ _ eq_refl H1) as (m1 & E1 & N1).
    destruct (IHb _ _ _ eq_refl H2) as (m2 & E2 & N2).
    exists (m1 ++ m2). split; [rewrite E1, E2; apply app_assoc |].
    rewrite norm_app. apply in_products; assumption.
  - destruct (norms a) as [xs |]; [| discriminate].
    destruct (norms b) as [ys |]; [| discriminate].
    inversion Hn; subst. intros H. apply in_app_or in H. destruct H as [H | H].
    + destruct (IHa _ _ _ eq_refl H) as (m & E & N). exists m. split; [exact E |].
      apply in_or_app. left. exact N.
    + destruct (IHb _ _ _ eq_refl H) as (m & E & N). exists m. split; [exact E |].
      apply in_or_app. right. exact N.
  - destruct k; try discriminate. inversion Hn; subst. intros H.
    destruct (star_ends_between _ _ _ _ _ _ H) as (m & E & Hm & _).
    exists m. split; [exact E |]. left. symmetry. apply norm_spaces. exact Hm.
  - intros H. apply in_map_iff in H. destruct H as (e' & <- & H).
    destruct (IHa _ _ _ Hn H) as (m & E & N). exists m. split; [exact E | exact N].
  - inversion Hn; subst. destruct (at_bol fl st); [| intros []].
    intros [<- | []]. exists []. simpl. auto.
  - inversion Hn; subst. destruct (at_eol fl st); [| intros []].
    intros [<- | []]. exists []. simpl. auto.
  - inversion Hn; subst. destruct (at_wordb st); [| intros []].
    intros [<- | []]. exists []. simpl. auto.
Qed.

(** The label of a pattern is, up to whitespace and case, one of the texts
    the pattern can match. *)
Lemma label_of_norms (pattern : regex) (content l : str) (ns : list str) :
  norms pattern = Some ns -> label_of pattern content = Some l -> In (norm l) ns.
Proof.
  unfold label_of. intros Hn H.
  destruct (re_search IGNORECASE pattern content) as [mo |] eqn:Es; [| discriminate].
  inversion H; subst; clear H.
  destruct (search_from_first _ _ _ [] _ Es) as (skip & rest' & _ & Hm & _).
  destruct (match_at_between _ _ _ _ _ Hm) as [E Hin].
  destruct (ends_norms IGNORECASE pattern eq_refl _ _ _ Hn Hin) as (m & Em & N).
  unfold text_between in Em. simpl in Em. rewrite Em in E.
  apply app_inv_tail in E. subst m. rewrite norm_strip. exact N.
Qed.

(** ** Matching with [IGNORECASE] does not see the case of the subject *)

Lemma eq_char_ci (fl : flags) (a c1 c2 : ascii) :
  ignorecase fl = true -> Str.lower_char c1 = Str.lower_char c2 ->
  eq_char fl a c1 = eq_char fl a c2.
Proof. unfold eq_char. intros -> ->. reflexivity. Qed.

Lemma cmatch_ci (fl : flags) (k : cclass) (c1 c2 : ascii) :
  ignorecase fl = true -> Str.lower_char c1 = Str.lower_char c2 ->
  cmatch fl k c1 = cmatch fl k c2.
Proof.
  intros Hfl Hc. destruct k as [a | cs | |]; simpl.
  - apply eq_char_ci; assumption.
  - induction cs as [| a cs IH]; simpl; [reflexivity |].
    rewrite IH, (eq_char_ci fl a c1 c2 Hfl Hc). reflexivity.
  - rewrite <- (is_space_lower_char c1), <- (is_space_lower_char c2), Hc. reflexivity.
  - destruct (dotall fl); [reflexivity |].
    destruct (ascii_dec c1 nl) as [E1 | E1]; destruct (ascii_dec c2 nl) as [E2 | E2];
      try reflexivity; exfalso.
    + apply E2, lower_char_nl. rewrite <- Hc. apply lower_char_nl, E1.
    + apply E1, lower_char_nl. rewrite Hc. apply lower_char_nl, E2.
Qed.

Lemma lit_ends_ci (fl : flags) (l : str) :
  ignorecase fl = true ->
  forall p1 p2 r1 r2 g1 g2,
    same_but_case (MState p1 r1 g1) (MState p2 r2 g2) ->
    Forall2 same_but_case (lit_ends fl l p1 r1 g1) (lit_ends fl l p2 r2 g2).
Proof.
  intros Hfl. induction l as [| a l IH]; intros p1 p2 r1 r2 g1 g2 H; simpl.
  - constructor; [exact H | constructor].
  - destruct H as (Hp & Hr & Hg). simpl in *.
    destruct r1 as [| c1 t1]; destruct r2 as [| c2 t2]; try discriminate;
      [constructor |].
    simpl in Hr. injection Hr as Hc Ht.
    rewrite (eq_char_ci fl a c1 c2 Hfl Hc).
    destruct (eq_char fl a c2); [| constructor].
    apply IH. repeat split; simpl; congruence.
Qed.

Lemma star_ends_ci (fl : flags) (k : cclass) (greedy : bool) :
  ignorecase fl = true ->
  forall r1 r2 p1 p2 g1 g2,
    same_but_case (MState p1 r1 g1) (MState p2 r2 g2) ->
    Forall2 same_but_case (star_ends (cmatch fl k) greedy p1 r1 g1)
            (star_ends (cmatch fl k) greedy p2 r2 g2).
Proof.
  intros Hfl. induction r1 as [| c1 t1 IH]; intros r2 p1 p2 g1 g2 H;
    pose proof H as (Hp & Hr & Hg); simpl in Hp, Hr, Hg;
    destruct r2 as [| c2 t2]; try discriminate; simpl.
  - constructor; [exact H | constructor].
  - simpl in Hr. injection Hr as Hc Ht.
    rewrite (cmatch_ci fl k c1 c2 Hfl Hc).
    destruct (cmatch fl k c2); [| constructor; [exact H | constructor]].
    assert (IH' : Forall2 same_but_case
                    (star_ends (cmatch fl k) greedy (Some c1) t1 g1)
                    (star_ends (cmatch fl k) greedy (Some c2) t2 g2)).
    { apply IH. repeat split; simpl; congruence. }
    destruct greedy.
    + apply Forall2_app; [exact IH' | constructor; [exact H | constructor]].
    + constructor; [exact H | exact IH'].
Qed.

Lemma Forall2_flat_map (A B : Type) (R : A -> A -> Prop) (S : B -> B -> Prop)
      (f g : A -> list B) (l1 l2 : list A) :
  (forall a b, R a b -> Forall2 S (f a) (g b)) ->
  Forall2 R l1 l2 -> Forall2 S (flat_map f l1) (flat_map g l2).
Proof.
  intros Hf. induction 1 as [| a b l1 l2 Hab _ IH]; simpl; [constructor |].
  apply Forall2_app; [apply Hf, Hab | exact IH].
Qed.

Lemma is_word_opt_ci (p1 p2 : option ascii) :
  option_map Str.lower_char p1 = option_map Str.lower_char p2 ->
  is_word_opt p1 = is_word_opt p2.
Proof.
  destruct p1 as [c1 |]; destruct p2 as [c2 |]; simpl; try discriminate;
    [| reflexivity].
  intros H. injection H as H.
  rewrite <- (is_word_lower_char c1), <- (is_word_lower_char c2), H. reflexivity.
Qed.

Lemma nl_test_ci (c1 c2 : ascii) :
  Str.lower_char c1 = Str.lower_char c2 ->
  (if ascii_dec c1 nl then true else false) = (if ascii_dec c2 nl then true else false).
Proof.
  intros Hc.
  destruct (ascii_dec c1 nl) as [E1 | E1]; destruct (ascii_dec c2 nl) as [E2 | E2];
    try reflexivity; exfalso.
  - apply E2, lower_char_nl. rewrite <- Hc. apply lower_char_nl, E1.
  - apply E1, lower_char_nl. rewrite Hc. apply lower_char_nl, E2.
Qed.

Lemma consumed_ci (a1 a2 b1 b2 : str) :
  Str.lower a1 = Str.lower a2 -> Str.lower b1 = Str.lower b2 ->
  Str.lower (consumed a1 b1) = Str.lower (consumed a2 b2).
Proof.
  intros Ha Hb. unfold consumed, Str.lower.
  rewrite <- !firstn_map. fold (Str.lower a1) (Str.lower a2). rewrite Ha.
  rewrite <- (lower_length a1), <- (lower_length b1), Ha, Hb, !lower_length.
  reflexivity.
Qed.

Lemma ends_ci (fl : flags) (r : regex) :
  ignorecase fl = true ->
  forall s1 s2, same_but_case s1 s2 ->
    Forall2 same_but_case (ends fl r s1) (ends fl r s2).
Proof.
  intros Hfl.
  induction r as [| k | l | a IHa b IHb | a IHa b IHb | greedy k | a IHa | | |];
    intros s1 s2 H; pose proof H as (Hp & Hr & Hg); simpl.
  - constructor; [exact H | constructor].
  - destruct (m_rest s1) as [| c1 t1]; destruct (m_rest s2) as [| c2 t2];
      try discriminate; [constructor |].
    simpl in Hr. injection Hr as Hc Ht.
    rewrite (cmatch_ci fl k c1 c2 Hfl Hc).
    destruct (cmatch fl k c2); constructor; [| constructor].
    repeat split; simpl; congruence.
  - apply lit_ends_ci; [exact Hfl |]. repeat split; assumption.
  - apply Forall2_flat_map with (R := same_but_case); [exact IHb | apply IHa, H].
  - apply Forall2_app; [apply IHa, H | apply IHb, H].
  - apply star_ends_ci; [exact Hfl |]. repeat split; assumption.
  - specialize (IHa _ _ H). induction IHa as [| e1 e2 l1 l2 He _ IH]; simpl;
      constructor; [| exact IH].
    destruct He as (Hp' & Hr' & Hg'). repeat split; simpl; try assumption.
    f_equal. apply consumed_ci; assumption.
  - unfold at_bol. destruct (m_prev s1) as [c1 |]; destruct (m_prev s2) as [c2 |];
      try discriminate.
    + simpl in Hp. injection Hp as Hc. rewrite (nl_test_ci c1 c2 Hc).
      destruct (multiline fl && _); constructor; [exact H | constructor].
    + constructor; [exact H | constructor].
  - unfold at_eol. destruct (m_rest s1) as [| c1 t1]; destruct (m_rest s2) as [| c2 t2];
      try discriminate.
    + constructor; [exact H | constructor].
    + simpl in Hr. injection Hr as Hc Ht. rewrite (nl_test_ci c1 c2 Hc).
      assert (Et : match t1 with [] => true | _ => false end
                   = match t2 with [] => true | _ => false end).
      { destruct t1; destruct t2; try discriminate; reflexivity. }
      rewrite Et. destruct (_ && _); constructor; [exact H | constructor].
  - unfold at_wordb. rewrite (is_word_opt_ci _ _ Hp).
    assert (Eh : is_word_opt (hd_error (m_rest s1)) = is_word_opt (hd_error (m_rest s2))).
    { apply is_word_opt_ci.
      destruct (m_rest s1); destruct (m_rest s2); try discriminate; simpl;
        [reflexivity |]. simpl in Hr. congruence. }
    rewrite Eh. destruct (negb _); constructor; [exact H | constructor].
Qed.

Lemma match_at_ci (fl : flags) (r : regex) (p1 p2 : option ascii) (r1 r2 : str) :
  ignorecase fl = true ->
  option_map Str.lower_char p1 = option_map Str.lower_char p2 ->
  Str.lower r1 = Str.lower r2 ->
  same_match_but_case (match_at fl r p1 r1) (match_at fl r p2 r2).
Proof.
  intros Hfl Hp Hr. unfold match_at.
  assert (H : same_but_case (MState p1 r1 None) (MState p2 r2 None))
    by (repeat split; assumption).
  destruct (ends_ci fl r Hfl _ _ H) as [| e1 e2 l1 l2 He _]; simpl; [exact I |].
  pose proof He as (Hp' & Hr' & Hg'). split; [| split; [| exact He]].
  - apply consumed_ci; assumption.
  - destruct (m_grp e1); destruct (m_grp e2); simpl in Hg'; try discriminate;
      [congruence | reflexivity].
Qed.

Lemma search_from_ci (fl : flags) (r : regex) :
  ignorecase fl = true ->
  forall r1 r2 p1 p2,
    option_map Str.lower_char p1 = option_map Str.lower_char p2 ->
    Str.lower r1 = Str.lower r2 ->
    same_match_but_case (search_from fl r p1 r1) (search_from fl r p2 r2).
Proof.
  intros Hfl. induction r1 as [| c1 t1 IH]; intros r2 p1 p2 Hp Hr;
    destruct r2 as [| c2 t2]; try discriminate; simpl;
    pose proof (match_at_ci fl r p1 p2 _ _ Hfl Hp Hr) as Hm;
    destruct (match_at fl r p1 _) as [m1 |]; destruct (match_at fl r p2 _) as [m2 |];
    simpl in Hm; try contradiction; try exact Hm.
  simpl in Hr. injection Hr as Hc Ht. apply IH; simpl; congruence.
Qed.

Lemma lower_lstrip (s : str) : Str.lower (Str.lstrip s) = Str.lstrip (Str.lower s).
Proof.
  induction s as [| c s IH]; simpl; [reflexivity |].
  rewrite is_space_lower_char. destruct (Str.is_space c); [exact IH | reflexivity].
Qed.

Lemma lower_rev (s : str) : Str.lower (rev s) = rev (Str.lower s).
Proof. apply map_rev. Qed.

Lemma lower_strip (s : str) : Str.lower (Str.strip s) = Str.strip (Str.lower s).
Proof.
  unfold Str.strip, Str.rstrip.
  rewrite lower_rev, lower_lstrip, lower_rev, lower_lstrip. reflexivity.
Qed.

(** Two documents that differ in case only give the same labels, up to
    case. *)
Lemma label_of_ci (pattern : regex) (c1 c2 : str) :
  Str.lower c1 = Str.lower c2 ->
  option_map Str.lower (label_of pattern c1) = option_map Str.lower (label_of pattern c2).
Proof.
  intros Hc. unfold label_of, re_search.
  pose proof (search_from_ci IGNORECASE pattern eq_refl c1 c2 None None eq_refl Hc) as H.
  destruct (search_from IGNORECASE pattern None c1) as [m1 |];
    destruct (search_from IGNORECASE pattern None c2) as [m2 |];
    simpl in H; try contradiction; [| reflexivity].
  destruct H as (H0 & _). simpl. rewrite !lower_strip, H0. reflexivity.
Qed.

(** ** The technology labels *)

Lemma in_first_labels (patterns : list regex) (content l : str) :
  In l (first_labels patterns content) <->
  exists pattern, In pattern patterns /\ label_of pattern content = Some l.
Proof.
  unfold first_labels. rewrite in_flat_map. split.
  - intros (p & Hp & Hl). exists p. split; [exact Hp |].
    destruct (label_of p content) as [l' |]; [| contradiction].
    destruct Hl as [-> | []]. reflexivity.
  - intros (p & Hp & Hl). exists p. split; [exact Hp |]. rewrite Hl. left. reflexivity.
Qed.

Lemma first_labels_length (patterns : list regex) (content : str) :
  length (first_labels patterns content) <= length patterns.
Proof.
  induction patterns as [| p ps IH]; simpl; [lia |].
  rewrite length_app. destruct (label_of p content); simpl; lia.
Qed.

Lemma disjointb_sound (p q : regex) (xs ys : list str) (x : str) :
  disjointb p q = true -> norms p = Some xs -> norms q = Some ys ->
  In x xs -> In x ys -> False.
Proof.
  unfold disjointb. intros H Hp Hq Hx Hy. rewrite Hp, Hq in H.
  rewrite forallb_forall in H. specialize (H x Hx).
  apply negb_true_iff in H.
  assert (E : existsb (fun y => if str_eq_dec x y then true else false) ys = true).
  { apply existsb_exists. exists x. split; [exact Hy |].
    destruct (str_eq_dec x x); congruence. }
  congruence.
Qed.

Lemma disjointb_norms (p q : regex) :
  disjointb p q = true -> exists xs ys, norms p = Some xs /\ norms q = Some ys.
Proof.
  unfold disjointb. destruct (norms p) as [xs |]; [| discriminate].
  destruct (norms q) as [ys |]; [| discriminate]. eauto.
Qed.

(** The labels of patterns that cannot match the same text differ, even
    up to case. *)
Lemma first_labels_keys_nodup (patterns : list regex) (content : str) :
  all_disjoint patterns = true ->
  NoDup (map Str.lower (first_labels patterns content)).
Proof.
  induction patterns as [| p ps IH]; simpl; [constructor |].
  intros H. apply andb_true_iff in H. destruct H as [Hp Hps].
  specialize (IH Hps).
  fold (first_labels ps content).
  destruct (label_of p content) as [l |] eqn:El; [| exact IH].
  simpl. constructor; [| exact IH].
  intros Hin. apply in_map_iff in Hin. destruct Hin as (l' & Hl & Hin).
  apply in_first_labels in Hin. destruct Hin as (q & Hq & El').
  rewrite forallb_forall in Hp. specialize (Hp q Hq).
  destruct (disjointb_norms p q Hp) as (xs & ys & Hxs & Hys).
  apply (disjointb_sound p q xs ys (norm l) Hp Hxs Hys).
  - apply (label_of_norms p content l xs Hxs El).
  - rewrite <- (norm_lower_eq l' l Hl). apply (label_of_norms q content l' ys Hys El').
Qed.

Lemma nodup_of_map (A B : Type) (f : A -> B) (l : list A) :
  NoDup (map f l) -> NoDup l.
Proof.
  induction l as [| x l IH]; simpl; intros H; [constructor |].
  inversion H; subst. constructor; [| apply IH; assumption].
  intros Hin. apply H2. apply in_map, Hin.
Qed.

Lemma nodup_map_inj (A B : Type) (f : A -> B) (l : list A) (x y : A) :
  NoDup (map f l) -> In x l -> In y l -> f x = f y -> x = y.
Proof.
  induction l as [| z l IH]; simpl; intros H Hx Hy E; [contradiction |].
  inversion H; subst.
  destruct Hx as [-> | Hx]; destruct Hy as [-> | Hy]; try reflexivity.
  - exfalso. apply H2. rewrite E. apply in_map, Hy.
  - exfalso. apply H2. rewrite <- E. apply in_map, Hx.
  - apply IH; assumption.
Qed.

Lemma set_add_fresh (x : str) (s : list str) : ~ In x s -> set_add x s = s ++ [x].
Proof. unfold set_add. intros H. destruct (in_dec str_eq_dec x s); tauto. Qed.

Lemma fold_set_add_nodup (l : list str) :
  forall acc, NoDup (acc ++ l) ->
    fold_left (fun acc x => set_add x acc) l acc = acc ++ l.
Proof.
  induction l as [| x l IH]; intros acc H; simpl; [symmetry; apply app_nil_r |].
  rewrite set_add_fresh.
  - rewrite IH; rewrite <- app_assoc; [reflexivity | exact H].
  - apply NoDup_remove_2 in H. intros Hin. apply H. apply in_or_app. left. exact Hin.
Qed.

Lemma tech_patterns_disjoint : all_disjoint tech_patterns = true.
Proof. vm_compute. reflexivity. Qed.

Lemma tech_patterns_keys (content : str) :
  NoDup (map Str.lower (first_labels tech_patterns content)).
Proof. apply first_labels_keys_nodup, tech_patterns_disjoint. Qed.

(** The set the loop builds holds the labels of the patterns that match,
    each once. *)
Lemma tech_loop_labels (content : str) :
  tech_loop tech_patterns content [] = first_labels tech_patterns content.
Proof.
  rewrite tech_loop_first_labels. apply (fold_set_add_nodup _ []). simpl.
  apply (nodup_of_map _ _ Str.lower), tech_patterns_keys.
Qed.

Lemma lower_lt_tied (l : list str) (x y : str) :
  NoDup (map Str.lower l) -> In x l -> In y l ->
  lower_lt x y = false -> lower_lt y x = false -> x = y.
Proof.
  intros N Hx Hy H1 H2. apply (nodup_map_inj _ _ Str.lower l x y N Hx Hy).
  apply ltb_total; assumption.
Qed.

(** The order in which the set is iterated does not show in the result. *)
Lemma extract_technologies_labels (iter : list str -> list str) (content : str) :
  (forall l, Permutation (iter l) l) ->
  extract_technologies iter content
  = match first_labels tech_patterns content with
    | [] => NA
    | _ :: _ =>
        Str.join (L ", ") (sorted lower_lt (first_labels tech_patterns content))
    end.
Proof.
  intros Hiter. unfold extract_technologies. rewrite tech_loop_labels.
  destruct (first_labels tech_patterns content) as [| l0 ls] eqn:E; [reflexivity |].
  f_equal. rewrite <- E. apply sorted_perm_eq.
  - apply lower_lt_irrefl.
  - apply lower_lt_trans.
  - apply lower_lt_cotrans.
  - apply Hiter.
  - intros x y Hx Hy. apply (lower_lt_tied (first_labels tech_patterns content)).
    + apply tech_patterns_keys.
    + apply (Permutation_in _ (Hiter _) Hx).
    + apply (Permutation_in _ (Hiter _) Hy).
Qed.

(** Sorted labels without two equal keys are strictly sorted. *)
Lemma sorted_strict (l : list str) :
  NoDup (map Str.lower l) ->
  StronglySorted (fun a b => lower_lt a b = true) (sorted lower_lt l).
Proof.
  intros N.
  assert (S : StronglySorted (not_after lower_lt) (sorted lower_lt l)).
  { apply sorted_sorted;
      [apply lower_lt_irrefl | apply lower_lt_trans | apply lower_lt_cotrans]. }
  assert (P := sorted_perm _ lower_lt l).
  assert (N' : NoDup (map Str.lower (sorted lower_lt l))).
  { apply (Permutation_NoDup (Permutation_map Str.lower (Permutation_sym P)) N). }
  clear P N. induction S as [| x xs _ IH F]; [constructor |].
  simpl in N'. inversion N'; subst. constructor; [apply IH; assumption |].
  rewrite Forall_forall in F |- *. intros y Hy. specialize (F y Hy).
  unfold not_after in F. destruct (lower_lt x y) eqn:E; [reflexivity |].
  exfalso. apply H1. unfold lower_lt in F, E.
  rewrite (ltb_total _ _ E F). apply in_map, Hy.
Qed.

Lemma search_from_skip (fl : flags) (r : regex) (rest' : str) :
  forall skip pre,
    (forall a b, skip = a ++ b -> b <> [] ->
       match_at fl r (hd_error (rev (pre ++ a))) (b ++ rest') = None) ->
    search_from fl r (hd_error (rev pre)) (skip ++ rest')
    = search_from fl r (hd_error (rev (pre ++ skip))) rest'.
Proof.
  induction skip as [| c skip IH]; intros pre H; simpl.
  - rewrite app_nil_r. reflexivity.
  - assert (E : match_at fl r (hd_error (rev pre)) (c :: skip ++ rest') = None).
    { specialize (H [] (c :: skip) eq_refl). rewrite app_nil_r in H.
      apply H. discriminate. }
    rewrite E, <- (hd_rev_snoc pre c).
    replace (pre ++ c :: skip) with ((pre ++ [c]) ++ skip)
      by (rewrite <- app_assoc; reflexivity).
    apply IH. intros a b Hab Hb. rewrite <- app_assoc. simpl.
    apply (H (c :: a) b); [simpl; congruence | exact Hb].
Qed.

Lemma search_from_here (fl : flags) (r : regex) (prev : option ascii) (rest : str)
      (mo : match_obj) :
  match_at fl r prev rest = Some mo -> search_from fl r prev rest = Some mo.
Proof. intros H. destruct rest; simpl; rewrite H; reflexivity. Qed.

(** [re.search] reports the first match. *)
Lemma first_match_search (fl : flags) (r : regex) (s m : str) :
  first_match fl r s m ->
  exists mo, re_search fl r s = Some mo /\ group0 mo = m.
Proof.
  intros (pre & post & mo & -> & Hm & Hg & Hno). exists mo. split; [| exact Hg].
  unfold re_search. pose proof (search_from_skip fl r (m ++ post) pre [] Hno) as E.
  simpl in E. rewrite E. apply search_from_here. exact Hm.
Qed.

Lemma label_of_first_match (pattern : regex) (content l : str) :
  label_of pattern content = Some l <->
  exists m, first_match IGNORECASE pattern content m /\ l = Str.strip m.
Proof.
  unfold label_of. split.
  - destruct (re_search IGNORECASE pattern content) as [mo |] eqn:E; [| discriminate].
    intros H. inversion H; subst. exists (group0 mo). split; [| reflexivity].
    apply re_search_first, E.
  - intros (m & Hm & ->). destruct (first_match_search _ _ _ _ Hm) as (mo & -> & ->).
    reflexivity.
Qed.

Lemma label_of_none (pattern : regex) (content : str) :
  label_of pattern content = None -> no_match IGNORECASE pattern content.
Proof.
  unfold label_of.
  destruct (re_search IGNORECASE pattern content) eqn:E; [discriminate |].
  intros _. apply re_search_none, E.
Qed.

Lemma first_labels_nil (patterns : list regex) (content : str) :
  first_labels patterns content = [] ->
  forall pattern, In pattern patterns -> no_match IGNORECASE pattern content.
Proof.
  induction patterns as [| p ps IH]; simpl; intros H q Hq; [contradiction |].
  apply app_eq_nil in H. destruct H as [H1 H2].
  destruct Hq as [<- | Hq]; [| apply IH; assumption].
  apply label_of_none. destruct (label_of p content); [discriminate | reflexivity].
Qed.

Lemma first_labels_ci (patterns : list regex) (c1 c2 : str) :
  Str.lower c1 = Str.lower c2 ->
  map Str.lower (first_labels patterns c1) = map Str.lower (first_labels patterns c2).
Proof.
  intros Hc. induction patterns as [| p ps IH]; simpl; [reflexivity |].
  rewrite !map_app. fold (first_labels ps c1) (first_labels ps c2). rewrite IH.
  f_equal. pose proof (label_of_ci p c1 c2 Hc) as H.
  destruct (label_of p c1); destruct (label_of p c2); simpl in H; try discriminate;
    [| reflexivity].
  simpl. congruence.
Qed.

Lemma insert_sorted_ci (x y : str) (l1 l2 : list str) :
  Str.lower x = Str.lower y -> map Str.lower l1 = map Str.lower l2 ->
  map Str.lower (insert_sorted lower_lt x l1)
  = map Str.lower (insert_sorted lower_lt y l2).
Proof.
  intros Hxy. revert l2. induction l1 as [| a l1 IH]; intros [| b l2] H;
    try discriminate; simpl.
  - congruence.
  - simpl in H. injection H as Hab Hl. unfold lower_lt at 1 3. rewrite Hab, Hxy.
    destruct (Str.ltb (Str.lower b) (Str.lower y)); simpl.
    + rewrite Hab. f_equal. apply IH, Hl.
    + congruence.
Qed.

Lemma sorted_ci (l1 l2 : list str) :
  map Str.lower l1 = map Str.lower l2 ->
  map Str.lower (sorted lower_lt l1) = map Str.lower (sorted lower_lt l2).
Proof.
  revert l2. induction l1 as [| x l1 IH]; intros [| y l2] H; try discriminate;
    [reflexivity |].
  simpl in H. injection H as Hxy Hl. simpl.
  apply insert_sorted_ci; [exact Hxy | apply IH, Hl].
Qed.

Lemma lower_join (sep : str) (parts : list str) :
  Str.lower (Str.join sep parts) = Str.join (Str.lower sep) (map Str.lower parts).
Proof.
  induction parts as [| p [| q more] IH]; try reflexivity.
  change (Str.join sep (p :: q :: more)) with (p ++ sep ++ Str.join sep (q :: more)).
  rewrite !lower_app, IH. reflexivity.
Qed.

Lemma lstrip_infix (s : str) :
  exists a, s = a ++ Str.lstrip s /\ forallb Str.is_space a = true.
Proof.
  induction s as [| c s (a & E & Ha)]; simpl.
  - exists []. auto.
  - destruct (Str.is_space c) eqn:Ec.
    + exists (c :: a). simpl. rewrite Ec, Ha. split; [congruence | reflexivity].
    + exists []. auto.
Qed.

(** [strip] takes whitespace away at both ends and nothing else. *)
Lemma strip_infix (s : str) :
  exists a b, s = a ++ Str.strip s ++ b
              /\ forallb Str.is_space a = true /\ forallb Str.is_space b = true.
Proof.
  unfold Str.strip, Str.rstrip.
  destruct (lstrip_infix s) as (a & Ea & Ha).
  destruct (lstrip_infix (rev (Str.lstrip s))) as (b & Eb & Hb).
  exists a, (rev b). split; [| split; [exact Ha |]].
  - rewrite Ea at 1. f_equal. rewrite <- rev_app_distr, <- Eb, rev_involutive.
    reflexivity.
  - rewrite forallb_forall in Hb |- *. intros x Hx. apply Hb, in_rev, Hx.
Qed.

(** A label stands in the document as it is. *)
Lemma label_of_infix (pattern : regex) (content l : str) :
  label_of pattern content = Some l ->
  exists before after, content = before ++ l ++ after.
Proof.
  intros H. apply label_of_first_match in H.
  destruct H as (m & (pre & post & mo & -> & _) & ->).
  destruct (strip_infix m) as (a & b & E & _).
  exists (pre ++ a), (b ++ post). rewrite E at 1. rewrite <- !app_assoc. reflexivity.
Qed.

(** ** Two runs *)

Lemma get_git_info_ext (w1 w2 : world) (file_path repo_root : str) :
  (forall p s, relpath w1 p s = relpath w2 p s) ->
  (forall cmd cwd, subprocess_run w1 cmd cwd = subprocess_run w2 cmd cwd) ->
  get_git_info w1 file_path repo_root = get_git_info w2 file_path repo_root.
Proof.
  intros Hrel Hrun. unfold get_git_info, run. rewrite Hrel.
  destruct (relpath w2 file_path repo_root) as [rel |]; [| reflexivity].
  simpl. rewrite !Hrun. reflexivity.
Qed.

Lemma rows_of_ext (w1 w2 : world) (iter1 iter2 : list str -> list str)
      (repo_root : str) (ip : Path) (md_files : list Path) :
  (forall l, Permutation (iter1 l) l) -> (forall l, Permutation (iter2 l) l) ->
  (forall p s, relpath w1 p s = relpath w2 p s) ->
  (forall cmd cwd, subprocess_run w1 cmd cwd = subprocess_run w2 cmd cwd) ->
  (forall p, read_text w1 p = read_text w2 p) ->
  rows_of w1 iter1 repo_root ip md_files = rows_of w2 iter2 repo_root ip md_files.
Proof.
  intros H1 H2 Hrel Hrun Hread. unfold rows_of. apply flat_map_ext. intros p.
  rewrite Hread. destruct (read_text w2 (path_str p)) as [content |]; [| reflexivity].
  unfold lab_of. rewrite (get_git_info_ext w1 w2 _ _ Hrel Hrun).
  rewrite (extract_technologies_labels iter1 content H1),
    (extract_technologies_labels iter2 content H2). reflexivity.
Qed.

Lemma md_files_of_perm (w1 w2 : world) (instructions_dir : str) :
  Permutation (rglob_md w1 instructions_dir) (rglob_md w2 instructions_dir) ->
  md_files_of w1 instructions_dir = md_files_of w2 instructions_dir.
Proof.
  intros P. unfold md_files_of. apply sorted_perm_eq.
  - apply path_lt_irrefl.
  - apply path_lt_trans.
  - apply path_lt_cotrans.
  - apply Permutation_map, P.
  - intros x y _ _. apply path_lt_total.
Qed.

(** C9. Two runs over the same directory tree and the same history write
    the same bytes to the same file: the runs may enumerate the files in
    different orders and iterate their sets in different orders, while
    reading a file, computing a relative path and asking [git] give in both
    runs the same answer to the same question. *)
Theorem reruns_write_identical_files
        (w1 w2 : world) (iter1 iter2 : list str -> list str) (repo_root : str)
        (Hiter1 : forall l, Permutation (iter1 l) l)
        (Hiter2 : forall l, Permutation (iter2 l) l)
        (Htree : forall dir, Permutation (rglob_md w1 dir) (rglob_md w2 dir))
        (Hread : forall p, read_text w1 p = read_text w2 p)
        (Hrel : forall p s, relpath w1 p s = relpath w2 p s)
        (Hgit : forall cmd cwd, subprocess_run w1 cmd cwd = subprocess_run w2 cmd cwd) :
  written (main w1 iter1 repo_root) = written (main w2 iter2 repo_root)
  /\ exists data,
       written (main w1 iter1 repo_root)
       = [(os_path_join repo_root (L "lab_catalog.csv"), data)].
Proof.
  rewrite !main_written.
  rewrite (md_files_of_perm w1 w2 _ (Htree _)).
  rewrite (rows_of_ext w1 w2 iter1 iter2 _ _ _ Hiter1 Hiter2 Hrel Hgit Hread).
  split; [reflexivity | eexists; reflexivity].
Qed.

(** Two runs that enumerate the two files in opposite orders and iterate
    their sets in opposite orders. *)
Lemma reruns_write_identical_files_witness :
  written (main first_run (fun l => l) (L "/repo"))
  = written (main second_run (@rev str) (L "/repo"))
  /\ exists data,
       written (main first_run (fun l => l) (L "/repo"))
       = [(os_path_join (L "/repo") (L "lab_catalog.csv"), data)].
Proof.
  apply (reruns_write_identical_files first_run second_run (fun l => l) (@rev str)
           (L "/repo")).
  - intros l. apply Permutation_refl.
  - intros l. apply Permutation_sym, Permutation_rev.
  - intros dir. simpl. apply perm_swap.
  - intros p. reflexivity.
  - intros p s. reflexivity.
  - intros cmd cwd. reflexivity.
Defined.

(** ** Matching on a text of which only the shape is known *)

Lemma eq_char_exact (fl : flags) (a c : ascii) :
  ignorecase fl = false -> eq_char fl a c = if ascii_dec a c then true else false.
Proof. unfold eq_char. intros ->. reflexivity. Qed.

Lemma startswith_app (l r : str) : Str.startswith l (l ++ r) = true.
Proof.
  induction l as [| a l IH]; simpl; [reflexivity |].
  destruct (ascii_dec a a); [exact IH | congruence].
Qed.

Lemma startswith_split (l s : str) :
  Str.startswith l s = true -> exists r, s = l ++ r.
Proof.
  revert s. induction l as [| a l IH]; intros s; simpl.
  - exists s. reflexivity.
  - destruct s as [| c s]; [discriminate |].
    destruct (ascii_dec a c) as [<- |]; [| discriminate].
    intros H. destruct (IH _ H) as [r ->]. exists r. reflexivity.
Qed.

Lemma startswith_app_long (key x y : str) :
  length key <= length x -> Str.startswith key (x ++ y) = Str.startswith key x.
Proof.
  revert x. induction key as [| a key IH]; intros x H; [reflexivity |].
  destruct x as [| c x]; simpl in H; [lia |]. simpl.
  destruct (ascii_dec a c); [apply IH; lia | reflexivity].
Qed.

(** A literal matches where the subject starts with it, and nowhere else. *)
Lemma lit_ends_here (fl : flags) (l : str) :
  ignorecase fl = false ->
  forall prev r g, lit_ends fl l prev (l ++ r) g = [MState (last_char prev l) r g].
Proof.
  intros Hfl. induction l as [| a l IH]; intros prev r g; simpl; [reflexivity |].
  rewrite (eq_char_exact fl a a Hfl). destruct (ascii_dec a a); [apply IH | congruence].
Qed.

Lemma lit_ends_nowhere (fl : flags) (l : str) :
  ignorecase fl = false ->
  forall prev rest g, Str.startswith l rest = false -> lit_ends fl l prev rest g = [].
Proof.
  intros Hfl. induction l as [| a l IH]; intros prev rest g; simpl; [discriminate |].
  destruct rest as [| c rest]; [reflexivity |].
  rewrite (eq_char_exact fl a c Hfl). destruct (ascii_dec a c); [apply IH | reflexivity].
Qed.

(** The lazy star first stops at each position of a run it can go over. *)
Lemma star_lazy_app (p : ascii -> bool) (v : str) (g : option str) :
  forall u prev,
    forallb p u = true ->
    star_ends p false prev (u ++ v) g
    = inner prev u v g ++ star_ends p false (last_char prev u) v g.
Proof.
  induction u as [| c u IH]; intros prev H; [reflexivity |].
  simpl in H. apply andb_true_iff in H. destruct H as [Hc Hu].
  simpl. rewrite Hc. f_equal. apply IH, Hu.
Qed.

(** The greedy star first stops at the end of the longest run. *)
Lemma star_greedy_app (p : ascii -> bool) (v : str) (g : option str) :
  match v with [] => True | c :: _ => p c = false end ->
  forall u prev,
    forallb p u = true ->
    star_ends p true prev (u ++ v) g
    = MState (last_char prev u) v g :: rev (inner prev u v g).
Proof.
  intros Hv. induction u as [| c u IH]; intros prev H.
  - simpl. destruct v as [| c v]; [reflexivity |]. simpl. rewrite Hv. reflexivity.
  - simpl in H. apply andb_true_iff in H. destruct H as [Hc Hu].
    simpl. rewrite Hc, (IH _ Hu). reflexivity.
Qed.

Lemma in_inner (prev : option ascii) (u v : str) (g : option str) (st : mstate) :
  In st (inner prev u v g) ->
  exists a b, u = a ++ b /\ b <> [] /\ st = MState (last_char prev a) (b ++ v) g.
Proof.
  revert prev. induction u as [| c u IH]; intros prev; simpl; [intros [] |].
  intros [<- | H].
  - exists [], (c :: u). repeat split. discriminate.
  - destruct (IH _ H) as (a & b & -> & Hb & ->). exists (c :: a), b. auto.
Qed.

Lemma flat_map_nil (A B : Type) (f : A -> list B) (l : list A) :
  (forall x, In x l -> f x = []) -> flat_map f l = [].
Proof.
  induction l as [| x l IH]; intros H; simpl; [reflexivity |].
  rewrite (H x (or_introl eq_refl)), IH; [reflexivity |].
  intros y Hy. apply H. right. exact Hy.
Qed.

(** The state the matcher reaches first. *)
Lemma ends_seq_first (fl : flags) (a b : regex) (st y e : mstate)
      (xs ys : list mstate) :
  ends fl a st = xs ++ y :: ys ->
  (forall x, In x xs -> ends fl b x = []) ->
  hd_error (ends fl b y) = Some e ->
  hd_error (ends fl (a ;; b) st) = Some e.
Proof.
  intros Ha Hxs Hy. simpl. rewrite Ha, flat_map_app, (flat_map_nil _ _ _ _ Hxs).
  simpl. destruct (ends fl b y) as [| e' l]; [discriminate |].
  simpl in Hy |- *. exact Hy.
Qed.

Lemma ends_seq (fl : flags) (a b : regex) (st : mstate) :
  ends fl (a ;; b) st = flat_map (ends fl b) (ends fl a st).
Proof. reflexivity. Qed.

Lemma ends_seq_none (fl : flags) (a b : regex) (st : mstate) :
  (forall x, In x (ends fl a st) -> ends fl b x = []) ->
  ends fl (a ;; b) st = [].
Proof. intros H. simpl. apply flat_map_nil, H. Qed.

Lemma cmatch_quote (fl : flags) (c : ascii) :
  ignorecase fl = false -> cmatch fl quote_set c = is_quote c.
Proof.
  intros Hfl. unfold quote_set, cmatch, is_quote. simpl.
  rewrite !(eq_char_exact fl _ _ Hfl).
  destruct (ascii_dec squote c); destruct (ascii_dec c squote); try congruence;
    destruct (ascii_dec dquote c); destruct (ascii_dec c dquote); try congruence;
    reflexivity.
Qed.

Lemma plain_dot (fl : flags) (c : ascii) :
  plain c = true -> cmatch fl CDot c = true.
Proof.
  unfold plain. intros H. apply andb_true_iff in H. destruct H as [_ H].
  simpl. destruct (dotall fl); [reflexivity |].
  destruct (ascii_dec c nl); [discriminate | reflexivity].
Qed.

Lemma plain_not_quote (c : ascii) : plain c = true -> is_quote c = false.
Proof.
  unfold plain. intros H. apply andb_true_iff in H. destruct H as [H _].
  apply negb_true_iff in H. exact H.
Qed.

Lemma quote_not_space (c : ascii) : is_quote c = true -> Str.is_space c = false.
Proof.
  unfold is_quote. destruct (ascii_dec c squote) as [-> |]; [reflexivity |].
  destruct (ascii_dec c dquote) as [-> |]; [reflexivity | discriminate].
Qed.

Lemma star_lazy_head (p : ascii -> bool) (prev : option ascii) (v : str)
      (g : option str) :
  exists more, star_ends p false prev v g = MState prev v g :: more.
Proof.
  destruct v as [| c v]; simpl; [eexists; reflexivity |].
  destruct (p c); eexists; reflexivity.
Qed.

(** [(.+?)] before a closing quote goes over a plain value and stops at the
    quote. *)
Lemma value_ends (fl : flags) (prev : option ascii) (value post : str) (q2 : ascii) :
  ignorecase fl = false ->
  value <> [] -> forallb plain value = true -> is_quote q2 = true ->
  hd_error (ends fl (Group (Plus false CDot) ;; Cls quote_set)
                 (MState prev (value ++ q2 :: post) None))
  = Some (MState (Some q2) post (Some value)).
Proof.
  intros Hfl Hne Hplain Hq.
  destruct value as [| c value']; [congruence |].
  simpl in Hplain. apply andb_true_iff in Hplain. destruct Hplain as [Hc Hv].
  assert (Hstar : forallb (cmatch fl CDot) value' = true).
  { rewrite forallb_forall in Hv |- *. intros x Hx. apply plain_dot, Hv, Hx. }
  destruct (star_lazy_head (cmatch fl CDot) (last_char (Some c) value') (q2 :: post) None)
    as [more Hmore].
  apply ends_seq_first
    with (xs := map (fun e => MState (m_prev e) (m_rest e)
                      (Some (consumed ((c :: value') ++ q2 :: post) (m_rest e))))
                    (inner (Some c) value' (q2 :: post) None))
         (y := MState (last_char (Some c) value') (q2 :: post)
                      (Some (consumed ((c :: value') ++ q2 :: post) (q2 :: post))))
         (ys := map (fun e => MState (m_prev e) (m_rest e)
                      (Some (consumed ((c :: value') ++ q2 :: post) (m_rest e)))) more).
  - cbn [ends Plus m_rest m_prev m_grp app]. rewrite (plain_dot fl c Hc).
    cbn [flat_map ends m_rest m_prev m_grp]. rewrite app_nil_r.
    rewrite (star_lazy_app _ _ _ _ _ Hstar), Hmore, map_app. reflexivity.
  - intros x Hx. apply in_map_iff in Hx. destruct Hx as (x0 & <- & Hx0).
    apply in_inner in Hx0. destruct Hx0 as (a & b & E & Hb & ->).
    destruct b as [| d b]; [congruence |].
    cbn [ends m_rest app]. rewrite (cmatch_quote fl d Hfl).
    rewrite plain_not_quote; [reflexivity |].
    rewrite forallb_forall in Hv. apply Hv. rewrite E. apply in_or_app. right. left.
    reflexivity.
  - cbn [ends m_rest m_prev m_grp]. rewrite (cmatch_quote fl q2 Hfl), Hq.
    cbn [hd_error]. rewrite (consumed_app (c :: value') (q2 :: post)). reflexivity.
Qed.

(** At the key, the field pattern reads the quoted value. *)
Lemma field_match_here (fl : flags) (key ws value post : str) (q1 q2 : ascii)
      (prev : option ascii) :
  ignorecase fl = false ->
  forallb Str.is_space ws = true ->
  is_quote q1 = true -> is_quote q2 = true ->
  value <> [] -> forallb plain value = true ->
  exists mo,
    match_at fl (field_re key) prev (key ++ ws ++ q1 :: value ++ q2 :: post) = Some mo
    /\ group1 mo = value.
Proof.
  intros Hfl Hws Hq1 Hq2 Hne Hplain.
  assert (H : hd_error (ends fl (field_re key)
                          (MState prev (key ++ ws ++ q1 :: value ++ q2 :: post) None))
              = Some (MState (Some q2) post (Some value))).
  { unfold field_re.
    apply ends_seq_first
      with (xs := []) (ys := [])
           (y := MState (last_char prev key) (ws ++ q1 :: value ++ q2 :: post) None).
    - cbn [ends m_rest m_prev m_grp]. apply lit_ends_here, Hfl.
    - intros x [].
    - apply ends_seq_first
        with (xs := []) 
             (y := MState (last_char (last_char prev key) ws) (q1 :: value ++ q2 :: post) None)
             (ys := rev (inner (last_char prev key) ws (q1 :: value ++ q2 :: post) None)).
      + unfold ws_star. cbn [ends m_rest m_prev m_grp app].
        apply star_greedy_app; [| exact Hws].
        cbn [cmatch]. apply quote_not_space, Hq1.
      + intros x [].
      + apply ends_seq_first
          with (xs := []) (ys := [])
               (y := MState (Some q1) (value ++ q2 :: post) None).
        * cbn [ends m_rest m_prev m_grp app]. rewrite (cmatch_quote fl q1 Hfl), Hq1.
          reflexivity.
        * intros x [].
        * apply value_ends; assumption. }
  unfold match_at.
  destruct (ends fl (field_re key) (MState prev (key ++ ws ++ q1 :: value ++ q2 :: post) None))
    as [| e l]; [discriminate |].
  simpl in H. injection H as ->. eexists. split; reflexivity.
Qed.

(** Before the first occurrence of the key the field pattern matches
    nowhere. *)
Lemma field_search_skip (fl : flags) (key after : str) (r : regex) :
  ignorecase fl = false ->
  forall pre prev,
    occurs_within key pre (key ++ after) = false ->
    search_from fl (Lit key ;; r) prev (pre ++ key ++ after)
    = search_from fl (Lit key ;; r) (last_char prev pre) (key ++ after).
Proof.
  intros Hfl. induction pre as [| c pre IH]; intros prev H; [reflexivity |].
  cbn [occurs_within] in H. apply orb_false_iff in H. destruct H as [H1 H2].
  cbn [app search_from]. unfold match_at at 1.
  cbn [ends m_rest m_prev m_grp].
  rewrite (lit_ends_nowhere fl key Hfl _ _ _ H1). cbn [flat_map].
  apply IH, H2.
Qed.

Lemma occurs_within_long (key pre after more : str) :
  length key <= length after ->
  occurs_within key pre (after ++ more) = occurs_within key pre after.
Proof.
  intros Hl. induction pre as [| c pre IH]; [reflexivity |].
  cbn [occurs_within]. rewrite IH. f_equal.
  rewrite app_assoc. apply startswith_app_long. rewrite length_app. lia.
Qed.

(** [re.search] of a field pattern finds the value at the first
    occurrence of the key. *)
Lemma field_search (key fm value : str) :
  field_first key fm value ->
  exists mo, re_search NOFLAG (field_re key) fm = Some mo /\ group1 mo = value.
Proof.
  intros (pre & ws & q1 & q2 & post & -> & Hocc & Hws & Hq1 & Hq2 & Hne & Hplain).
  destruct (field_match_here NOFLAG key ws value post q1 q2 (last_char None pre)
              eq_refl Hws Hq1 Hq2 Hne Hplain) as (mo & Hm & Hg).
  exists mo. split; [| exact Hg].
  unfold re_search, field_re. rewrite field_search_skip; [| reflexivity |].
  - apply search_from_here. exact Hm.
  - rewrite occurs_within_long; [exact Hocc | lia].
Qed.

Lemma occurs_startswith (key s : str) :
  occurs key s = false -> Str.startswith key s = false.
Proof. destruct s; simpl; intros H; apply orb_false_iff in H; tauto. Qed.

(** Where the key does not occur the field pattern finds nothing. *)
Lemma field_search_none (fl : flags) (key : str) (r : regex) :
  ignorecase fl = false ->
  forall s prev, occurs key s = false -> search_from fl (Lit key ;; r) prev s = None.
Proof.
  intros Hfl. induction s as [| c s IH]; intros prev H.
  - cbn [search_from]. unfold match_at. cbn [ends m_rest m_prev m_grp].
    rewrite (lit_ends_nowhere fl key Hfl _ _ _ (occurs_startswith _ _ H)). reflexivity.
  - pose proof (occurs_startswith _ _ H) as H1.
    cbn [occurs] in H. apply orb_false_iff in H. destruct H as [_ H2].
    cbn [search_from]. unfold match_at at 1. cbn [ends m_rest m_prev m_grp].
    rewrite (lit_ends_nowhere fl key Hfl _ _ _ H1). cbn [flat_map].
    apply IH, H2.
Qed.

(** ** The frontmatter pattern on a document with frontmatter *)

Lemma star_ends_here (p : ascii -> bool) (greedy : bool) (prev : option ascii)
      (rest : str) (g : option str) :
  In (MState prev rest g) (star_ends p greedy prev rest g).
Proof.
  destruct rest as [| c rest]; simpl; [left; reflexivity |].
  destruct (p c); [| left; reflexivity].
  destruct greedy; [apply in_or_app; right |]; left; reflexivity.
Qed.

Lemma flat_map_not_nil (A B : Type) (f : A -> list B) (l : list A) (x : A) :
  In x l -> f x <> [] -> flat_map f l <> [].
Proof.
  intros Hx Hf H. apply Hf.
  destruct (f x) as [| b bs] eqn:E; [reflexivity |].
  assert (Hb : In b (flat_map f l)) by (apply in_flat_map; exists x; rewrite E; simpl; auto).
  rewrite H in Hb. contradiction.
Qed.

Lemma cmatch_nl (fl : flags) : cmatch fl (CChar nl) nl = true.
Proof. unfold cmatch, eq_char. destruct (ignorecase fl); reflexivity. Qed.

(** The closing delimiter matches where the text goes on with a line feed,
    three dashes and a line feed. *)
Lemma ends_seq_some (fl : flags) (a b : regex) (st y : mstate) :
  In y (ends fl a st) -> ends fl b y <> [] -> ends fl (a ;; b) st <> [].
Proof. intros Hy Hb. cbn [ends]. apply (flat_map_not_nil _ _ _ _ y Hy Hb). Qed.

Lemma closing_here (prev : option ascii) (rest : str) (g : option str) :
  ends DOTALL closing_re (MState prev (nl :: L "---" ++ nl :: rest) g) <> [].
Proof.
  unfold closing_re.
  apply ends_seq_some with (y := MState (Some nl) (L "---" ++ nl :: rest) g).
  { cbn [ends m_rest m_prev m_grp]. rewrite cmatch_nl. left. reflexivity. }
  apply ends_seq_some with (y := MState (Some "-"%char) (nl :: rest) g).
  { cbn [ends m_rest m_prev m_grp].
    rewrite (lit_ends_here DOTALL (L "---") eq_refl). left. reflexivity. }
  apply ends_seq_some with (y := MState (Some "-"%char) (nl :: rest) g).
  { unfold ws_star. cbn [ends m_rest m_prev m_grp]. apply star_ends_here. }
  cbn [ends m_rest m_prev m_grp]. rewrite cmatch_nl. discriminate.
Qed.

(** It matches nowhere else. *)
Lemma closing_nowhere (st : mstate) :
  Str.startswith (nl :: L "---") (m_rest st) = false ->
  ends DOTALL closing_re st = [].
Proof.
  intros H. unfold closing_re. cbn [ends].
  destruct (m_rest st) as [| c rest]; [reflexivity |].
  cbn [Str.startswith] in H. unfold cmatch, eq_char. cbn [ignorecase DOTALL].
  destruct (ascii_dec nl c); [| reflexivity].
  cbn [flat_map m_rest m_prev m_grp]. rewrite app_nil_r.
  rewrite (lit_ends_nowhere DOTALL (L "---") eq_refl _ _ _ H). reflexivity.
Qed.

(** It leaves the capture as it is. *)
Lemma closing_keeps_group (st e : mstate) :
  In e (ends DOTALL closing_re st) -> m_grp e = m_grp st.
Proof.
  unfold closing_re. cbn [ends]. intros H.
  apply in_flat_map in H. destruct H as (s1 & H1 & H).
  apply in_flat_map in H. destruct H as (s2 & H2 & H).
  apply in_flat_map in H. destruct H as (s3 & H3 & H).
  destruct (m_rest st) as [| c rest]; [contradiction |].
  destruct (cmatch DOTALL (CChar nl) c); [| contradiction].
  destruct H1 as [<- | []]. cbn [m_grp m_rest m_prev] in H2.
  apply lit_ends_between in H2. destruct H2 as (_ & _ & _ & G2).
  unfold ws_star in H3. cbn [ends] in H3.
  apply star_ends_between in H3. destruct H3 as (_ & _ & _ & G3).
  destruct (m_rest s3) as [| d rest3]; [contradiction |].
  destruct (cmatch DOTALL (CChar nl) d); [| contradiction].
  destruct H as [<- | []]. cbn [m_grp]. congruence.
Qed.

Lemma occurs_within_split (key after : str) :
  forall pre a b,
    occurs_within key pre after = false -> pre = a ++ b -> b <> [] ->
    Str.startswith key (b ++ after) = false.
Proof.
  induction pre as [| c pre IH]; intros a b H E Hb.
  - destruct a; destruct b; simpl in E; congruence.
  - cbn [occurs_within] in H. apply orb_false_iff in H. destruct H as [H1 H2].
    destruct a as [| x a]; simpl in E.
    + subst b. exact H1.
    + injection E as _ E. apply (IH a b H2 E Hb).
Qed.

Lemma hd_flat_map_first (A B : Type) (f : A -> list B) (xs ys : list A) (y : A) :
  f y <> [] ->
  exists x e, In x (xs ++ [y]) /\ In e (f x)
              /\ hd_error (flat_map f (xs ++ y :: ys)) = Some e.
Proof.
  intros Hy. induction xs as [| x xs (x' & e & Hx & He & Hh)]; simpl.
  - destruct (f y) as [| e l] eqn:E; [congruence |].
    exists y, e. rewrite E. simpl. auto.
  - destruct (f x) as [| e0 l] eqn:E.
    + exists x', e. simpl. auto.
    + exists x, e0. rewrite E. simpl. auto.
Qed.

(** After the opening delimiter line the text up to the closing delimiter
    is captured, or a part of it that ends earlier. *)
Lemma capture_ends (fm rest : str) (prev : option ascii) :
  exists e g tail,
    hd_error (ends DOTALL (Group (Star false CDot) ;; closing_re)
                   (MState prev (fm ++ nl :: L "---" ++ nl :: rest) None))
    = Some e
    /\ m_grp e = Some g /\ fm = g ++ tail
    /\ (occurs_within (nl :: L "---") fm (nl :: L "---") = false -> tail = []).
Proof.
  set (v' := nl :: L "---" ++ nl :: rest).
  set (setg := fun e => MState (m_prev e) (m_rest e) (Some (consumed (fm ++ v') (m_rest e)))).
  destruct (star_lazy_head (cmatch DOTALL CDot) (last_char prev fm) v' None)
    as [more Hmore].
  assert (Hends : ends DOTALL (Group (Star false CDot)) (MState prev (fm ++ v') None)
                  = map setg (inner prev fm v' None)
                    ++ setg (MState (last_char prev fm) v' None) :: map setg more).
  { cbn [ends m_rest m_prev m_grp]. fold setg.
    rewrite star_lazy_app, Hmore, map_app; [reflexivity |].
    apply forallb_forall. reflexivity. }
  destruct (hd_flat_map_first _ _ (ends DOTALL closing_re)
              (map setg (inner prev fm v' None)) (map setg more)
              (setg (MState (last_char prev fm) v' None)))
    as (x & e & Hx & He & Hh).
  { apply closing_here. }
  assert (Hx' : (exists a b, fm = a ++ b /\ b <> [] /\ m_rest x = b ++ v'
                             /\ m_grp x = Some a)
                \/ (m_rest x = v' /\ m_grp x = Some fm)).
  { apply in_app_or in Hx. destruct Hx as [Hx | [<- | []]].
    - left. apply in_map_iff in Hx. destruct Hx as (x0 & <- & Hx0).
      apply in_inner in Hx0. destruct Hx0 as (a & b & E & Hb & ->).
      exists a, b. unfold setg. cbn [m_rest m_grp].
      split; [exact E | split; [exact Hb | split; [reflexivity |]]].
      rewrite E, <- app_assoc, consumed_app. reflexivity.
    - right. unfold setg. cbn [m_rest m_grp]. rewrite consumed_app. auto. }
  exists e. rewrite ends_seq, Hends.
  destruct Hx' as [(a & b & E & Hb & Hr & Hg) | [Hr Hg]].
  - exists a, b. split; [exact Hh |].
    split; [rewrite (closing_keeps_group _ _ He); exact Hg |].
    split; [exact E |]. intros Hocc. exfalso.
    assert (Hn : ends DOTALL closing_re x = []).
    { apply closing_nowhere. rewrite Hr. unfold v'.
      change (nl :: L "---" ++ nl :: rest) with ((nl :: L "---") ++ nl :: rest).
      rewrite app_assoc, startswith_app_long.
      - apply (occurs_within_split _ _ fm a b Hocc E Hb).
      - rewrite length_app. simpl. lia. }
    rewrite Hn in He. contradiction.
  - exists fm, []. split; [exact Hh |].
    split; [rewrite (closing_keeps_group _ _ He); exact Hg |].
    split; [symmetry; apply app_nil_r | reflexivity].
Qed.

Lemma starts_with_text_split (s : str) :
  starts_with_text s = true ->
  exists indent c more,
    s = indent ++ c :: more
    /\ forallb Str.is_space indent = true
    /\ ~ In nl indent
    /\ Str.is_space c = false.
Proof.
  induction s as [| x s IH]; [discriminate |]. cbn [starts_with_text].
  destruct (ascii_dec x nl) as [-> | Hx]; [discriminate |].
  destruct (Str.is_space x) eqn:Ex.
  - intros H. destruct (IH H) as (indent & c & more & -> & Hi & Hn & Hc).
    exists (x :: indent), c, more. cbn [forallb]. rewrite Ex, Hi.
    repeat split; try assumption. intros [E | E]; [congruence | contradiction].
  - intros _. exists [], x, s. repeat split; try assumption. intros [].
Qed.

Lemma cls_nl_nowhere (fl : flags) (st : mstate) (c : ascii) (rest : str) :
  m_rest st = c :: rest -> c <> nl -> ends fl (Cls (CChar nl)) st = [].
Proof.
  intros E Hc. cbn [ends]. rewrite E.
  unfold cmatch, eq_char.
  destruct (ignorecase fl).
  - destruct (ascii_dec (Str.lower_char nl) (Str.lower_char c)) as [H |]; [| reflexivity].
    exfalso. apply Hc. apply lower_char_nl. rewrite <- H. reflexivity.
  - destruct (ascii_dec nl c); [congruence | reflexivity].
Qed.

(** [re.match] of the frontmatter pattern on a document with frontmatter
    whose first line is not blank. *)
Lemma frontmatter_match (fm rest : str) :
  starts_with_text fm = true ->
  exists m tail,
    re_match DOTALL frontmatter_re (with_frontmatter fm rest) = Some m
    /\ fm = group1 m ++ tail
    /\ (occurs_within (nl :: L "---") fm (nl :: L "---") = false -> tail = []).
Proof.
  intros Htext.
  destruct (starts_with_text_split fm Htext) as (indent & c0 & fm0 & Efm & Hi & Hn & Hc0).
  destruct (capture_ends fm rest (Some nl)) as (e & g & tail & Hh & Hg & E & Ht).
  set (after := fm0 ++ [nl] ++ L "---" ++ [nl] ++ rest).
  assert (Hdoc : with_frontmatter fm rest = L "---" ++ (nl :: indent) ++ c0 :: after).
  { unfold with_frontmatter, after. rewrite Efm. cbn [app].
    rewrite <- !app_assoc. reflexivity. }
  assert (Hback : fm ++ nl :: L "---" ++ nl :: rest = indent ++ c0 :: after).
  { unfold after. rewrite Efm, <- app_assoc. reflexivity. }
  assert (H : hd_error (ends DOTALL frontmatter_re
                          (MState None (with_frontmatter fm rest) None))
              = Some e).
  { rewrite Hdoc. unfold frontmatter_re.
    apply ends_seq_first
      with (xs := []) (ys := [])
           (y := MState None (L "---" ++ (nl :: indent) ++ c0 :: after) None);
      [reflexivity | intros x [] |].
    apply ends_seq_first
      with (xs := []) (ys := [])
           (y := MState (Some "-"%char) ((nl :: indent) ++ c0 :: after) None);
      [apply (lit_ends_here DOTALL (L "---") eq_refl) | intros x [] |].
    apply ends_seq_first
      with (xs := MState (last_char (Some "-"%char) (nl :: indent)) (c0 :: after) None
                    :: rev (inner (Some nl) indent (c0 :: after) None))
           (ys := [])
           (y := MState (Some "-"%char) ((nl :: indent) ++ c0 :: after) None).
    - unfold ws_star. cbn [ends m_rest m_prev m_grp].
      rewrite (star_greedy_app (cmatch DOTALL CSpace) (c0 :: after) None);
        [| exact Hc0
         | change (cmatch DOTALL CSpace) with Str.is_space; cbn [forallb];
           rewrite Hi; reflexivity].
      cbn [inner rev app]. reflexivity.
    - intros x [<- | Hx].
      + rewrite ends_seq, (cls_nl_nowhere DOTALL _ c0 after);
          [reflexivity | reflexivity | intros ->; discriminate].
      + apply in_rev, in_inner in Hx. destruct Hx as (a & b & Eab & Hb & ->).
        destruct b as [| d b]; [congruence |].
        rewrite ends_seq, (cls_nl_nowhere DOTALL _ d (b ++ c0 :: after));
          [reflexivity | reflexivity |].
        intros ->. apply Hn. rewrite Eab. apply in_or_app. right. left. reflexivity.
    - apply ends_seq_first
        with (xs := []) (ys := [])
             (y := MState (Some nl) (indent ++ c0 :: after) None).
      + cbn [ends m_rest m_prev m_grp app]. rewrite cmatch_nl. reflexivity.
      + intros x [].
      + rewrite <- Hback. exact Hh. }
  unfold re_match, match_at.
  destruct (ends DOTALL frontmatter_re
              (MState None (with_frontmatter fm rest) None)) as [| e' l];
    [discriminate |].
  simpl in H. injection H as ->.
  eexists. exists tail. split; [reflexivity |]. cbn [group1]. rewrite Hg.
  split; assumption.
Qed.

Lemma startswith_weaken (key g tail : str) :
  Str.startswith key g = true -> Str.startswith key (g ++ tail) = true.
Proof.
  intros H. destruct (startswith_split _ _ H) as [r ->].
  rewrite <- app_assoc. apply startswith_app.
Qed.

Lemma occurs_prefix (key g tail : str) :
  occurs key (g ++ tail) = false -> occurs key g = false.
Proof.
  induction g as [| c g IH]; intros H.
  - cbn [occurs]. rewrite orb_false_r.
    destruct (Str.startswith key []) eqn:E; [| reflexivity].
    apply (startswith_weaken key [] tail) in E.
    apply occurs_startswith in H. simpl in E, H. congruence.
  - pose proof (occurs_startswith _ _ H) as H1.
    cbn [app occurs] in H. apply orb_false_iff in H. destruct H as [_ H2].
    cbn [occurs]. apply orb_false_iff. split; [| apply IH, H2].
    destruct (Str.startswith key (c :: g)) eqn:E; [| reflexivity].
    apply (startswith_weaken key (c :: g) tail) in E. congruence.
Qed.

(** The rule that every pair of delimiter lines cuts the fallback short
    does not hold of the code: with nothing between the two delimiter lines
    the frontmatter pattern, which asks for a line feed on each side of the
    block, does not match; the document is read as one without frontmatter
    and the heading fallback runs. *)
Lemma frontmatter_short_circuits_fails : ~ frontmatter_short_circuits.
Proof.
  intros H.
  specialize (H [] (L "# Deploy a model" ++ [nl] ++ [nl]
                      ++ L "In this lab you deploy a model." ++ [nl])
                (or_introl eq_refl) eq_refl eq_refl).
  vm_compute in H. discriminate.
Qed.

(** C3, on the code.  The pattern that is to match the frontmatter between
    its delimiter lines asks for a line feed on each side of the block and
    lets the whitespace after the first delimiter run over blank lines.
    With nothing between the two delimiter lines it does not match: the
    heading fallback runs and the description of the record is made of the
    heading and the first paragraph, where the sentinel is due.  With a
    blank line between them the capture runs on to the next line of three
    dashes of the document, and a description is read out of the body. *)
Theorem empty_frontmatter_runs_fallback :
  empty_frontmatter_doc
  = between_delimiters [] (L "# Deploy a model" ++ [nl] ++ [nl]
                             ++ L "In this lab you deploy a model." ++ [nl])
  /\ re_match DOTALL frontmatter_re empty_frontmatter_doc = None
  /\ parse_frontmatter empty_frontmatter_doc
     = (L "Deploy a model", L "In this lab you deploy a model.")
  /\ full_description (fst (parse_frontmatter empty_frontmatter_doc))
                      (snd (parse_frontmatter empty_frontmatter_doc))
     = L "Deploy a model. In this lab you deploy a model."
  /\ parse_frontmatter blank_frontmatter_doc = ([], L "not a field")
  /\ full_description (fst (parse_frontmatter blank_frontmatter_doc))
                      (snd (parse_frontmatter blank_frontmatter_doc))
     = L "not a field".
Proof. vm_compute. repeat split; reflexivity. Qed.

(** X18. A document that opens with a frontmatter delimiter pair around a
    block of ASCII characters whose first line is not blank and that holds
    neither [title:] nor [description:] gets an empty title and an empty
    description, whatever follows the block: the heading fallback does not
    run, and the description of the record is the sentinel. *)
Theorem frontmatter_without_fields (fm rest : str)
        (Hascii : is_ascii fm = true)
        (Htext : starts_with_text fm = true)
        (Htitle : occurs (L "title:") fm = false)
        (Hdesc : occurs (L "description:") fm = false) :
  parse_frontmatter (with_frontmatter fm rest) = ([], [])
  /\ full_description (fst (parse_frontmatter (with_frontmatter fm rest)))
                      (snd (parse_frontmatter (with_frontmatter fm rest))) = NA.
Proof.
  assert (H : parse_frontmatter (with_frontmatter fm rest) = ([], [])).
  { destruct (frontmatter_match fm rest Htext) as (m & tail & Hm & E & _).
    unfold parse_frontmatter. rewrite Hm. unfold re_search, title_re, desc_re.
    rewrite E in Htitle, Hdesc.
    rewrite (field_search_none NOFLAG (L "title:") _ eq_refl _ None
               (occurs_prefix _ _ _ Htitle)).
    rewrite (field_search_none NOFLAG (L "description:") _ eq_refl _ None
               (occurs_prefix _ _ _ Hdesc)).
    reflexivity. }
  rewrite H. split; reflexivity.
Qed.

(** A block without the two fields, before a heading and a paragraph. *)
Lemma frontmatter_without_fields_witness :
  parse_frontmatter (with_frontmatter bare_frontmatter (L "# Heading" ++ [nl] ++ L "Text"))
  = ([], [])
  /\ full_description
       (fst (parse_frontmatter
               (with_frontmatter bare_frontmatter (L "# Heading" ++ [nl] ++ L "Text"))))
       (snd (parse_frontmatter
               (with_frontmatter bare_frontmatter (L "# Heading" ++ [nl] ++ L "Text"))))
     = NA.
Proof.
  apply (frontmatter_without_fields bare_frontmatter (L "# Heading" ++ [nl] ++ L "Text"));
    reflexivity.
Defined.

(** C4, on the code.  The pattern of a value ends it at the first quote of
    either kind: a title between double quotes that holds an apostrophe is
    cut at the apostrophe. *)
Theorem apostrophe_cuts_title :
  parse_frontmatter apostrophe_doc = (L "Don", L "A first lab").
Proof. vm_compute. reflexivity. Qed.

(** X1. In a document that opens with a frontmatter block whose first
    line is not blank and in which no later line begins with three dashes,
    when the first [title:] and the first
    [description:] of the block are each followed by optional whitespace
    and a quoted, non-empty value that holds no quote of either kind and no
    line feed, the parser returns exactly the two values. *)
Theorem frontmatter_quoted_fields (fm rest title description : str)
        (Htext : starts_with_text fm = true)
        (Hblock : occurs_within (nl :: L "---") fm (nl :: L "---") = false)
        (Htitle : field_first (L "title:") fm title)
        (Hdesc : field_first (L "description:") fm description) :
  parse_frontmatter (with_frontmatter fm rest) = (title, description).
Proof.
  destruct (frontmatter_match fm rest Htext) as (m & tail & Hm & E & Ht).
  specialize (Ht Hblock). subst tail. rewrite app_nil_r in E.
  unfold parse_frontmatter. rewrite Hm, <- E.
  destruct (field_search _ _ _ Htitle) as (mt & Hmt & Gt).
  destruct (field_search _ _ _ Hdesc) as (md & Hmd & Gd).
  change title_re with (field_re (L "title:")).
  change desc_re with (field_re (L "description:")).
  rewrite Hmt, Hmd, Gt, Gd. reflexivity.
Qed.

(** A block with a single-quoted title and a double-quoted description. *)
Lemma frontmatter_quoted_fields_witness :
  parse_frontmatter (with_frontmatter lab_frontmatter (L "# Heading" ++ [nl]))
  = (L "Explore the model catalog", L "Compare models").
Proof.
  apply (frontmatter_quoted_fields lab_frontmatter (L "# Heading" ++ [nl])).
  - reflexivity.
  - reflexivity.
  - exists (L "lab:" ++ [nl] ++ L "    "), (L " "), squote, squote,
      ([nl] ++ L "    description: " ++ [dquote] ++ L "Compare models" ++ [dquote]).
    repeat split; try reflexivity. discriminate.
  - exists (L "lab:" ++ [nl] ++ L "    title: 'Explore the model catalog'" ++ [nl] ++ L "    "),
      (L " "), dquote, dquote, [].
    repeat split; try reflexivity. discriminate.
Defined.


(** ** The heading fallback *)

Lemma at_bol_line_start (prev : option ascii) (rest : str) (g : option str) :
  at_bol MULTILINE (MState prev rest g) = line_start prev.
Proof. destruct prev; reflexivity. Qed.

Lemma at_eol_line_end (prev : option ascii) (rest : str) (g : option str) :
  at_eol MULTILINE (MState prev rest g) = line_end rest.
Proof.
  unfold at_eol, line_end. cbn [m_rest multiline MULTILINE].
  destruct rest as [| c tl]; [reflexivity |].
  destruct (ascii_dec c nl); reflexivity.
Qed.

(** Where no line begins with [#] and whitespace the heading pattern has
    no match. *)
Lemma h1_nowhere (prev : option ascii) (c : ascii) (rest : str) :
  (line_start prev
   && (if ascii_dec c "#" then true else false)
   && match rest with d :: _ => Str.is_space d | [] => false end) = false ->
  match_at MULTILINE h1_re prev (c :: rest) = None.
Proof.
  intros H.
  assert (E : ends MULTILINE h1_re (MState prev (c :: rest) None) = []).
  { unfold h1_re. apply ends_seq_none. intros x Hx.
    cbn [ends] in Hx. rewrite at_bol_line_start in Hx.
    destruct (line_start prev); [| contradiction].
    destruct Hx as [<- | []].
    apply ends_seq_none. intros y Hy.
    cbn [ends m_rest m_prev m_grp lit_ends L list_ascii_of_string] in Hy.
    unfold eq_char in Hy. cbn [ignorecase MULTILINE] in Hy.
    destruct (ascii_dec "#" c) as [<- | Hc]; [| contradiction].
    destruct Hy as [<- | []].
    destruct (ascii_dec "#" "#") as [_ | Hn]; [| congruence].
    cbn [andb] in H.
    unfold ws_plus, Plus. apply ends_seq_none. intros z Hz.
    rewrite ends_seq in Hz. cbn [ends m_rest m_prev m_grp] in Hz.
    destruct rest as [| d rest]; [contradiction |].
    cbn [cmatch] in Hz. rewrite H in Hz. contradiction. }
  unfold match_at. rewrite E. reflexivity.
Qed.

Lemma h1_search_skip (after : str) :
  forall pre prev,
    has_heading prev (pre ++ firstn 1 after) = false ->
    search_from MULTILINE h1_re prev (pre ++ after)
    = search_from MULTILINE h1_re (last_char prev pre) after.
Proof.
  induction pre as [| c pre IH]; intros prev H; [reflexivity |].
  cbn [app has_heading] in H. apply orb_false_iff in H. destruct H as [H1 H2].
  cbn [app search_from last_char].
  rewrite h1_nowhere.
  - apply IH, H2.
  - destruct pre as [| d pre]; [| exact H1].
    cbn [app] in H1 |- *. destruct after; exact H1.
Qed.

Lemma has_heading_snoc (x : ascii) :
  Str.is_space x = false ->
  forall pre prev, has_heading prev (pre ++ [x]) = has_heading prev pre.
Proof.
  intros Hx. induction pre as [| c pre IH]; intros prev.
  - cbn [app has_heading]. rewrite andb_false_r. reflexivity.
  - cbn [app has_heading]. rewrite IH. f_equal. f_equal.
    destruct pre; [cbn [app]; rewrite Hx |]; reflexivity.
Qed.

Lemma dot_line_feed (fl : flags) : dotall fl = false -> cmatch fl CDot nl = false.
Proof. intros H. cbn [cmatch]. rewrite H. reflexivity. Qed.

(** At a heading line the pattern captures the text of the heading. *)
Lemma h1_match_here (prev : option ascii) (gap text eol : str) :
  line_start prev = true ->
  gap <> [] -> forallb Str.is_space gap = true ->
  begins_unspaced text = true -> no_line_feed text = true ->
  line_end eol = true ->
  exists mo,
    match_at MULTILINE h1_re prev (L "#" ++ gap ++ text ++ eol) = Some mo
    /\ group1 mo = text.
Proof.
  intros Hstart Hgap Hws Htext Hnl Hend.
  destruct gap as [| g0 gap]; [congruence |].
  cbn [forallb] in Hws. apply andb_true_iff in Hws. destruct Hws as [Hg0 Hws].
  destruct text as [| c text]; [discriminate |].
  cbn [begins_unspaced] in Htext. apply negb_true_iff in Htext.
  unfold no_line_feed in Hnl. cbn [forallb] in Hnl.
  apply andb_true_iff in Hnl. destruct Hnl as [Hc Hnl].
  assert (Hdot : forallb (cmatch MULTILINE CDot) text = true).
  { rewrite forallb_forall in Hnl |- *. intros x Hx. specialize (Hnl x Hx).
    cbn [cmatch dotall MULTILINE]. exact Hnl. }
  assert (Heol : match eol with [] => True | d :: _ => cmatch MULTILINE CDot d = false end).
  { destruct eol as [| d eol]; [exact I |]. cbn [line_end] in Hend.
    cbn [cmatch dotall MULTILINE]. destruct (ascii_dec d nl); [reflexivity | discriminate]. }
  assert (H : hd_error (ends MULTILINE h1_re
                          (MState prev (L "#" ++ (g0 :: gap) ++ (c :: text) ++ eol) None))
              = Some (MState (last_char (Some c) text) eol (Some (c :: text)))).
  { unfold h1_re.
    apply ends_seq_first
      with (xs := []) (ys := [])
           (y := MState prev (L "#" ++ (g0 :: gap) ++ (c :: text) ++ eol) None).
    { cbn [ends]. rewrite at_bol_line_start, Hstart. reflexivity. }
    { intros x []. }
    apply ends_seq_first
      with (xs := []) (ys := [])
           (y := MState (Some "#"%char) ((g0 :: gap) ++ (c :: text) ++ eol) None).
    { apply (lit_ends_here MULTILINE (L "#") eq_refl). }
    { intros x []. }
    apply ends_seq_first
      with (xs := [])
           (y := MState (last_char (Some g0) gap) ((c :: text) ++ eol) None)
           (ys := rev (inner (Some g0) gap ((c :: text) ++ eol) None) ++ []).
    { unfold ws_plus, Plus. rewrite ends_seq.
      cbn [ends m_rest m_prev m_grp app].
      change (cmatch MULTILINE CSpace g0) with (Str.is_space g0).
      rewrite Hg0. cbn [flat_map m_prev m_rest m_grp].
      rewrite (star_greedy_app (cmatch MULTILINE CSpace) (c :: text ++ eol) None);
        [reflexivity | exact Htext | exact Hws]. }
    { intros x []. }
    apply ends_seq_first
      with (xs := [])
           (y := MState (last_char (Some c) text) eol
                        (Some (consumed ((c :: text) ++ eol) eol)))
           (ys := map (fun e => MState (m_prev e) (m_rest e)
                        (Some (consumed ((c :: text) ++ eol) (m_rest e))))
                      (rev (inner (Some c) text eol None) ++ [])).
    { unfold Plus. cbn [ends m_rest m_prev m_grp app].
      change (cmatch MULTILINE CDot c) with (if ascii_dec c nl then false else true).
      rewrite Hc. cbn [flat_map m_prev m_rest m_grp].
      rewrite (star_greedy_app (cmatch MULTILINE CDot) eol None Heol text (Some c) Hdot).
      reflexivity. }
    { intros x []. }
    cbn [ends]. rewrite at_eol_line_end, Hend, consumed_app. reflexivity. }
  unfold match_at.
  destruct (ends MULTILINE h1_re
              (MState prev (L "#" ++ (g0 :: gap) ++ (c :: text) ++ eol) None)) as [| e l];
    [discriminate |].
  simpl in H. injection H as ->. eexists. split; reflexivity.
Qed.

Lemma no_frontmatter (content : str) :
  Str.startswith (L "---") content = false ->
  re_match DOTALL frontmatter_re content = None.
Proof.
  intros H. unfold re_match, match_at.
  assert (E : ends DOTALL frontmatter_re (MState None content None) = []).
  { unfold frontmatter_re. apply ends_seq_none. intros x Hx.
    cbn [ends at_bol m_prev] in Hx. destruct Hx as [<- | []].
    apply ends_seq_none. intros y Hy. cbn [ends m_rest m_prev m_grp] in Hy.
    rewrite (lit_ends_nowhere DOTALL (L "---") eq_refl _ _ _ H) in Hy. contradiction. }
  rewrite E. reflexivity.
Qed.

(** X2. In a document that does not begin with three dashes, the title is
    the text of the first line that begins with [#] and whitespace,
    stripped: [pre] holds the lines before the heading, none of which
    begins with [#] and whitespace, [gap] is the whitespace after the [#]
    and [text] the rest of the line; the lines before the heading and the
    heading are made of ASCII characters. *)
Theorem heading_title (pre gap text eol : str)
        (Hascii : is_ascii (pre ++ text) = true)
        (Hplain : Str.startswith (L "---") (pre ++ L "#" ++ gap ++ text ++ eol) = false)
        (Hline : line_start (last_char None pre) = true)
        (Hfirst : has_heading None pre = false)
        (Hgap : gap <> [])
        (Hws : forallb Str.is_space gap = true)
        (Htext : begins_unspaced text = true)
        (Hnl : no_line_feed text = true)
        (Hend : line_end eol = true) :
  fst (parse_frontmatter (pre ++ L "#" ++ gap ++ text ++ eol)) = Str.strip text.
Proof.
  unfold parse_frontmatter. rewrite (no_frontmatter _ Hplain).
  destruct (h1_match_here (last_char None pre) gap text eol
              Hline Hgap Hws Htext Hnl Hend) as (mo & Hm & Hg).
  unfold re_search. rewrite h1_search_skip.
  - rewrite (search_from_here _ _ _ _ _ Hm). cbn [fst]. rewrite Hg. reflexivity.
  - cbn [app firstn L list_ascii_of_string]. rewrite has_heading_snoc; [exact Hfirst | reflexivity].
Qed.

(** The document of the widgets scenario. *)
Lemma heading_title_witness :
  fst (parse_frontmatter widgets_doc) = L "Introduction to Widgets".
Proof.
  apply (heading_title [] (L " ") (L "Introduction to Widgets")
           ([nl] ++ [nl]
            ++ L "This is a lab about widgets and Azure OpenAI integration."));
    try reflexivity.
  discriminate.
Defined.

Lemma h1_nowhere_at_end (prev : option ascii) :
  match_at MULTILINE h1_re prev [] = None.
Proof.
  assert (E : ends MULTILINE h1_re (MState prev [] None) = []).
  { unfold h1_re. apply ends_seq_none. intros x Hx. cbn [ends] in Hx.
    destruct (at_bol MULTILINE (MState prev [] None)); [| contradiction].
    destruct Hx as [<- | []]. apply ends_seq_none. intros y Hy.
    cbn [ends m_rest m_prev m_grp lit_ends L list_ascii_of_string] in Hy.
    contradiction. }
  unfold match_at. rewrite E. reflexivity.
Qed.

Lemma h1_search_none (content : str) :
  forall prev,
    has_heading prev content = false ->
    search_from MULTILINE h1_re prev content = None.
Proof.
  induction content as [| c content IH]; intros prev H.
  - cbn [search_from]. rewrite h1_nowhere_at_end. reflexivity.
  - cbn [has_heading] in H. apply orb_false_iff in H. destruct H as [H1 H2].
    cbn [search_from]. rewrite (h1_nowhere prev c content H1). apply IH, H2.
Qed.

(** X3. A document of ASCII characters that does not begin with three
    dashes and in which no line begins with [#] and whitespace has neither
    metadata block nor heading: title and description are empty, and the
    description of the record is the sentinel. *)
Theorem no_block_no_heading (content : str)
        (Hascii : is_ascii content = true)
        (Hplain : Str.startswith (L "---") content = false)
        (Hnone : has_heading None content = false) :
  parse_frontmatter content = ([], [])
  /\ full_description (fst (parse_frontmatter content))
                      (snd (parse_frontmatter content)) = NA.
Proof.
  assert (H : parse_frontmatter content = ([], [])).
  { unfold parse_frontmatter, re_search.
    rewrite (no_frontmatter _ Hplain), (h1_search_none content None Hnone).
    reflexivity. }
  rewrite H. split; reflexivity.
Qed.

(** A paragraph under a second-level heading. *)
Lemma no_block_no_heading_witness :
  parse_frontmatter (L "## Setup" ++ [nl] ++ L "Install the #1 tool.") = ([], [])
  /\ full_description
       (fst (parse_frontmatter (L "## Setup" ++ [nl] ++ L "Install the #1 tool.")))
       (snd (parse_frontmatter (L "## Setup" ++ [nl] ++ L "Install the #1 tool.")))
     = NA.
Proof.
  apply (no_block_no_heading (L "## Setup" ++ [nl] ++ L "Install the #1 tool."));
    reflexivity.
Defined.

(** ** The lookup on the lines [git] prints *)

Lemma digit_digit_char (n : nat) : digit (digit_char n) = Some (n mod 10).
Proof.
  unfold digit. rewrite is_digit_digit_char. unfold digit_char.
  assert (H : n mod 10 < 10) by (apply Nat.mod_upper_bound; lia).
  rewrite code_ascii_of_nat by lia. f_equal. lia.
Qed.

Lemma parse_Y_pad4 (y : nat) (r : str) :
  y < 100 * 100 -> parse_Y (pad4 y ++ r) = [(y, r)].
Proof.
  intros H. unfold pad4, parse_Y. cbn [app].
  rewrite !digit_digit_char. do 2 f_equal.
  f_equal.
  pose proof (Nat.div_mod_eq y 10).
  pose proof (Nat.div_mod_eq (y / 10) 10).
  pose proof (Nat.div_mod_eq (y / 100) 10).
  pose proof (Nat.div_mod_eq (y / 1000) 10).
  rewrite (Nat.Div0.div_div y 10 10) in *.
  rewrite (Nat.Div0.div_div y 100 10) in *.
  change (10 * 10) with 100 in *. change (100 * 10) with 1000 in *.
  assert (y / 1000 < 10) by (apply Nat.Div0.div_lt_upper_bound; lia).
  rewrite (Nat.mod_small (y / 1000) 10) by lia.
  lia.
Qed.

Lemma ymd_pad (y m d : nat) :
  y < 100 * 100 -> 1 <= m <= 12 -> 1 <= d <= 31 ->
  hd_error (ymd_matches (pad4 y ++ L "-" ++ pad2 m ++ L "-" ++ pad2 d))
  = Some (y, m, d, []).
Proof.
  intros Hy Hm Hd. unfold ymd_matches. rewrite (parse_Y_pad4 y _ Hy).
  cbn [flat_map]. rewrite app_nil_r.
  assert (Hm' : In m (seq 1 12)) by (apply in_seq; lia).
  assert (Hd' : In d (seq 1 31)) by (apply in_seq; lia).
  clear Hm Hd. cbn [seq In] in Hm', Hd'.
  repeat (destruct Hm' as [<- | Hm']); try contradiction;
    repeat (destruct Hd' as [<- | Hd']); try contradiction;
    vm_compute; reflexivity.
Qed.

Lemma days_in_month_le (y m : nat) : days_in_month y m <= 31.
Proof.
  unfold days_in_month.
  do 12 (destruct m as [| m]; [try destruct (is_leap y); lia |]). lia.
Qed.

(** Reading back a date that was written: [strptime] undoes [strftime]. *)
Lemma strptime_strftime (d : date) :
  valid_date d = true -> strptime (strftime d) = Returned d.
Proof.
  destruct d as [y m dd]. unfold valid_date. cbn [year month day]. intros H.
  repeat (apply andb_true_iff in H; destruct H as [H ?]).
  repeat match goal with
         | H : (_ <=? _) = true |- _ => apply Nat.leb_le in H
         end.
  pose proof (days_in_month_le y m) as Hle.
  assert (E : hd_error (ymd_matches (pad4 y ++ L "-" ++ pad2 m ++ L "-" ++ pad2 dd))
              = Some (y, m, dd, [])).
  { apply Nat.ltb_lt in H4. apply ymd_pad; lia. }
  unfold strptime, strftime. cbn [year month day].
  destruct (ymd_matches _) as [| [[[y' m'] d'] rest] more]; [discriminate |].
  cbn [hd_error] in E. injection E as -> -> -> ->.
  replace (1 <=? y) with true by (symmetry; apply Nat.leb_le; lia).
  replace (dd <=? days_in_month y m) with true by (symmetry; apply Nat.leb_le; lia).
  reflexivity.
Qed.

(** ** Whitespace and separators *)

Lemma lstrip_app_unspaced (c : ascii) (y : str) :
  Str.is_space c = false ->
  forall x, Str.lstrip (x ++ c :: y) = Str.lstrip x ++ c :: y.
Proof.
  intros Hc. induction x as [| a x IH]; cbn [app Str.lstrip].
  - rewrite Hc. reflexivity.
  - destruct (Str.is_space a); [exact IH | reflexivity].
Qed.

Lemma rstrip_app_unspaced (c : ascii) (a b : str) :
  Str.is_space c = false ->
  Str.rstrip (a ++ c :: b) = a ++ c :: Str.rstrip b.
Proof.
  intros Hc. unfold Str.rstrip.
  rewrite rev_app_distr. cbn [rev]. rewrite <- app_assoc. cbn [app].
  rewrite (lstrip_app_unspaced c _ Hc), rev_app_distr. cbn [rev].
  rewrite rev_involutive, <- app_assoc. reflexivity.
Qed.

Lemma rstrip_prefix (s : str) :
  exists ws, s = Str.rstrip s ++ ws /\ forallb Str.is_space ws = true.
Proof.
  unfold Str.rstrip. destruct (lstrip_infix (rev s)) as (a & E & Ha).
  exists (rev a). split.
  - rewrite <- rev_app_distr, <- E, rev_involutive. reflexivity.
  - rewrite forallb_forall in *. intros x Hx. apply Ha, in_rev, Hx.
Qed.

Lemma split_no_sep (sep : ascii) (s : str) :
  forallb (fun c => if ascii_dec c sep then false else true) s = true ->
  Str.split sep s = [s].
Proof.
  induction s as [| c s IH]; cbn [forallb Str.split]; [reflexivity |].
  destruct (ascii_dec c sep); [discriminate |]. intros H. rewrite (IH H). reflexivity.
Qed.

Lemma split_app (sep : ascii) (b : str) :
  forall a,
    forallb (fun c => if ascii_dec c sep then false else true) a = true ->
    Str.split sep (a ++ sep :: b) = a :: Str.split sep b.
Proof.
  induction a as [| c a IH]; cbn [forallb app Str.split].
  - destruct (ascii_dec sep sep); [reflexivity | contradiction].
  - destruct (ascii_dec c sep); [discriminate |]. intros H. rewrite (IH H). reflexivity.
Qed.

Lemma split_ws_aux_app (sp : ascii) (r : str) :
  Str.is_space sp = true ->
  forall a cur,
    forallb (fun c => negb (Str.is_space c)) a = true ->
    Str.split_ws_aux cur (a ++ sp :: r)
    = match rev cur ++ a with
      | [] => Str.split_ws_aux [] r
      | w => w :: Str.split_ws_aux [] r
      end.
Proof.
  intros Hsp. induction a as [| c a IH]; intros cur; cbn [forallb app Str.split_ws_aux].
  - intros _. rewrite Hsp, app_nil_r. destruct cur as [| x cur]; [reflexivity |].
    cbn [rev]. destruct (rev cur); reflexivity.
  - intros H. apply andb_true_iff in H. destruct H as [Hc Ha].
    apply negb_true_iff in Hc. rewrite Hc, (IH (c :: cur) Ha).
    cbn [rev]. rewrite <- app_assoc. reflexivity.
Qed.

Lemma split_ws_first (a r : str) (sp : ascii) :
  a <> [] -> forallb (fun c => negb (Str.is_space c)) a = true ->
  Str.is_space sp = true ->
  Str.split_ws (a ++ sp :: r) = a :: Str.split_ws r.
Proof.
  intros Hne Ha Hsp. unfold Str.split_ws.
  rewrite (split_ws_aux_app sp r Hsp a [] Ha). cbn [rev app].
  destruct a; [contradiction | reflexivity].
Qed.

Lemma is_space_digit_char (n : nat) : Str.is_space (digit_char n) = false.
Proof.
  unfold digit_char, Str.is_space.
  assert (H : n mod 10 < 10) by (apply Nat.mod_upper_bound; lia).
  rewrite code_ascii_of_nat by lia.
  apply orb_false_iff; split; apply andb_false_iff.
  - right. apply Nat.leb_gt. lia.
  - right. apply Nat.leb_gt. lia.
Qed.

Lemma bar_digit_char (n : nat) : digit_char n <> "|"%char.
Proof.
  intros E. assert (H := is_digit_digit_char n). rewrite E in H. discriminate.
Qed.

Lemma strftime_unspaced (d : date) :
  forallb (fun c => negb (Str.is_space c)) (strftime d) = true.
Proof.
  cbv [strftime pad4 pad2 app L list_ascii_of_string forallb].
  rewrite !is_space_digit_char. reflexivity.
Qed.

Lemma strftime_no_bar (d : date) : no_bar (strftime d) = true.
Proof.
  cbv [strftime pad4 pad2 app L list_ascii_of_string no_bar forallb].
  repeat match goal with
         | |- context [ascii_dec (digit_char ?n) "|"] =>
             destruct (ascii_dec (digit_char n) "|") as [E | _];
             [exfalso; exact (bar_digit_char _ E) |]
         end.
  reflexivity.
Qed.

(** The block that reads the answer of a query, on a line as [git] prints
    it. *)
Lemma read_result_line (d : date) (time tail : str) :
  valid_date d = true -> no_bar time = true -> no_bar tail = true ->
  read_result (Completed 0 (git_line d time tail))
  = ([], Returned (Some (strftime d, Str.rstrip tail))).
Proof.
  intros Hd Htime Htail.
  assert (Hstrip : Str.strip (git_line d time tail)
                   = (strftime d ++ L " " ++ time) ++ "|"%char :: Str.rstrip tail).
  { unfold Str.strip, git_line.
    replace (Str.lstrip (strftime d ++ L " " ++ time ++ L "|" ++ tail))
      with ((strftime d ++ L " " ++ time) ++ "|"%char :: tail).
    - apply rstrip_app_unspaced. reflexivity.
    - rewrite <- !app_assoc. unfold strftime, pad4. cbn [app Str.lstrip].
      rewrite is_space_digit_char. reflexivity. }
  assert (Hbar : no_bar (strftime d ++ L " " ++ time) = true).
  { pose proof (strftime_no_bar d) as Hs. unfold no_bar in *.
    rewrite !forallb_app, Hs, Htime. reflexivity. }
  assert (Htail' : no_bar (Str.rstrip tail) = true).
  { destruct (rstrip_prefix tail) as (ws & E & _). unfold no_bar in *.
    rewrite E, forallb_app in Htail. apply andb_true_iff in Htail. tauto. }
  unfold read_result. cbn [returncode stdout]. rewrite Hstrip.
  replace (nonempty ((strftime d ++ L " " ++ time) ++ "|"%char :: Str.rstrip tail))
    with true by (unfold strftime, pad4; reflexivity).
  cbn [Z.eqb andb].
  rewrite (split_app "|" _ _ Hbar), (split_no_sep "|" _ Htail').
  cbn [L list_ascii_of_string app].
  rewrite (split_ws_first (strftime d) time " ");
    [| unfold strftime, pad4; discriminate | apply strftime_unspaced | reflexivity].
  cbn [index0 lift bind ret app]. rewrite (strptime_strftime d Hd). reflexivity.
Qed.

(** X4. When [git] answers a query of the lookup with a line of the form
    [date time|author] whose date is a calendar date with a four-digit year,
    the lookup returns that date as it stands and the author without
    trailing whitespace: after one command when the answer is to the query
    restricted to merges, after two when that query was of no use and the
    answer is to the unrestricted one. *)
Theorem lookup_of_git_line
        (w : world) (file_path repo_root rel_path : str)
        (d : date) (time tail : str)
        (Hrel : relpath w file_path repo_root = Returned rel_path)
        (Hd : valid_date d = true)
        (Htime : no_bar time = true)
        (Htail : no_bar tail = true) :
  let line := Completed 0 (git_line d time tail) in
  (subprocess_run w (git_log_merges rel_path) repo_root = Returned line ->
   get_git_info w file_path repo_root
   = ([Ran (git_log_merges rel_path) repo_root],
      Returned (strftime d, Str.rstrip tail)))
  /\ (forall r1,
        subprocess_run w (git_log_merges rel_path) repo_root = Returned r1 ->
        unusable r1 ->
        subprocess_run w (git_log rel_path) repo_root = Returned line ->
        get_git_info w file_path repo_root
        = ([Ran (git_log_merges rel_path) repo_root; Ran (git_log rel_path) repo_root],
           Returned (strftime d, Str.rstrip tail))).
Proof.
  intros line. pose proof (read_result_line d time tail Hd Htime Htail) as Hline.
  split.
  - intros H1. rewrite (git_first_read _ _ _ _ _ _ Hrel H1 Hline). reflexivity.
  - intros r1 H1 U H2.
    rewrite (git_first_read _ _ _ _ _ _ Hrel H1 (read_result_unusable _ U)), H2.
    subst line. rewrite Hline. reflexivity.
Qed.

(** A file that was never merged, last changed by a direct commit. *)
Lemma lookup_of_git_line_witness :
  get_git_info never_merged (L "Instructions/lab.md") (L "/repo")
  = ([Ran (git_log_merges (L "Instructions/lab.md")) (L "/repo");
      Ran (git_log (L "Instructions/lab.md")) (L "/repo")],
     Returned (L "2024-03-09", L "Jane Doe")).
Proof.
  apply (proj2 (lookup_of_git_line never_merged (L "Instructions/lab.md") (L "/repo")
                  (L "Instructions/lab.md") (Date 2024 3 9) (L "10:11:12 +0100")
                  (L "Jane Doe" ++ [nl]) eq_refl eq_refl eq_refl eq_refl)
               (Completed 0 [])).
  - reflexivity.
  - right. left. reflexivity.
  - reflexivity.
Defined.

(** X5. Whatever the machine answers, the lookup runs two commands at
    most, each one of the two [git log -1] queries on the path of the file
    relative to the repository root and each in the repository root; apart
    from them it prints one warning at most, after the commands, and a
    lookup that warns returns the sentinel pair. *)
Theorem lookup_runs_two_commands_at_most (w : world) (file_path repo_root : str) :
  exists cmds warnings,
    fst (get_git_info w file_path repo_root)
    = map (fun cmd => Ran cmd repo_root) cmds ++ warnings
    /\ length cmds <= 2
    /\ (forall cmd, In cmd cmds ->
          exists rel_path,
            relpath w file_path repo_root = Returned rel_path
            /\ (cmd = git_log_merges rel_path \/ cmd = git_log rel_path))
    /\ (warnings = []
        \/ exists e, warnings = [warning file_path e]
                     /\ snd (get_git_info w file_path repo_root) = Returned (NA, NA)).
Proof.
  destruct (relpath w file_path repo_root) as [rel | e] eqn:Hrel.
  2:{ exists [], [warning file_path e]. rewrite (git_relpath_raises _ _ _ _ Hrel).
      repeat split; [simpl; lia | intros cmd [] | right; eauto]. }
  assert (Hin1 : forall cmd, In cmd [git_log_merges rel] ->
                   exists rel_path, Returned rel = Returned rel_path
                     /\ (cmd = git_log_merges rel_path \/ cmd = git_log rel_path)).
  { intros cmd [<- | []]. eauto. }
  assert (Hin2 : forall cmd, In cmd [git_log_merges rel; git_log rel] ->
                   exists rel_path, Returned rel = Returned rel_path
                     /\ (cmd = git_log_merges rel_path \/ cmd = git_log rel_path)).
  { intros cmd [<- | [<- | []]]; eauto. }
  destruct (subprocess_run w (git_log_merges rel) repo_root) as [r1 | e] eqn:H1.
  2:{ exists [git_log_merges rel], [warning file_path e].
      rewrite (git_first_raises _ _ _ _ _ Hrel H1).
      repeat split; [simpl; lia | exact Hin1 | right; eauto]. }
  destruct (read_result_cases r1)
    as [[U E] | [(ds & a & d & _ & _ & E) | (ds & a & e & _ & _ & E)]];
    rewrite (git_first_read _ _ _ _ _ _ Hrel H1 E).
  - destruct (subprocess_run w (git_log rel) repo_root) as [r2 | e] eqn:H2.
    2:{ exists [git_log_merges rel; git_log rel], [warning file_path e].
        repeat split; [simpl; lia | exact Hin2 | right; eauto]. }
    destruct (read_result_cases r2)
      as [[U2 E2] | [(ds & a & d & _ & _ & E2) | (ds & a & e & _ & _ & E2)]];
      rewrite E2; cbn [snd].
    + exists [git_log_merges rel; git_log rel], [].
      repeat split; [simpl; lia | exact Hin2 | left; reflexivity].
    + exists [git_log_merges rel; git_log rel], [].
      repeat split; [simpl; lia | exact Hin2 | left; reflexivity].
    + exists [git_log_merges rel; git_log rel], [warning file_path e].
      repeat split; [simpl; lia | exact Hin2 | right; eauto].
  - exists [git_log_merges rel], [].
    repeat split; [simpl; lia | exact Hin1 | left; reflexivity].
  - exists [git_log_merges rel], [warning file_path e].
    repeat split; [simpl; lia | exact Hin1 | right; eauto].
Qed.

(** ** The output file read back *)

Lemma unplain_app (rest : str) :
  after_field rest = true ->
  forall f, existsb special f = false -> unplain (f ++ rest) = (f, rest).
Proof.
  intros Hr. induction f as [| c f IH]; cbn [existsb app].
  - intros _. destruct rest as [| c r]; [reflexivity |].
    cbn [after_field] in Hr. apply andb_true_iff in Hr. destruct Hr as [Hc _].
    cbn [unplain]. rewrite Hc. reflexivity.
  - intros H. apply orb_false_iff in H. destruct H as [Hc Hf].
    cbn [unplain]. rewrite Hc, (IH Hf). reflexivity.
Qed.

Lemma unquote_app (rest : str) :
  after_field rest = true ->
  forall f,
    unquote (flat_map (fun c => if ascii_dec c dquote then [dquote; dquote] else [c]) f
               ++ dquote :: rest)
    = Some (f, rest).
Proof.
  intros Hr. induction f as [| c f IH]; cbn [flat_map app].
  - cbn [unquote]. destruct (ascii_dec dquote dquote) as [_ | N]; [| contradiction].
    destruct rest as [| c r]; [reflexivity |].
    cbn [after_field] in Hr. apply andb_true_iff in Hr. destruct Hr as [_ Hc].
    destruct (ascii_dec c dquote); [discriminate | reflexivity].
  - destruct (ascii_dec c dquote) as [-> | N]; cbn [app unquote].
    + destruct (ascii_dec dquote dquote) as [_ | N]; [| contradiction].
      rewrite IH. reflexivity.
    + destruct (ascii_dec c dquote); [contradiction |]. rewrite IH. reflexivity.
Qed.

(** A field that was written is read back as it was. *)
Lemma read_field_csv_field (f rest : str) :
  after_field rest = true ->
  read_field (csv_field f ++ rest) = Some (f, rest).
Proof.
  intros Hr. unfold csv_field. destruct (existsb special f) eqn:E.
  - rewrite <- !app_assoc. cbn [app read_field].
    destruct (ascii_dec dquote dquote) as [_ | N]; [| contradiction].
    apply unquote_app, Hr.
  - destruct f as [| c f].
    + cbn [app]. destruct rest as [| c r]; [reflexivity |].
      cbn [read_field]. pose proof Hr as Hr'. cbn [after_field] in Hr'.
      apply andb_true_iff in Hr'. destruct Hr' as [Hs Hc].
      destruct (ascii_dec c dquote); [discriminate |].
      cbn [unplain]. rewrite Hs. reflexivity.
    + cbn [app read_field].
      assert (Hc : special c = false).
      { cbn [existsb] in E. apply orb_false_iff in E. tauto. }
      destruct (ascii_dec c dquote) as [-> | _]; [discriminate |].
      change (c :: f ++ rest) with ((c :: f) ++ rest).
      rewrite (unplain_app rest Hr (c :: f) E). reflexivity.
Qed.

Lemma csv_field_inj (f1 f2 r1 r2 : str) :
  after_field r1 = true -> after_field r2 = true ->
  csv_field f1 ++ r1 = csv_field f2 ++ r2 -> f1 = f2 /\ r1 = r2.
Proof.
  intros H1 H2 E.
  pose proof (read_field_csv_field f1 r1 H1) as E1.
  rewrite E, (read_field_csv_field f2 r2 H2) in E1.
  injection E1 as -> ->. auto.
Qed.

Lemma fields_inj :
  forall fs1 fs2 r1 r2,
    fs1 <> [] -> fs2 <> [] ->
    Str.join (L ",") (map csv_field fs1) ++ crlf ++ r1
    = Str.join (L ",") (map csv_field fs2) ++ crlf ++ r2 ->
    fs1 = fs2 /\ r1 = r2.
Proof.
  induction fs1 as [| f1 fs1 IH]; intros fs2 r1 r2 N1 N2; [contradiction |].
  destruct fs2 as [| f2 fs2]; [contradiction |].
  destruct fs1 as [| g1 m1]; destruct fs2 as [| g2 m2];
    cbn [map Str.join]; rewrite <- ?app_assoc; intros E;
    apply csv_field_inj in E; try reflexivity.
  - destruct E as [-> E]. injection E as ->. auto.
  - destruct E as [_ E]. discriminate.
  - destruct E as [_ E]. discriminate.
  - destruct E as [-> E]. injection E as E.
    change (Str.join (L ",") (map csv_field (g1 :: m1)) ++ crlf ++ r1
            = Str.join (L ",") (map csv_field (g2 :: m2)) ++ crlf ++ r2) in E.
    apply IH in E; try discriminate. destruct E as [-> ->]. auto.
Qed.

Lemma csv_row_cases (fs : list str) :
  (fs = [] /\ csv_row fs = crlf)
  \/ (fs = [[]] /\ csv_row fs = [dquote; dquote] ++ crlf)
  \/ (fs <> [] /\ fs <> [[]]
      /\ csv_row fs = Str.join (L ",") (map csv_field fs) ++ crlf).
Proof.
  destruct fs as [| [| c f] [| g m]]; auto;
    right; right; repeat split; try discriminate.
Qed.

(** A row determines its fields: the pair of quotes written for a single
    empty field keeps that row apart from the row without fields. *)
Lemma csv_row_inj (fs1 fs2 : list str) (r1 r2 : str) :
  csv_row fs1 ++ r1 = csv_row fs2 ++ r2 -> fs1 = fs2 /\ r1 = r2.
Proof.
  assert (Hquotes : forall fs r r', fs <> [] -> fs <> [[]] ->
            ([dquote; dquote] ++ crlf) ++ r
            <> (Str.join (L ",") (map csv_field fs) ++ crlf) ++ r').
  { intros fs r r' N N' E. destruct fs as [| f fs]; [contradiction |].
    assert (E' : exists rest, after_field rest = true
                   /\ [dquote; dquote] ++ crlf ++ r = csv_field f ++ rest).
    { destruct fs as [| g m]; cbn [map Str.join] in E; rewrite <- ?app_assoc in E;
        eexists; (split; [| exact E]); reflexivity. }
    destruct E' as (rest & Hrest & E').
    assert (R : read_field ([dquote; dquote] ++ crlf ++ r) = Some ([], crlf ++ r))
      by reflexivity.
    rewrite E', (read_field_csv_field f rest Hrest) in R. injection R as -> ->.
    destruct fs as [| g m]; [contradiction |].
    cbn [map Str.join] in E. discriminate. }
  assert (Hnone : forall fs r r', fs <> [] -> fs <> [[]] ->
            crlf ++ r <> (Str.join (L ",") (map csv_field fs) ++ crlf) ++ r').
  { intros fs r r' N N' E. rewrite <- app_assoc in E.
    change (crlf ++ r)
      with (Str.join (L ",") (map csv_field [[]]) ++ crlf ++ r) in E.
    apply fields_inj in E; try discriminate; trivial.
    destruct E as [E _]. congruence. }
  destruct (csv_row_cases fs1) as [[-> ->] | [[-> ->] | (N1 & N1' & ->)]];
    destruct (csv_row_cases fs2) as [[-> ->] | [[-> ->] | (N2 & N2' & ->)]];
    intros E.
  - apply app_inv_head in E. auto.
  - discriminate.
  - exfalso. exact (Hnone _ _ _ N2 N2' E).
  - discriminate.
  - apply app_inv_head in E. auto.
  - exfalso. exact (Hquotes _ _ _ N2 N2' E).
  - exfalso. symmetry in E. exact (Hnone _ _ _ N1 N1' E).
  - exfalso. symmetry in E. exact (Hquotes _ _ _ N1 N1' E).
  - rewrite <- !app_assoc in E. apply fields_inj in E; assumption.
Qed.

Lemma lab_fields_inj (a b : lab) : lab_fields a = lab_fields b -> a = b.
Proof. destruct a, b. unfold lab_fields. simpl. intros E. injection E. congruence. Qed.

Lemma csv_rows_inj :
  forall labs1 labs2,
    flat_map (fun r => csv_row (lab_fields r)) labs1
    = flat_map (fun r => csv_row (lab_fields r)) labs2 ->
    labs1 = labs2.
Proof.
  assert (Hne : forall r rest, [] <> csv_row (lab_fields r) ++ rest).
  { intros r rest E. symmetry in E. apply app_eq_nil in E. destruct E as [E _].
    destruct (csv_row_cases (lab_fields r)) as [[_ H] | [[_ H] | (_ & _ & H)]];
      rewrite H in E; try discriminate.
    apply app_eq_nil in E. destruct E as [_ E]. discriminate. }
  induction labs1 as [| a labs1 IH]; intros [| b labs2]; cbn [flat_map]; intros E.
  - reflexivity.
  - exfalso. exact (Hne _ _ E).
  - exfalso. symmetry in E. exact (Hne _ _ E).
  - apply csv_row_inj in E. destruct E as [E1 E2].
    apply lab_fields_inj in E1. apply IH in E2. congruence.
Qed.

(** X6. The text of the output file determines the records: two lists of
    records that differ are written as two texts that differ, whatever
    commas, quotes and line ends their fields hold. *)
Theorem csv_text_tells_records_apart (labs1 labs2 : list lab)
        (Hdiff : labs1 <> labs2) :
  csv_text labs1 <> csv_text labs2.
Proof.
  intros E. apply Hdiff. unfold csv_text in E.
  apply app_inv_head in E. apply csv_rows_inj, E.
Qed.

(** A comma in a description is not taken for the end of the field. *)
Lemma csv_text_tells_records_apart_witness :
  csv_text [comma_lab_1] <> csv_text [comma_lab_2].
Proof.
  apply (csv_text_tells_records_apart [comma_lab_1] [comma_lab_2]). discriminate.
Defined.

(** ** What the rows hold *)

Lemma tech_patterns_in_vocabulary : forallb in_vocabulary tech_patterns = true.
Proof. vm_compute. reflexivity. Qed.

Lemma label_in_vocabulary (pattern : regex) (content l : str) :
  In pattern tech_patterns -> label_of pattern content = Some l ->
  In (norm l) vocabulary.
Proof.
  intros Hp Hl. pose proof tech_patterns_in_vocabulary as H.
  rewrite forallb_forall in H. specialize (H pattern Hp). unfold in_vocabulary in H.
  destruct (norms pattern) as [ns |] eqn:En; [| discriminate].
  pose proof (label_of_norms pattern content l ns En Hl) as Hin.
  rewrite forallb_forall in H. specialize (H _ Hin).
  apply existsb_exists in H. destruct H as (v & Hv & E).
  destruct (str_eq_dec (norm l) v); [subst; exact Hv | discriminate].
Qed.

Lemma first_labels_vocabulary (content : str) :
  Forall (fun l => In (norm l) vocabulary) (first_labels tech_patterns content).
Proof.
  apply Forall_forall. intros l Hl. apply in_first_labels in Hl.
  destruct Hl as (p & Hp & Hl). exact (label_in_vocabulary p content l Hp Hl).
Qed.

Lemma in_norm (c : ascii) (s : str) :
  Str.is_space c = false -> In c s -> In (Str.lower_char c) (norm s).
Proof.
  intros Hc H. unfold norm, Str.lower. apply in_map, filter_In. split; [exact H |].
  rewrite Hc. reflexivity.
Qed.

Lemma vocabulary_no_comma (l : str) : In (norm l) vocabulary -> no_comma l = true.
Proof.
  intros H. unfold no_comma. apply forallb_forall. intros c Hc.
  destruct (ascii_dec c ",") as [-> | _]; [| reflexivity].
  apply (in_norm "," l eq_refl) in Hc. change (Str.lower_char ",") with ","%char in Hc.
  assert (V : forallb no_comma vocabulary = true) by (vm_compute; reflexivity).
  rewrite forallb_forall in V. specialize (V _ H). unfold no_comma in V.
  rewrite forallb_forall in V. specialize (V _ Hc). discriminate.
Qed.

Lemma vocabulary_nonempty (l : str) : In (norm l) vocabulary -> l <> [].
Proof.
  intros H ->. revert H. vm_compute. intuition discriminate.
Qed.

Lemma join_nonempty (sep l : str) (ls : list str) :
  l <> [] -> Str.join sep (l :: ls) <> [].
Proof.
  intros Hl. destruct l as [| c l]; [contradiction |].
  destruct ls; cbn [Str.join app]; discriminate.
Qed.

(** X7. On documents of ASCII characters the labels form a closed set:
    the technologies of such a document are the sentinel, or the labels of a list that is not empty, joined by a
    comma and a space, where every label is, in lower case and without its
    whitespace, one of the twenty-six spellings of [vocabulary], is not
    empty and holds no comma (so the field can be split at its commas). *)
Theorem labels_from_vocabulary
        (iter : list str -> list str) (Hiter : forall l, Permutation (iter l) l)
        (content : str) (Hascii : is_ascii content = true) :
  extract_technologies iter content = NA
  \/ exists labels,
       labels <> []
       /\ extract_technologies iter content = Str.join (L ", ") labels
       /\ Forall (fun l => In (norm l) vocabulary /\ l <> [] /\ no_comma l = true)
                 labels.
Proof.
  rewrite (extract_technologies_labels iter content Hiter).
  destruct (first_labels tech_patterns content) as [| l0 ls] eqn:E; [left; reflexivity |].
  right. rewrite <- E. exists (sorted lower_lt (first_labels tech_patterns content)).
  assert (P := sorted_perm _ lower_lt (first_labels tech_patterns content)).
  split; [| split; [reflexivity |]].
  - intros N. rewrite N in P. apply Permutation_nil in P. congruence.
  - apply Forall_forall. intros l Hl. apply (Permutation_in _ P) in Hl.
    pose proof (first_labels_vocabulary content) as V.
    rewrite Forall_forall in V. specialize (V l Hl).
    auto using vocabulary_nonempty, vocabulary_no_comma.
Qed.

(** A document that names two technologies. *)
Lemma labels_from_vocabulary_witness :
  extract_technologies (fun l => l) (L "Use RAG with Azure OpenAI.") = NA
  \/ exists labels,
       labels <> []
       /\ extract_technologies (fun l => l) (L "Use RAG with Azure OpenAI.")
          = Str.join (L ", ") labels
       /\ Forall (fun l => In (norm l) vocabulary /\ l <> [] /\ no_comma l = true)
                 labels.
Proof.
  apply (labels_from_vocabulary (fun l => l) (fun l => Permutation_refl l)
           (L "Use RAG with Azure OpenAI.")).
  reflexivity.
Defined.

Lemma full_description_nonempty (title description : str) :
  full_description title description <> [].
Proof.
  unfold full_description.
  destruct title as [| a t]; destruct description as [| b d]; cbn; discriminate.
Qed.

Lemma extract_technologies_nonempty (iter : list str -> list str) (content : str) :
  (forall l, Permutation (iter l) l) ->
  extract_technologies iter content <> [].
Proof.
  intros Hiter. rewrite (extract_technologies_labels iter content Hiter).
  destruct (first_labels tech_patterns content) as [| l0 ls] eqn:E; [discriminate |].
  rewrite <- E.
  assert (P := sorted_perm _ lower_lt (first_labels tech_patterns content)).
  destruct (sorted lower_lt (first_labels tech_patterns content)) as [| s ss] eqn:Es.
  - apply Permutation_nil in P. congruence.
  - apply join_nonempty. apply vocabulary_nonempty.
    pose proof (first_labels_vocabulary content) as V. rewrite Forall_forall in V.
    apply V, (Permutation_in _ P). left. reflexivity.
Qed.

Lemma lab_of_filled (w : world) (iter : list str -> list str)
      (repo_root : str) (ip md_file : Path) (content : str) :
  (forall l, Permutation (iter l) l) ->
  filled (lab_of w iter repo_root ip md_file content).
Proof.
  intros Hiter. unfold lab_of, filled.
  destruct (parse_frontmatter content) as [t d0].
  cbn [description technologies last_merge_date last_merge_author].
  split; [apply full_description_nonempty |].
  split; [apply extract_technologies_nonempty, Hiter |].
  destruct (git_failed_or_answered w (path_str md_file) repo_root)
    as [F | (date & author & A & E)].
  - left. rewrite (git_failed_sentinel _ _ _ F). auto.
  - right. rewrite E. cbn [fst].
    destruct A as (rel & cmd & result & ds & d & _ & _ & _ & _ & _ & ->).
    apply strftime_iso.
Qed.

(** X8. The rows of the catalog are filled in: every record of a run has a
    description and a list of technologies that are not empty (one of them
    the sentinel when nothing was found), and its date is a date of the form
    [YYYY-MM-DD] or is the sentinel, together with the author. *)
Theorem rows_are_filled
        (w : world) (iter : list str -> list str)
        (Hiter : forall l, Permutation (iter l) l)
        (repo_root instructions_dir : str) :
  exists labs,
    snd (process_lab_files w iter repo_root instructions_dir) = Returned labs
    /\ Forall filled labs.
Proof.
  destruct (process_lab_files_rows w iter repo_root instructions_dir) as [H _].
  eexists. split; [exact H |].
  unfold rows_of. apply Forall_flat_map, Forall_forall. intros p _.
  destruct (read_text w (path_str p)) as [content | e]; [| constructor].
  constructor; [| constructor]. apply lab_of_filled, Hiter.
Qed.

(** The run on the two files of [first_run]. *)
Lemma rows_are_filled_witness :
  exists labs,
    snd (process_lab_files first_run (fun l => l) (L "/repo") (L "/repo/Instructions"))
    = Returned labs
    /\ Forall filled labs.
Proof.
  apply (rows_are_filled first_run (fun l => l) (fun l => Permutation_refl l)
           (L "/repo") (L "/repo/Instructions")).
Defined.

(** ** Titles and descriptions *)

Lemma match_at_group (fl : flags) (r : regex) (prev : option ascii) (rest : str)
      (mo : match_obj) :
  match_at fl r prev rest = Some mo ->
  exists e, In e (ends fl r (MState prev rest None))
            /\ group1 mo = match m_grp e with Some g => g | None => [] end.
Proof.
  unfold match_at. destruct (ends fl r (MState prev rest None)) as [| e l]; [discriminate |].
  intros H. injection H as <-. exists e. split; [left |]; reflexivity.
Qed.

Lemma in_ends_seq (fl : flags) (a b : regex) (st e : mstate) :
  In e (ends fl (a ;; b) st) ->
  exists mid, In mid (ends fl a st) /\ In e (ends fl b mid).
Proof. cbn [ends]. intros H. apply in_flat_map in H. exact H. Qed.

Lemma dot_no_line_feed (fl : flags) (m : str) :
  dotall fl = false -> forallb (cmatch fl CDot) m = true -> no_line_feed m = true.
Proof.
  intros Hfl H. unfold no_line_feed. rewrite forallb_forall in H |- *.
  intros x Hx. specialize (H x Hx). cbn [cmatch] in H. rewrite Hfl in H. exact H.
Qed.

(** The group [(.+)] or [(.+?)] of a pattern used without [DOTALL] holds
    no line feed. *)
Lemma plus_dot_group (fl : flags) (greedy : bool) (st e : mstate) :
  dotall fl = false ->
  In e (ends fl (Group (Plus greedy CDot)) st) ->
  exists t, m_grp e = Some t /\ no_line_feed t = true.
Proof.
  intros Hfl H. cbn [ends] in H. apply in_map_iff in H. destruct H as (e' & <- & H).
  apply in_flat_map in H. destruct H as (mid & Hmid & H).
  destruct (m_rest st) as [| c tl] eqn:Est; [contradiction |].
  destruct (cmatch fl CDot c) eqn:Ec; [| contradiction].
  destruct Hmid as [<- | []]. cbn [m_prev m_rest m_grp] in H.
  destruct (star_ends_between _ _ _ _ _ _ H) as (m & -> & Hm & _).
  exists (c :: m). cbn [m_grp]. split.
  - f_equal. exact (consumed_app (c :: m) (m_rest e')).
  - apply (dot_no_line_feed fl (c :: m) Hfl). cbn [forallb]. rewrite Ec. exact Hm.
Qed.

Lemma group_then (fl : flags) (greedy : bool) (post : regex) (st e : mstate) :
  dotall fl = false ->
  (forall x y, In y (ends fl post x) -> m_grp y = m_grp x) ->
  In e (ends fl (Group (Plus greedy CDot) ;; post) st) ->
  exists t, m_grp e = Some t /\ no_line_feed t = true.
Proof.
  intros Hfl Hpost H. apply in_ends_seq in H. destruct H as (mid & H1 & H2).
  destruct (plus_dot_group fl greedy st mid Hfl H1) as (t & Ht & Hnl).
  exists t. rewrite (Hpost _ _ H2). auto.
Qed.

Lemma cls_keeps_group (fl : flags) (k : cclass) (x y : mstate) :
  In y (ends fl (Cls k) x) -> m_grp y = m_grp x.
Proof.
  cbn [ends]. destruct (m_rest x) as [| c tl]; [intros [] |].
  destruct (cmatch fl k c); [| intros []]. intros [<- | []]. reflexivity.
Qed.

Lemma eol_keeps_group (fl : flags) (x y : mstate) :
  In y (ends fl Eol x) -> m_grp y = m_grp x.
Proof. cbn [ends]. destruct (at_eol fl x); [| intros []]. intros [<- | []]. reflexivity. Qed.

Lemma search_is_match (fl : flags) (r : regex) (s : str) (mo : match_obj) :
  re_search fl r s = Some mo ->
  exists prev rest, match_at fl r prev rest = Some mo.
Proof.
  intros H. destruct (search_from_first fl r s [] mo H) as (skip & rest' & _ & Hm & _).
  eauto.
Qed.

(** The value of a field is on one line. *)
Lemma field_group_line (key s : str) (mo : match_obj) :
  re_search NOFLAG (field_re key) s = Some mo -> no_line_feed (group1 mo) = true.
Proof.
  intros H. destruct (search_is_match _ _ _ _ H) as (prev & rest & Hm).
  destruct (match_at_group _ _ _ _ _ Hm) as (e & He & ->).
  unfold field_re in He.
  apply in_ends_seq in He. destruct He as (e1 & _ & He).
  apply in_ends_seq in He. destruct He as (e2 & _ & He).
  apply in_ends_seq in He. destruct He as (e3 & _ & He).
  destruct (group_then NOFLAG false (Cls quote_set) e3 e eq_refl
              (cls_keeps_group NOFLAG quote_set) He) as (t & -> & Ht).
  exact Ht.
Qed.

(** The text of a heading is on one line. *)
Lemma h1_group_line (s : str) (mo : match_obj) :
  re_search MULTILINE h1_re s = Some mo -> no_line_feed (group1 mo) = true.
Proof.
  intros H. destruct (search_is_match _ _ _ _ H) as (prev & rest & Hm).
  destruct (match_at_group _ _ _ _ _ Hm) as (e & He & ->).
  unfold h1_re in He.
  apply in_ends_seq in He. destruct He as (e1 & _ & He).
  apply in_ends_seq in He. destruct He as (e2 & _ & He).
  apply in_ends_seq in He. destruct He as (e3 & _ & He).
  destruct (group_then MULTILINE true Eol e3 e eq_refl
              (eol_keeps_group MULTILINE) He) as (t & -> & Ht).
  exact Ht.
Qed.

Lemma split_lines (sep : ascii) (s : str) :
  Forall (fun line => forallb (fun c => if ascii_dec c sep then false else true) line = true)
         (Str.split sep s).
Proof.
  induction s as [| c s IH]; cbn [Str.split].
  - repeat constructor.
  - destruct (ascii_dec c sep) as [E | N].
    + constructor; [reflexivity | exact IH].
    + destruct (Str.split sep s) as [| w ws].
      * constructor; [| constructor].
        cbn [forallb]. destruct (ascii_dec c sep); [contradiction | reflexivity].
      * inversion IH; subst. constructor; [| assumption].
        cbn [forallb]. destruct (ascii_dec c sep); [contradiction | assumption].
Qed.

Lemma strip_no_line_feed (s : str) :
  no_line_feed s = true -> no_line_feed (Str.strip s) = true.
Proof.
  destruct (strip_infix s) as (a & b & E & _). unfold no_line_feed.
  rewrite E at 1. rewrite !forallb_app. intros H.
  apply andb_true_iff in H. destruct H as [_ H].
  apply andb_true_iff in H. tauto.
Qed.

Lemma join_no_line_feed (sep : str) (parts : list str) :
  no_line_feed sep = true ->
  Forall (fun p => no_line_feed p = true) parts ->
  no_line_feed (Str.join sep parts) = true.
Proof.
  intros Hsep. induction 1 as [| p parts Hp _ IH]; [reflexivity |].
  destruct parts as [| q parts]; [exact Hp |].
  change (Str.join sep (p :: q :: parts)) with (p ++ sep ++ Str.join sep (q :: parts)).
  unfold no_line_feed in *. rewrite !forallb_app, Hp, Hsep, IH. reflexivity.
Qed.

Lemma firstn_no_line_feed (n : nat) (s : str) :
  no_line_feed s = true -> no_line_feed (firstn n s) = true.
Proof.
  unfold no_line_feed. rewrite <- (firstn_skipn n s) at 1.
  rewrite forallb_app. intros H. apply andb_true_iff in H. tauto.
Qed.

(** What holds of the stripped lines holds of the lines of the
    description. *)
Lemma desc_loop_Forall (Q : str -> Prop) :
  forall lines desc_lines in_content,
    Forall (fun line => Q (Str.strip line)) lines ->
    Forall Q desc_lines ->
    Forall Q (desc_loop lines desc_lines in_content).
Proof.
  induction lines as [| line more IH]; intros acc b Hl Ha; cbn [desc_loop];
    [exact Ha |].
  inversion Hl; subst.
  destruct (Str.startswith (L "# ") line); [apply IH; assumption |].
  destruct (b && nonempty (Str.strip line) && negb (Str.startswith (L "#") line)
            && negb (Str.startswith (L "!") line)); [| apply IH; assumption].
  assert (Ha' : Forall Q (acc ++ [Str.strip line])).
  { apply Forall_app. split; [exact Ha | constructor; [assumption | constructor]]. }
  destruct (100 <? length (Str.join (L " ") (acc ++ [Str.strip line])));
    [exact Ha' | apply IH; assumption].
Qed.

(** X9. The title and the description the parser returns hold no line
    feed, whatever the document; and for a document that does not begin
    with three dashes the description has 200 characters at most. *)
Theorem title_and_description_on_one_line (content : str) :
  no_line_feed (fst (parse_frontmatter content)) = true
  /\ no_line_feed (snd (parse_frontmatter content)) = true
  /\ (Str.startswith (L "---") content = false ->
      length (snd (parse_frontmatter content)) <= 200).
Proof.
  unfold parse_frontmatter.
  destruct (re_match DOTALL frontmatter_re content) as [m |] eqn:Em.
  - cbn [fst snd]. split; [| split].
    + change title_re with (field_re (L "title:")).
      destruct (re_search NOFLAG (field_re (L "title:")) (group1 m)) as [t |] eqn:Et;
        [exact (field_group_line _ _ _ Et) | reflexivity].
    + change desc_re with (field_re (L "description:")).
      destruct (re_search NOFLAG (field_re (L "description:")) (group1 m)) as [t |] eqn:Et;
        [exact (field_group_line _ _ _ Et) | reflexivity].
    + intros H. rewrite (no_frontmatter _ H) in Em. discriminate.
  - destruct (re_search MULTILINE h1_re content) as [h |] eqn:Eh; cbn [fst snd].
    + split; [| split].
      * apply strip_no_line_feed. exact (h1_group_line _ _ Eh).
      * apply firstn_no_line_feed, join_no_line_feed; [reflexivity |].
        apply desc_loop_Forall; [| constructor].
        eapply Forall_impl; [| apply (split_lines nl content)].
        intros line Hline. apply strip_no_line_feed. exact Hline.
      * intros _. apply firstn_le_length.
    + repeat split. intros _. simpl. lia.
Qed.

Lemma desc_loop_idle :
  forall lines desc_lines,
    forallb (fun line => negb (Str.startswith (L "# ") line)) lines = true ->
    desc_loop lines desc_lines false = desc_lines.
Proof.
  induction lines as [| line more IH]; intros acc H; cbn [desc_loop]; [reflexivity |].
  cbn [forallb] in H. apply andb_true_iff in H. destruct H as [H1 H2].
  apply negb_true_iff in H1. rewrite H1. cbn [andb]. apply IH, H2.
Qed.

(** X10. In a document that does not begin with three dashes the
    description is taken from the lines that follow a line beginning with
    [#] and a space: when no line begins so, the description is empty, also
    when the heading pattern, which accepts any whitespace after the [#],
    found a title. *)
Theorem description_needs_hash_and_space (content : str)
        (Hplain : Str.startswith (L "---") content = false)
        (Hnone : no_hash_space_line content = true) :
  snd (parse_frontmatter content) = [].
Proof.
  unfold parse_frontmatter. rewrite (no_frontmatter _ Hplain).
  destruct (re_search MULTILINE h1_re content) as [h |]; [| reflexivity].
  cbn [snd]. rewrite (desc_loop_idle _ [] Hnone). reflexivity.
Qed.

(** A heading with a tab after the [#]: a title, and no description. *)
Lemma description_needs_hash_and_space_witness :
  fst (parse_frontmatter tab_heading_doc) = L "Setup"
  /\ snd (parse_frontmatter tab_heading_doc) = [].
Proof.
  split; [reflexivity |].
  apply (description_needs_hash_and_space tab_heading_doc); reflexivity.
Defined.

Lemma split_blank_lines (k : nat) (s : str) :
  Str.split nl (repeat nl k ++ s) = repeat [] k ++ Str.split nl s.
Proof.
  induction k as [| k IH]; [reflexivity |].
  cbn [repeat app Str.split]. destruct (ascii_dec nl nl) as [_ | N]; [| contradiction].
  rewrite IH. reflexivity.
Qed.

Lemma desc_loop_blank_lines (k : nat) (more desc_lines : list str) (in_content : bool) :
  desc_loop (repeat [] k ++ more) desc_lines in_content
  = desc_loop more desc_lines in_content.
Proof.
  induction k as [| k IH]; [reflexivity |].
  cbn [repeat app desc_loop]. cbn. rewrite andb_false_r. exact IH.
Qed.

Lemma startswith_longer (p q s : str) :
  Str.startswith p s = false -> Str.startswith (p ++ q) s = false.
Proof.
  revert s. induction p as [| a p IH]; intros s; cbn [app Str.startswith];
    [discriminate |].
  destruct s as [| c s]; [reflexivity |].
  destruct (ascii_dec a c); [apply IH | reflexivity].
Qed.

(** X11. For a document made of a heading line ([#], a space and a title
    that begins with a character that is not whitespace), any number of
    empty lines and a paragraph line that is not blank and begins with
    neither [#] nor [!], title and paragraph being made of ASCII
    characters, the parser returns the title, stripped, and as
    description the paragraph line, stripped and cut to 200 characters;
    further lines may follow when the stripped paragraph is longer than
    100 characters, and they are not read. *)
Theorem heading_and_paragraph (k : nat) (title paragraph rest : str)
        (Hascii : is_ascii (title ++ paragraph) = true)
        (Htitle : begins_unspaced title = true)
        (Hline : no_line_feed title = true)
        (Hpar : no_line_feed paragraph = true)
        (Htext : Str.strip paragraph <> [])
        (Hhash : Str.startswith (L "#") paragraph = false)
        (Hbang : Str.startswith (L "!") paragraph = false)
        (Hrest : paragraph_ends paragraph rest = true) :
  parse_frontmatter (L "# " ++ title ++ [nl] ++ repeat nl k ++ paragraph ++ rest)
  = (Str.strip title, firstn 200 (Str.strip paragraph)).
Proof.
  unfold parse_frontmatter. rewrite no_frontmatter by reflexivity.
  destruct (h1_match_here None (L " ") title ([nl] ++ repeat nl k ++ paragraph ++ rest))
    as (mo & Hm & Hg); try reflexivity; try assumption; [discriminate |].
  unfold re_search.
  change (L "# " ++ title ++ [nl] ++ repeat nl k ++ paragraph ++ rest)
    with (L "#" ++ L " " ++ title ++ [nl] ++ repeat nl k ++ paragraph ++ rest).
  rewrite (search_from_here _ _ _ _ _ Hm), Hg. f_equal. f_equal.
  change (L "#" ++ L " " ++ title ++ [nl] ++ repeat nl k ++ paragraph ++ rest)
    with ((L "# " ++ title) ++ nl :: (repeat nl k ++ paragraph ++ rest)).
  rewrite (split_app nl _ (L "# " ++ title)) by exact Hline.
  rewrite split_blank_lines.
  cbn [desc_loop]. change (Str.startswith (L "# ") (L "# " ++ title)) with true.
  cbn iota. rewrite desc_loop_blank_lines.
  assert (Hstep : forall more,
            (more = [] \/ (100 <? length (Str.strip paragraph)) = true) ->
            desc_loop (paragraph :: more) [] true = [Str.strip paragraph]).
  { intros more Hmore. cbn [desc_loop].
    pose proof (startswith_longer (L "#") (L " ") paragraph Hhash) as Hhs.
    change (L "#" ++ L " ") with (L "# ") in Hhs. rewrite Hhs, Hhash, Hbang.
    apply nonempty_true in Htext. rewrite Htext. cbn [andb negb app Str.join].
    destruct (100 <? length (Str.strip paragraph)); [reflexivity |].
    destruct Hmore as [-> | ?]; [reflexivity | discriminate]. }
  destruct rest as [| c rest].
  - rewrite app_nil_r, (split_no_sep nl paragraph Hpar). rewrite Hstep by auto.
    reflexivity.
  - cbn [paragraph_ends] in Hrest. apply andb_true_iff in Hrest.
    destruct Hrest as [Hc Hlong]. destruct (ascii_dec c nl) as [-> | ]; [| discriminate].
    rewrite (split_app nl rest paragraph Hpar), Hstep by auto. reflexivity.
Qed.

(** The document of the widgets scenario: a heading, a blank line and a
    paragraph. *)
Lemma heading_and_paragraph_witness :
  parse_frontmatter widgets_doc
  = (L "Introduction to Widgets",
     L "This is a lab about widgets and Azure OpenAI integration.").
Proof.
  apply (heading_and_paragraph 1 (L "Introduction to Widgets")
           (L "This is a lab about widgets and Azure OpenAI integration.") []);
    try reflexivity.
  discriminate.
Defined.

(** ** A block that is not closed *)

Lemma occurs_suffix (key s : str) :
  Str.startswith key s = true -> forall pre, occurs key (pre ++ s) = true.
Proof.
  intros H. induction pre as [| c pre IH].
  - destruct s; cbn [app occurs]; rewrite H; reflexivity.
  - cbn [app occurs]. rewrite IH. apply orb_true_r.
Qed.

Lemma lit_in_startswith (fl : flags) (l : str) (prev : option ascii) (rest : str)
      (g : option str) (e : mstate) :
  ignorecase fl = false -> In e (lit_ends fl l prev rest g) ->
  Str.startswith l rest = true.
Proof.
  intros Hfl H. destruct (Str.startswith l rest) eqn:E; [reflexivity |].
  rewrite (lit_ends_nowhere fl l Hfl _ _ _ E) in H. contradiction.
Qed.

(** The pattern matches only when a later line begins with three dashes. *)
Lemma frontmatter_closing (content : str) :
  re_match DOTALL frontmatter_re content <> None ->
  occurs (nl :: L "---") content = true.
Proof.
  unfold re_match, match_at.
  destruct (ends DOTALL frontmatter_re (MState None content None)) as [| e l] eqn:E;
    [congruence |].
  intros _.
  assert (He : In e (ends DOTALL frontmatter_re (MState None content None)))
    by (rewrite E; left; reflexivity).
  clear E. unfold frontmatter_re in He.
  apply in_ends_seq in He. destruct He as (e1 & H1 & He).
  apply in_ends_seq in He. destruct He as (e2 & H2 & He).
  apply in_ends_seq in He. destruct He as (e3 & H3 & He).
  apply in_ends_seq in He. destruct He as (e4 & H4 & He).
  apply in_ends_seq in He. destruct He as (e5 & H5 & He).
  apply in_ends_seq in He. destruct He as (e6 & H6 & He).
  apply in_ends_seq in He. destruct He as (e7 & H7 & _).
  destruct (ends_between _ _ _ _ H1) as (m1 & T1).
  destruct (ends_between _ _ _ _ H2) as (m2 & T2).
  destruct (ends_between _ _ _ _ H3) as (m3 & T3).
  destruct (ends_between _ _ _ _ H4) as (m4 & T4).
  destruct (ends_between _ _ _ _ H5) as (m5 & T5).
  unfold text_between in *. cbn [m_rest] in T1.
  assert (Hstart : Str.startswith (nl :: L "---") (m_rest e5) = true).
  { cbn [ends] in H6. destruct (m_rest e5) as [| c tl]; [contradiction |].
    destruct (cmatch DOTALL (CChar nl) c) eqn:Ec; [| contradiction].
    destruct H6 as [<- | []]. cbn [ends m_prev m_rest m_grp] in H7.
    apply (lit_in_startswith DOTALL) in H7; [| reflexivity].
    cbn [cmatch] in Ec. rewrite (eq_char_exact DOTALL nl c eq_refl) in Ec.
    cbn [Str.startswith]. destruct (ascii_dec nl c); [exact H7 | discriminate]. }
  rewrite T1, T2, T3, T4, T5, !app_assoc. apply occurs_suffix, Hstart.
Qed.

(** X12. A document in which no line feed is followed by three dashes has
    no frontmatter for the parser, also when it begins with a delimiter
    line: the parser returns what the heading fallback returns, and the
    fields of the block that is not closed are not read. *)
Theorem unclosed_frontmatter_is_no_frontmatter (content : str)
        (Hopen : occurs (nl :: L "---") content = false) :
  parse_frontmatter content = heading_fallback content.
Proof.
  unfold parse_frontmatter, heading_fallback.
  destruct (re_match DOTALL frontmatter_re content) as [m |] eqn:Em; [| reflexivity].
  assert (H : occurs (nl :: L "---") content = true)
    by (apply frontmatter_closing; congruence).
  congruence.
Qed.

(** The field of the block that is not closed is not read: the title is
    the heading. *)
Lemma unclosed_frontmatter_is_no_frontmatter_witness :
  parse_frontmatter unclosed_doc = (L "Setup", L "Install the tool.").
Proof.
  rewrite (unclosed_frontmatter_is_no_frontmatter unclosed_doc eq_refl).
  reflexivity.
Defined.

(** ** The pattern of [.NET] *)

Lemma lower_char_dot (c : ascii) : Str.lower_char "." = Str.lower_char c -> c = "."%char.
Proof.
  destruct c as [[] [] [] [] [] [] [] []]; vm_compute; intros H;
    first [reflexivity | discriminate].
Qed.

Lemma dotnet_nowhere (prev : option ascii) (rest : str) :
  match rest with
  | c :: tl => dot_apart prev c tl
  | [] => true
  end = true ->
  match_at IGNORECASE dotnet_re prev rest = None.
Proof.
  intros H.
  assert (E : ends IGNORECASE dotnet_re (MState prev rest None) = []).
  { unfold dotnet_re. apply ends_seq_none. intros x Hx. cbn [ends] in Hx.
    destruct (at_wordb (MState prev rest None)) eqn:Ew; [| contradiction].
    destruct Hx as [<- | []]. apply ends_seq_none. intros y Hy.
    exfalso. unfold word in Hy. cbn [ends m_rest m_prev m_grp] in Hy.
    destruct rest as [| c tl]; [exact Hy |].
    cbn [L list_ascii_of_string lit_ends] in Hy.
    unfold eq_char in Hy. cbn [ignorecase IGNORECASE] in Hy.
    destruct (ascii_dec (Str.lower_char ".") (Str.lower_char c)) as [Ec | _];
      [| exact Hy].
    apply lower_char_dot in Ec. subst c. unfold dot_apart in H.
    destruct (ascii_dec "." ".") as [_ | N]; [| congruence].
    unfold at_wordb in Ew. cbn [m_prev m_rest hd_error is_word_opt] in Ew.
    change (Str.is_word ".") with false in Ew.
    destruct tl as [| n tl]; [exact Hy |]. cbn [lit_ends] in Hy.
    change (Str.lower_char "N") with "n"%char in Hy.
    destruct (ascii_dec "n" (Str.lower_char n)) as [En | _]; [| exact Hy].
    rewrite <- En in H. cbn in H.
    destruct (is_word_opt prev); discriminate. }
  unfold match_at. rewrite E. reflexivity.
Qed.

Lemma dotnet_findall (fuel : nat) :
  forall prev rest,
    dots_apart prev rest = true ->
    findall_from fuel IGNORECASE dotnet_re prev rest = [].
Proof.
  induction fuel as [| fuel IH]; intros prev rest H; [reflexivity |].
  cbn [findall_from]. rewrite dotnet_nowhere.
  - destruct rest as [| c tl]; [reflexivity |].
    cbn [dots_apart] in H. apply andb_true_iff in H. apply IH, H.
  - destruct rest as [| c tl]; [reflexivity |].
    cbn [dots_apart] in H. apply andb_true_iff in H. tauto.
Qed.

(** X13. The pattern of [.NET] begins with a word boundary before the
    full stop, so it matches only right after a letter, a digit or an
    underscore: in a document of ASCII characters in which no full stop
    followed by [n] or [N]
    stands right after such a character, the pattern finds nothing and
    contributes no label. *)
Theorem dotnet_needs_a_word_before (content : str)
        (Hascii : is_ascii content = true)
        (Hdots : dots_apart None content = true) :
  nth_error tech_patterns 10 = Some dotnet_re
  /\ re_findall IGNORECASE dotnet_re content = []
  /\ label_of dotnet_re content = None.
Proof.
  split; [reflexivity |]. split.
  - apply dotnet_findall, Hdots.
  - unfold label_of, re_search.
    assert (H : forall rest prev, dots_apart prev rest = true ->
                  search_from IGNORECASE dotnet_re prev rest = None).
    { induction rest as [| c tl IH]; intros prev H; cbn [search_from].
      - rewrite dotnet_nowhere; reflexivity.
      - cbn [dots_apart] in H. apply andb_true_iff in H. destruct H as [H1 H2].
        rewrite (dotnet_nowhere prev (c :: tl) H1). apply IH, H2. }
    rewrite (H content None Hdots). reflexivity.
Qed.

(** [.NET] after a space is not found, and no other pattern matches. *)
Lemma dotnet_needs_a_word_before_witness :
  re_findall IGNORECASE dotnet_re (L "Build the app with .NET 8.") = []
  /\ extract_technologies (fun l => l) (L "Build the app with .NET 8.") = NA.
Proof.
  split; [| reflexivity].
  apply (dotnet_needs_a_word_before (L "Build the app with .NET 8.") eq_refl eq_refl).
Defined.

(** ** The trace of a run *)

Section Trace.
Variable w : world.
Variable iter : list str -> list str.
Variable repo_root : str.
Variable instructions_path : Path.

Lemma process_one_events (md_file : Path) (rel : Path) (content : str) (labs : list lab) :
  md_file = instructions_path ++ rel ->
  read_text w (path_str md_file) = Returned content ->
  process_one w iter repo_root instructions_path md_file labs
  = (fst (get_git_info w (path_str md_file) repo_root),
     Returned (labs ++ [lab_of w iter repo_root instructions_path md_file content])).
Proof.
  intros Hp Hr. unfold process_one, lab_of. rewrite Hr. simpl.
  destruct (parse_frontmatter content) as [t d0].
  destruct (get_git_info_returns w (path_str md_file) repo_root) as (evs & [d a] & E).
  rewrite E. simpl. subst md_file.
  rewrite relative_to_app, strip_prefix_app. simpl. rewrite app_nil_r. reflexivity.
Qed.

Lemma process_loop_events (md_files : list Path) :
  Forall (fun p => exists rel, p = instructions_path ++ rel) md_files ->
  forall labs,
    process_loop w iter repo_root instructions_path md_files labs
    = (flat_map (file_events w repo_root) md_files,
       Returned (labs ++ rows_of w iter repo_root instructions_path md_files)).
Proof.
  induction 1 as [| md_file more [rel Hrel] _ IH]; intros labs.
  - simpl. rewrite app_nil_r. reflexivity.
  - cbn [process_loop rows_of flat_map]. unfold file_events at 1.
    destruct (read_text w (path_str md_file)) as [content | e] eqn:Hr.
    + rewrite (process_one_events _ _ _ labs Hrel Hr). cbn [try_except bind print].
      rewrite IH. unfold rows_of. cbn [app]. rewrite <- !app_assoc. reflexivity.
    + rewrite (process_one_skipped _ _ _ _ _ _ labs Hr). cbn [try_except bind print ret].
      rewrite IH. reflexivity.
Qed.

End Trace.

(** X14. The trace of a run, the write of the output file taken to
    succeed: the banner and the number of files found; then, for each file
    in the sorted order, the line that announces it followed by the
    commands and warnings of its lookup when the file is read, or by the
    error line when it is not; then the one write of the output file, with
    the rows of the files that were read; then the path of the file, the
    number of rows, which is the number of files that were read, and the
    closing banner.  No failure of a read or of [git] ends the run. *)
Theorem main_trace (w : world) (iter : list str -> list str) (repo_root : str) :
  let instructions_dir := os_path_join repo_root (L "Instructions") in
  let output_file := os_path_join repo_root (L "lab_catalog.csv") in
  let md_files := md_files_of w instructions_dir in
  let labs := rows_of w iter repo_root (path_of instructions_dir) md_files in
  main w iter repo_root
  = ([Printed rule; Printed (L "Lab Catalog Generator"); Printed rule;
      Printed (L "Found " ++ Str.of_nat (length (rglob_md w instructions_dir))
                 ++ L " markdown files in " ++ instructions_dir)]
       ++ flat_map (file_events w repo_root) md_files
       ++ [Wrote output_file (csv_text labs);
           Printed ([nl] ++ L "CSV file generated: " ++ output_file);
           Printed (L "Total labs documented: "
                      ++ Str.of_nat (length (readable w md_files)));
           Printed ([nl] ++ rule); Printed (L "Done!"); Printed rule],
     Returned tt).
Proof.
  intros instructions_dir output_file md_files labs.
  unfold main, process_lab_files, generate_csv.
  fold instructions_dir. fold output_file. fold md_files.
  rewrite (process_loop_events w iter repo_root (path_of instructions_dir) md_files
             (md_files_below w instructions_dir) []).
  cbn [app]. fold labs.
  assert (E1 : length md_files = length (rglob_md w instructions_dir)).
  { unfold md_files. rewrite (Permutation_length (md_files_perm w instructions_dir)).
    apply length_map. }
  assert (E2 : length labs = length (readable w md_files))
    by apply rows_readable_length.
  rewrite E1. cbn [bind print app]. rewrite E2, <- ?app_assoc. reflexivity.
Qed.

(** ** The label is the text of the match *)

Lemma eq_char_space (fl : flags) (a c : ascii) :
  eq_char fl a c = true -> Str.is_space c = Str.is_space a.
Proof.
  unfold eq_char. destruct (ignorecase fl).
  - destruct (ascii_dec (Str.lower_char a) (Str.lower_char c)) as [E |]; [| discriminate].
    intros _. rewrite <- (is_space_lower_char c), <- E. apply is_space_lower_char.
  - destruct (ascii_dec a c) as [-> |]; [reflexivity | discriminate].
Qed.

Lemma last_char_app (m1 m2 : str) :
  forall prev, last_char prev (m1 ++ m2) = last_char (last_char prev m1) m2.
Proof. induction m1 as [| c m1 IH]; intros prev; [reflexivity | apply IH]. Qed.

Lemma lit_ends_prev (fl : flags) (l : str) :
  forall prev rest g e,
    In e (lit_ends fl l prev rest g) ->
    exists m, rest = m ++ m_rest e /\ m_prev e = last_char prev m
              /\ length m = length l.
Proof.
  induction l as [| a l IH]; intros prev rest g e; cbn [lit_ends].
  - intros [<- | []]. exists []. auto.
  - destruct rest as [| c tl]; [intros [] |].
    destruct (eq_char fl a c); [| intros []].
    intros H. destruct (IH _ _ _ _ H) as (m & -> & Hp & Hl).
    exists (c :: m). cbn [app last_char length]. auto.
Qed.

Lemma star_ends_prev (p : ascii -> bool) (greedy : bool) :
  forall rest prev g e,
    In e (star_ends p greedy prev rest g) ->
    exists m, rest = m ++ m_rest e /\ m_prev e = last_char prev m.
Proof.
  induction rest as [| c tl IH]; intros prev g e; cbn [star_ends].
  - intros [<- | []]. exists []. auto.
  - destruct (p c).
    + intros H.
      assert (H' : e = MState prev (c :: tl) g \/ In e (star_ends p greedy (Some c) tl g)).
      { destruct greedy.
        - apply in_app_or in H. destruct H as [H | [H | []]]; auto.
        - destruct H as [H | H]; auto. }
      destruct H' as [-> | H'].
      * exists []. auto.
      * destruct (IH _ _ _ H') as (m & -> & Hp). exists (c :: m). auto.
    + intros [<- | []]. exists []. auto.
Qed.

(** The character before the end of a match is the last one of its text. *)
Lemma ends_prev (fl : flags) (r : regex) :
  forall st e,
    In e (ends fl r st) ->
    exists m, m_rest st = m ++ m_rest e /\ m_prev e = last_char (m_prev st) m.
Proof.
  induction r as [| k | l | a IHa b IHb | a IHa b IHb | greedy k | a IHa | | |];
    intros st e; cbn [ends].
  - intros [<- | []]. exists []. auto.
  - destruct (m_rest st) as [| c tl]; [intros [] |].
    destruct (cmatch fl k c); [| intros []].
    intros [<- | []]. exists [c]. auto.
  - intros H. destruct (lit_ends_prev _ _ _ _ _ _ H) as (m & E & Hp & _). eauto.
  - intros H. apply in_flat_map in H. destruct H as (mid & H1 & H2).
    destruct (IHa _ _ H1) as (m1 & E1 & P1). destruct (IHb _ _ H2) as (m2 & E2 & P2).
    exists (m1 ++ m2). rewrite E1, E2, P2, P1, last_char_app, app_assoc. auto.
  - intros H. apply in_app_or in H. destruct H; eauto.
  - intros H. destruct (star_ends_prev _ _ _ _ _ _ H) as (m & E & Hp). eauto.
  - intros H. apply in_map_iff in H. destruct H as (e' & <- & H).
    destruct (IHa _ _ H) as (m & E & Hp). exists m. auto.
  - destruct (at_bol fl st); [| intros []]. intros [<- | []]. exists []. auto.
  - destruct (at_eol fl st); [| intros []]. intros [<- | []]. exists []. auto.
  - destruct (at_wordb st); [| intros []]. intros [<- | []]. exists []. auto.
Qed.

Lemma empty_only_ends (fl : flags) (r : regex) (st e : mstate) :
  empty_only r = true -> In e (ends fl r st) -> e = st.
Proof.
  destruct r; try discriminate; intros _; cbn [ends].
  - intros [<- | []]. reflexivity.
  - destruct (at_bol fl st); [| intros []]. intros [<- | []]. reflexivity.
  - destruct (at_eol fl st); [| intros []]. intros [<- | []]. reflexivity.
  - destruct (at_wordb st); [| intros []]. intros [<- | []]. reflexivity.
Qed.

Lemma starts_unspaced_ends (fl : flags) (r : regex) :
  starts_unspaced r = true ->
  forall st e,
    In e (ends fl r st) ->
    begins_unspaced (m_rest st) = true
    /\ exists m, m <> [] /\ m_rest st = m ++ m_rest e.
Proof.
  induction r as [| k | l | a IHa b IHb | a IHa b IHb | greedy k | a IHa | | |];
    cbn [starts_unspaced]; try discriminate; intros Hr st e.
  - destruct k as [a | | |]; try discriminate. cbn [ends].
    destruct (m_rest st) as [| c tl]; [intros [] |].
    destruct (cmatch fl (CChar a) c) eqn:Ec; [| intros []].
    intros [<- | []]. cbn [cmatch] in Ec. apply eq_char_space in Ec.
    split.
    + cbn [begins_unspaced]. rewrite Ec. exact Hr.
    + exists [c]. split; [discriminate | reflexivity].
  - cbn [ends]. destruct l as [| a l]; [discriminate |].
    intros H. destruct (lit_ends_prev _ _ _ _ _ _ H) as (m & E & _ & Hl).
    split.
    + cbn [lit_ends] in H. destruct (m_rest st) as [| c tl]; [contradiction |].
      destruct (eq_char fl a c) eqn:Ec; [| contradiction].
      apply eq_char_space in Ec. cbn [begins_unspaced] in Hr |- *.
      rewrite Ec. exact Hr.
    + exists m. split; [| exact E]. intros ->. discriminate.
  - intros H. apply in_ends_seq in H. destruct H as (mid & H1 & H2).
    apply orb_true_iff in Hr. destruct Hr as [Ha | Hb].
    + destruct (IHa Ha _ _ H1) as (Hb1 & m1 & N1 & E1).
      destruct (ends_between _ _ _ _ H2) as (m2 & E2). unfold text_between in E2.
      split; [exact Hb1 |]. exists (m1 ++ m2). split.
      * intros N. apply app_eq_nil in N. tauto.
      * rewrite E1, E2. apply app_assoc.
    + apply andb_true_iff in Hb. destruct Hb as [Hempty Hb].
      rewrite (empty_only_ends fl a st mid Hempty H1) in H2.
      exact (IHb Hb _ _ H2).
  - apply andb_true_iff in Hr. destruct Hr as [Ha Hb].
    cbn [ends]. intros H. apply in_app_or in H. destruct H; eauto.
  - cbn [ends]. intros H. apply in_map_iff in H. destruct H as (e' & <- & H).
    exact (IHa Hr _ _ H).
Qed.

Lemma lit_ends_unspaced (fl : flags) (l : str) :
  forallb unspaced l = true ->
  forall prev rest g e,
    In e (lit_ends fl l prev rest g) ->
    l <> [] \/ unspaced_opt prev = true ->
    unspaced_opt (m_prev e) = true.
Proof.
  induction l as [| a l IH]; cbn [forallb lit_ends]; intros Hl prev rest g e.
  - intros [<- | []] [N | H]; [contradiction | exact H].
  - apply andb_true_iff in Hl. destruct Hl as [Ha Hl].
    destruct rest as [| c tl]; [intros [] |].
    destruct (eq_char fl a c) eqn:Ec; [| intros []].
    intros H _. apply (IH Hl _ _ _ _ H). right.
    apply eq_char_space in Ec. cbn [unspaced_opt]. unfold unspaced in *.
    rewrite Ec. exact Ha.
Qed.

Lemma keeps_unspaced_ends (fl : flags) (r : regex) :
  keeps_unspaced r = true ->
  forall st e,
    In e (ends fl r st) -> unspaced_opt (m_prev st) = true ->
    unspaced_opt (m_prev e) = true.
Proof.
  induction r as [| k | l | a IHa b IHb | a IHa b IHb | greedy k | a IHa | | |];
    cbn [keeps_unspaced]; try discriminate; intros Hr st e.
  - intros H. rewrite (empty_only_ends fl Eps st e eq_refl H). auto.
  - destruct k as [a | | |]; try discriminate. cbn [ends].
    destruct (m_rest st) as [| c tl]; [intros [] |].
    destruct (cmatch fl (CChar a) c) eqn:Ec; [| intros []].
    intros [<- | []] _. cbn [cmatch] in Ec. apply eq_char_space in Ec.
    cbn [m_prev unspaced_opt]. unfold unspaced in *. rewrite Ec. exact Hr.
  - cbn [ends]. intros H Hp. apply (lit_ends_unspaced fl l Hr _ _ _ _ H). auto.
  - apply andb_true_iff in Hr. destruct Hr as [Ha Hb].
    intros H Hp. apply in_ends_seq in H. destruct H as (mid & H1 & H2).
    apply (IHb Hb _ _ H2), (IHa Ha _ _ H1), Hp.
  - apply andb_true_iff in Hr. destruct Hr as [Ha Hb].
    cbn [ends]. intros H. apply in_app_or in H. destruct H; eauto.
  - cbn [ends]. intros H. apply in_map_iff in H. destruct H as (e' & <- & H).
    exact (IHa Hr _ _ H).
  - intros H. rewrite (empty_only_ends fl Bol st e eq_refl H). auto.
  - intros H. rewrite (empty_only_ends fl Eol st e eq_refl H). auto.
  - intros H. rewrite (empty_only_ends fl WordB st e eq_refl H). auto.
Qed.

Lemma ends_unspaced_ends (fl : flags) (r : regex) :
  ends_unspaced r = true ->
  forall st e, In e (ends fl r st) -> unspaced_opt (m_prev e) = true.
Proof.
  induction r as [| k | l | a IHa b IHb | a IHa b IHb | greedy k | a IHa | | |];
    cbn [ends_unspaced]; try discriminate; intros Hr st e.
  - destruct k as [a | | |]; try discriminate. cbn [ends].
    destruct (m_rest st) as [| c tl]; [intros [] |].
    destruct (cmatch fl (CChar a) c) eqn:Ec; [| intros []].
    intros [<- | []]. cbn [cmatch] in Ec. apply eq_char_space in Ec.
    cbn [m_prev unspaced_opt]. unfold unspaced in *. rewrite Ec. exact Hr.
  - apply andb_true_iff in Hr. destruct Hr as [Hl Hne]. apply nonempty_true in Hne.
    cbn [ends]. intros H. apply (lit_ends_unspaced fl l Hl _ _ _ _ H). auto.
  - intros H. apply in_ends_seq in H. destruct H as (mid & H1 & H2).
    apply orb_true_iff in Hr. destruct Hr as [Hb | Hab].
    + exact (IHb Hb _ _ H2).
    + apply andb_true_iff in Hab. destruct Hab as [Ha Hk].
      exact (keeps_unspaced_ends fl b Hk _ _ H2 (IHa Ha _ _ H1)).
  - apply andb_true_iff in Hr. destruct Hr as [Ha Hb].
    cbn [ends]. intros H. apply in_app_or in H. destruct H; eauto.
  - cbn [ends]. intros H. apply in_map_iff in H. destruct H as (e' & <- & H).
    exact (IHa Hr _ _ H).
Qed.

Lemma last_char_rev (m : str) :
  forall prev,
    last_char prev m = match rev m with [] => prev | x :: _ => Some x end.
Proof.
  induction m as [| c m IH]; intros prev; [reflexivity |].
  cbn [last_char rev]. rewrite IH. destruct (rev m); reflexivity.
Qed.

Lemma strip_unspaced (m : str) (prev : option ascii) :
  m <> [] -> begins_unspaced m = true -> unspaced_opt (last_char prev m) = true ->
  Str.strip m = m.
Proof.
  intros N Hb He. destruct m as [| c m]; [contradiction |].
  cbn [begins_unspaced] in Hb. apply negb_true_iff in Hb.
  unfold Str.strip. cbn [Str.lstrip]. rewrite Hb. unfold Str.rstrip.
  rewrite last_char_rev in He.
  destruct (rev (c :: m)) as [| x t] eqn:Er.
  - apply (f_equal (@length ascii)) in Er. rewrite length_rev in Er. discriminate.
  - cbn [unspaced_opt] in He. unfold unspaced in He. apply negb_true_iff in He.
    cbn [Str.lstrip]. rewrite He, <- Er. apply rev_involutive.
Qed.

Lemma tech_patterns_unspaced :
  forallb (fun p => starts_unspaced p && ends_unspaced p) tech_patterns = true.
Proof. vm_compute. reflexivity. Qed.

(** Stripping the text of a match of a pattern of the catalog removes
    nothing. *)
Lemma match_unspaced (pattern : regex) (prev : option ascii) (rest : str)
      (mo : match_obj) :
  In pattern tech_patterns ->
  match_at IGNORECASE pattern prev rest = Some mo ->
  Str.strip (group0 mo) = group0 mo.
Proof.
  intros Hp Hm. pose proof tech_patterns_unspaced as H.
  rewrite forallb_forall in H. specialize (H _ Hp).
  apply andb_true_iff in H. destruct H as [Hs He].
  destruct (match_at_between _ _ _ _ _ Hm) as [E Hin].
  destruct (starts_unspaced_ends IGNORECASE pattern Hs _ _ Hin) as (Hb & m & N & Em).
  destruct (ends_prev IGNORECASE pattern _ _ Hin) as (m' & Em' & Hprev).
  pose proof (ends_unspaced_ends IGNORECASE pattern He _ _ Hin) as Hend.
  cbn [m_rest m_prev] in *.
  assert (m = group0 mo) by (rewrite Em in E; apply app_inv_tail in E; exact E).
  assert (m' = group0 mo) by (rewrite Em' in E; apply app_inv_tail in E; exact E).
  subst m m'. rewrite Hprev in Hend.
  apply (strip_unspaced (group0 mo) prev N); [| exact Hend].
  destruct (group0 mo) as [| c g]; [contradiction |].
  rewrite E in Hb. exact Hb.
Qed.

(** X15. In a document of ASCII characters the label a pattern of the
    catalog contributes is the very text of its first match in the
    document: every match begins and ends with a
    character that is not whitespace, so stripping removes nothing, and the
    whitespace inside the match, line ends included, is kept. *)
Theorem label_is_the_match (pattern : regex) (content l : str)
        (Hascii : is_ascii content = true)
        (Hpattern : In pattern tech_patterns)
        (Hlabel : label_of pattern content = Some l) :
  first_match IGNORECASE pattern content l.
Proof.
  apply label_of_first_match in Hlabel. destruct Hlabel as (m & Hm & ->).
  destruct Hm as (pre & post & mo & E & Hmo & Hg & Hno).
  rewrite <- Hg, (match_unspaced pattern _ _ mo Hpattern Hmo), Hg.
  exists pre, post, mo. auto.
Qed.

(** The line end between the two words of the name is part of the
    label. *)
Lemma label_is_the_match_witness :
  first_match IGNORECASE
    (WordB ;; word "Azure" ;; ws_plus ;; word "OpenAI" ;; WordB)
    wrapped_doc (L "Azure" ++ [nl] ++ L "  OpenAI").
Proof.
  apply (label_is_the_match
           (WordB ;; word "Azure" ;; ws_plus ;; word "OpenAI" ;; WordB)
           wrapped_doc (L "Azure" ++ [nl] ++ L "  OpenAI")).
  - reflexivity.
  - left. reflexivity.
  - reflexivity.
Defined.

(** ** The lines of the description *)

Lemma desc_loop_collects_from (lines : list str) :
  forall desc_lines in_content,
    (forall p q, desc_lines = p ++ q -> length (Str.join (L " ") p) <= 100) ->
    exists added rest,
      desc_loop lines desc_lines in_content = desc_lines ++ added
      /\ content_lines lines in_content = added ++ rest
      /\ (rest = [] \/ 100 < length (Str.join (L " ") (desc_lines ++ added)))
      /\ (forall p q, desc_lines ++ added = p ++ q -> q <> [] ->
            length (Str.join (L " ") p) <= 100).
Proof.
  induction lines as [| line more IH]; intros acc b Hacc; cbn [desc_loop content_lines].
  - exists [], []. rewrite app_nil_r. repeat split; auto.
    intros p q E _. exact (Hacc p q E).
  - destruct (Str.startswith (L "# ") line); [apply IH, Hacc |].
    destruct (b && nonempty (Str.strip line) && negb (Str.startswith (L "#") line)
              && negb (Str.startswith (L "!") line)); [| apply IH, Hacc].
    destruct (100 <? length (Str.join (L " ") (acc ++ [Str.strip line]))) eqn:Elong.
    + exists [Str.strip line], (content_lines more b).
      split; [reflexivity |]. split; [reflexivity |].
      split; [right; apply Nat.ltb_lt, Elong |].
      intros p q E Hq. destruct (rev q) as [| x q'] eqn:Eq.
      * apply (f_equal (@rev str)) in Eq. rewrite rev_involutive in Eq. contradiction.
      * apply (f_equal (@rev str)) in Eq. rewrite rev_involutive in Eq.
        cbn [rev] in Eq. subst q. rewrite app_assoc in E.
        apply app_inj_tail in E. destruct E as [E _].
        exact (Hacc p (rev q') E).
    + apply Nat.ltb_ge in Elong.
      assert (Hacc' : forall p q, acc ++ [Str.strip line] = p ++ q ->
                        length (Str.join (L " ") p) <= 100).
      { intros p q E. destruct (rev q) as [| x q'] eqn:Eq.
        - apply (f_equal (@rev str)) in Eq. rewrite rev_involutive in Eq.
          cbn [rev] in Eq. subst q. rewrite app_nil_r in E. subst p. exact Elong.
        - apply (f_equal (@rev str)) in Eq. rewrite rev_involutive in Eq.
          cbn [rev] in Eq. subst q. rewrite app_assoc in E.
          apply app_inj_tail in E. destruct E as [E _].
          exact (Hacc p (rev q') E). }
      destruct (IH (acc ++ [Str.strip line]) b Hacc') as (added & rest & E1 & E2 & E3 & E4).
      exists (Str.strip line :: added), rest.
      rewrite <- app_assoc in E1, E3, E4. cbn [app] in E1, E3, E4.
      repeat split; [exact E1 | cbn [app]; rewrite E2; reflexivity | exact E3 | exact E4].
Qed.

(** X16. On lines of ASCII characters the loop of the fallback adds the
    content lines of the document
    (those after a line that begins with [#] and a space, not blank,
    beginning with neither [#] nor [!]), stripped and in their order, and
    stops right after the line that makes the description, joined by
    spaces, longer than 100 characters: what it returns is a prefix of the
    content lines, either all of them or longer than 100 characters once
    joined, and no shorter prefix of it is longer than 100 characters. *)
Theorem description_collects_lines (lines : list str)
        (Hascii : forallb is_ascii lines = true) :
  exists rest,
    content_lines lines false = desc_loop lines [] false ++ rest
    /\ (rest = [] \/ 100 < length (Str.join (L " ") (desc_loop lines [] false)))
    /\ (forall p q, desc_loop lines [] false = p ++ q -> q <> [] ->
          length (Str.join (L " ") p) <= 100).
Proof.
  destruct (desc_loop_collects_from lines [] false) as (added & rest & E1 & E2 & E3 & E4).
  - intros p q E. symmetry in E. apply app_eq_nil in E. destruct E as [-> _].
    simpl. lia.
  - cbn [app] in E1, E3, E4. rewrite E1. exists rest. auto.
Qed.

(** A heading, an empty line, a short line, a long line and a line that is
    not read. *)
Lemma description_collects_lines_witness :
  desc_loop long_lines [] false
  = [L "Short."; repeat "x"%char 120]
  /\ exists rest,
       content_lines long_lines false = desc_loop long_lines [] false ++ rest
       /\ (rest = [] \/ 100 < length (Str.join (L " ") (desc_loop long_lines [] false)))
       /\ (forall p q, desc_loop long_lines [] false = p ++ q -> q <> [] ->
             length (Str.join (L " ") p) <= 100).
Proof.
  split; [reflexivity |].
  apply (description_collects_lines long_lines). reflexivity.
Defined.

(** ** Bars in the answer of [git] *)

Lemma split_length (sep : ascii) (s : str) :
  length (Str.split sep s)
  = S (length (filter (fun c => if ascii_dec c sep then true else false) s)).
Proof.
  induction s as [| c s IH]; cbn [Str.split filter]; [reflexivity |].
  destruct (ascii_dec c sep).
  - cbn [length]. rewrite IH. reflexivity.
  - destruct (Str.split sep s) as [| w ws]; [discriminate |]. exact IH.
Qed.

Lemma count_bars_app (a b : str) : count_bars (a ++ b) = count_bars a + count_bars b.
Proof. unfold count_bars. rewrite filter_app, length_app. reflexivity. Qed.

Lemma count_bars_spaces (a : str) : forallb Str.is_space a = true -> count_bars a = 0.
Proof.
  unfold count_bars. induction a as [| c a IH]; cbn [forallb filter]; [reflexivity |].
  intros H. apply andb_true_iff in H. destruct H as [Hc Ha].
  destruct (ascii_dec c "|") as [-> | _]; [discriminate | exact (IH Ha)].
Qed.

Lemma count_bars_strip (s : str) : count_bars (Str.strip s) = count_bars s.
Proof.
  destruct (strip_infix s) as (a & b & E & Ha & Hb).
  rewrite E at 2. rewrite !count_bars_app, (count_bars_spaces a Ha), (count_bars_spaces b Hb).
  lia.
Qed.

Lemma bars_unusable (r : completed) : count_bars (stdout r) <> 1 -> unusable r.
Proof.
  intros H. right. right. rewrite split_length.
  change (length (filter (fun c => if ascii_dec c "|" then true else false)
                         (Str.strip (stdout r))))
    with (count_bars (Str.strip (stdout r))).
  rewrite count_bars_strip. lia.
Qed.

(** X17. The answer of a query is read only when it holds exactly one
    bar: when both queries complete with an output in which the number of
    bars is not one (an author whose name holds a bar, a text without bar),
    the lookup runs both queries and returns the sentinel pair, without a
    warning. *)
Theorem bars_make_sentinel
        (w : world) (file_path repo_root rel_path : str) (r1 r2 : completed)
        (Hrel : relpath w file_path repo_root = Returned rel_path)
        (H1 : subprocess_run w (git_log_merges rel_path) repo_root = Returned r1)
        (H2 : subprocess_run w (git_log rel_path) repo_root = Returned r2)
        (Hbars1 : count_bars (stdout r1) <> 1)
        (Hbars2 : count_bars (stdout r2) <> 1) :
  get_git_info w file_path repo_root
  = ([Ran (git_log_merges rel_path) repo_root; Ran (git_log rel_path) repo_root],
     Returned (NA, NA)).
Proof.
  rewrite (git_first_read _ _ _ _ _ _ Hrel H1 (read_result_unusable _ (bars_unusable _ Hbars1))).
  rewrite H2, (read_result_unusable _ (bars_unusable _ Hbars2)). reflexivity.
Qed.

(** The last commit of the file is by an author whose name holds a bar:
    no date and no author are reported. *)
Lemma bars_make_sentinel_witness :
  get_git_info bar_author (L "Instructions/lab.md") (L "/repo")
  = ([Ran (git_log_merges (L "Instructions/lab.md")) (L "/repo");
      Ran (git_log (L "Instructions/lab.md")) (L "/repo")],
     Returned (NA, NA)).
Proof.
  apply (bars_make_sentinel bar_author (L "Instructions/lab.md") (L "/repo")
           (L "Instructions/lab.md")
           (Completed 0 (L "2024-03-09 10:11:12 +0100|Jane | Doe" ++ [nl]))
           (Completed 0 (L "2024-03-09 10:11:12 +0100|Jane | Doe" ++ [nl])));
    try reflexivity; vm_compute; discriminate.
Defined.

(** * The two embeddings on documents of ASCII characters *)

Lemma of_ascii_inj (a c : ascii) : Uni.of_ascii a = Uni.of_ascii c -> a = c.
Proof.
  unfold Uni.of_ascii. intros H.
  rewrite <- (ascii_N_embedding a), <- (ascii_N_embedding c), H. reflexivity.
Qed.

Lemma of_ascii_eqb (a c : ascii) :
  (Uni.of_ascii a =? Uni.of_ascii c)%N = if ascii_dec a c then true else false.
Proof.
  destruct (ascii_dec a c) as [-> | N]; [apply N.eqb_refl |].
  apply N.eqb_neq. intros H. apply N, of_ascii_inj, H.
Qed.

Lemma of_ascii_ltb (a c : ascii) :
  (Uni.of_ascii a <? Uni.of_ascii c)%N = (code a <? code c).
Proof.
  unfold code, nat_of_ascii, Uni.of_ascii.
  destruct (N_of_ascii a <? N_of_ascii c)%N eqn:E.
  - apply N.ltb_lt in E. symmetry. apply Nat.ltb_lt. lia.
  - apply N.ltb_ge in E. symmetry. apply Nat.ltb_ge. lia.
Qed.

Lemma embed_inj (a b : str) : embed a = embed b -> a = b.
Proof.
  revert b. induction a as [| x a IH]; intros [| y b] H; try discriminate;
    [reflexivity |].
  simpl in H. injection H as Hx Ha. f_equal; [apply of_ascii_inj, Hx | apply IH, Ha].
Qed.

Lemma embed_app (a b : str) : embed (a ++ b) = embed a ++ embed b.
Proof. apply map_app. Qed.

Lemma embed_rev (a : str) : embed (rev a) = rev (embed a).
Proof. apply map_rev. Qed.

Lemma agree_on_ascii :
  forallb (fun c => if is_ascii_char c then agree_on c else true) Uni.all_ascii = true.
Proof. vm_compute. reflexivity. Qed.

Lemma in_all_ascii_chars (a : ascii) : In a Uni.all_ascii.
Proof.
  unfold Uni.all_ascii. rewrite <- (ascii_nat_embedding a). apply in_map, in_seq.
  pose proof (nat_ascii_bounded a). lia.
Qed.

Lemma agree (c : ascii) : is_ascii_char c = true -> agree_on c = true.
Proof.
  intros H. pose proof agree_on_ascii as A. rewrite forallb_forall in A.
  specialize (A c (in_all_ascii_chars c)). rewrite H in A. exact A.
Qed.

Lemma agree_space (c : ascii) :
  is_ascii_char c = true ->
  Uni.is_space Uni.python_tables (Uni.of_ascii c) = Str.is_space c.
Proof.
  intros H. apply agree in H. unfold agree_on in H.
  repeat (apply andb_true_iff in H; destruct H as [H ?]). apply eqb_prop, H.
Qed.

Lemma agree_word (c : ascii) :
  is_ascii_char c = true ->
  Uni.is_word Uni.python_tables (Uni.of_ascii c) = Str.is_word c.
Proof.
  intros H. apply agree in H. unfold agree_on in H.
  repeat (apply andb_true_iff in H; destruct H as [H ?]). apply eqb_prop. assumption.
Qed.

Lemma agree_matches (a c : ascii) :
  is_ascii_char c = true ->
  Uni.matches_ci Uni.python_tables a (Uni.of_ascii c) = eq_char IGNORECASE a c.
Proof.
  intros H. apply agree in H. unfold agree_on in H.
  repeat (apply andb_true_iff in H; destruct H as [H ?]).
  match goal with
  | F : forallb _ Uni.all_ascii = true |- _ =>
      rewrite forallb_forall in F; apply eqb_prop, F, in_all_ascii_chars
  end.
Qed.

Lemma agree_lower (c : ascii) :
  is_ascii_char c = true ->
  Uni.python_lower_char (Uni.of_ascii c) = [Uni.of_ascii (Str.lower_char c)].
Proof.
  intros H. apply agree in H. unfold agree_on in H.
  repeat (apply andb_true_iff in H; destruct H as [H ?]).
  match goal with
  | F : (if Uni.ustr_eq_dec ?x ?y then true else false) = true |- _ =>
      destruct (Uni.ustr_eq_dec x y); [assumption | discriminate]
  end.
Qed.

Lemma agree_eq_char (fl : flags) (a c : ascii) :
  is_ascii_char c = true ->
  Uni.eq_char Uni.python_tables fl a (Uni.of_ascii c) = eq_char fl a c.
Proof.
  intros H. unfold Uni.eq_char, eq_char. destruct (ignorecase fl) eqn:E.
  - rewrite (agree_matches a c H). unfold eq_char. reflexivity.
  - apply of_ascii_eqb.
Qed.

Lemma agree_nl (c : ascii) :
  (Uni.of_ascii c =? Uni.nl)%N = if ascii_dec c nl then true else false.
Proof. change Uni.nl with (Uni.of_ascii nl). apply of_ascii_eqb. Qed.

Lemma agree_cmatch (fl : flags) (k : cclass) (c : ascii) :
  is_ascii_char c = true ->
  Uni.cmatch Uni.python_tables fl k (Uni.of_ascii c) = cmatch fl k c.
Proof.
  intros H. destruct k as [a | cs | |]; cbn [Uni.cmatch cmatch].
  - apply agree_eq_char, H.
  - induction cs as [| a cs IH]; cbn [existsb]; [reflexivity |].
    rewrite IH, (agree_eq_char fl a c H). reflexivity.
  - apply agree_space, H.
  - rewrite agree_nl. destruct (dotall fl); [reflexivity |].
    destruct (ascii_dec c nl); reflexivity.
Qed.

Lemma is_ascii_app (a b : str) : is_ascii (a ++ b) = is_ascii a && is_ascii b.
Proof. apply forallb_app. Qed.

Lemma is_ascii_last_char (m : str) :
  forall prev,
    is_ascii_opt prev = true -> is_ascii m = true ->
    is_ascii_opt (last_char prev m) = true.
Proof.
  induction m as [| c m IH]; intros prev Hp Hm; [exact Hp |].
  cbn [is_ascii forallb] in Hm. apply andb_true_iff in Hm. destruct Hm as [Hc Hm].
  cbn [last_char]. apply IH; assumption.
Qed.

(** A match within a document of ASCII characters ends within it. *)
Lemma ends_ascii (fl : flags) (r : regex) (st e : mstate) :
  ascii_state st = true -> In e (ends fl r st) -> ascii_state e = true.
Proof.
  intros Hst He. destruct (ends_prev fl r st e He) as (m & E & Hp).
  unfold ascii_state in *. apply andb_true_iff in Hst. destruct Hst as [H1 H2].
  rewrite E, is_ascii_app in H2. apply andb_true_iff in H2. destruct H2 as [Hm Hr].
  rewrite Hp, Hr, (is_ascii_last_char m _ H1 Hm). reflexivity.
Qed.

Lemma embed_consumed (a b : str) :
  Uni.consumed (embed a) (embed b) = embed (consumed a b).
Proof.
  unfold Uni.consumed, consumed, embed. rewrite !length_map. apply firstn_map.
Qed.

Lemma embed_lit_ends (fl : flags) (l : str) :
  forall prev rest g,
    is_ascii rest = true ->
    Uni.lit_ends Uni.python_tables fl l (option_map Uni.of_ascii prev) (embed rest)
                 (option_map embed g)
    = map embed_state (lit_ends fl l prev rest g).
Proof.
  induction l as [| a l IH]; intros prev rest g H; cbn [Uni.lit_ends lit_ends];
    [reflexivity |].
  destruct rest as [| c tl]; [reflexivity |].
  cbn [embed map]. cbn [is_ascii forallb] in H.
  apply andb_true_iff in H. destruct H as [Hc Ht].
  rewrite (agree_eq_char fl a c Hc). destruct (eq_char fl a c); [| reflexivity].
  apply (IH (Some c) tl g Ht).
Qed.

Lemma embed_star_ends (fl : flags) (k : cclass) (greedy : bool) :
  forall rest prev g,
    is_ascii rest = true ->
    Uni.star_ends (Uni.cmatch Uni.python_tables fl k) greedy
                  (option_map Uni.of_ascii prev) (embed rest) (option_map embed g)
    = map embed_state (star_ends (cmatch fl k) greedy prev rest g).
Proof.
  induction rest as [| c tl IH]; intros prev g H; cbn [Uni.star_ends star_ends embed map];
    [reflexivity |].
  cbn [is_ascii forallb] in H. apply andb_true_iff in H. destruct H as [Hc Ht].
  rewrite (agree_cmatch fl k c Hc). destruct (cmatch fl k c); [| reflexivity].
  pose proof (IH (Some c) g Ht) as E. cbn [option_map] in E.
  fold (embed tl). rewrite E.
  destruct greedy; [rewrite map_app |]; reflexivity.
Qed.

Lemma agree_word_opt (p : option ascii) :
  is_ascii_opt p = true ->
  Uni.is_word_opt Uni.python_tables (option_map Uni.of_ascii p) = is_word_opt p.
Proof. destruct p as [c |]; [apply agree_word | reflexivity]. Qed.

Lemma agree_at_wordb (st : mstate) :
  ascii_state st = true ->
  Uni.at_wordb Uni.python_tables (embed_state st) = at_wordb st.
Proof.
  intros Hst. unfold ascii_state in Hst. apply andb_true_iff in Hst.
  destruct Hst as [Hp Hr]. destruct st as [p rest g]. cbn [m_prev m_rest] in Hp, Hr.
  unfold Uni.at_wordb, at_wordb, embed_state.
  cbn [Uni.m_prev Uni.m_rest m_prev m_rest].
  rewrite (agree_word_opt p Hp). f_equal. f_equal.
  destruct rest as [| c tl]; [reflexivity |]. cbn [embed map hd_error].
  cbn [is_ascii forallb] in Hr. apply andb_true_iff in Hr. destruct Hr as [Hc _].
  apply (agree_word c Hc).
Qed.

(** On a document of ASCII characters the matcher on code points, with the
    tables of Python, goes through the positions the matcher of [Re] goes
    through. *)
Lemma embed_ends (fl : flags) (r : regex) :
  forall st,
    ascii_state st = true ->
    Uni.ends Uni.python_tables fl r (embed_state st) = map embed_state (ends fl r st).
Proof.
  induction r as [| k | l | a IHa b IHb | a IHa b IHb | greedy k | a IHa | | |];
    intros st Hst; pose proof Hst as Hst';
    unfold ascii_state in Hst'; apply andb_true_iff in Hst'; destruct Hst' as [Hp Hr];
    cbn [Uni.ends ends].
  - reflexivity.
  - unfold embed_state at 1. cbn [Uni.m_rest Uni.m_grp].
    destruct (m_rest st) as [| c tl]; [reflexivity |].
    cbn [embed map]. cbn [is_ascii forallb] in Hr.
    apply andb_true_iff in Hr. destruct Hr as [Hc Ht].
    rewrite (agree_cmatch fl k c Hc). destruct (cmatch fl k c); reflexivity.
  - apply embed_lit_ends, Hr.
  - rewrite (IHa st Hst).
    assert (E : forall l,
               (forall mid, In mid l -> ascii_state mid = true) ->
               flat_map (Uni.ends Uni.python_tables fl b) (map embed_state l)
               = map embed_state (flat_map (ends fl b) l)).
    { induction l as [| mid l IHl]; intros Hl; [reflexivity |].
      cbn [map flat_map]. rewrite map_app, (IHb mid (Hl mid (or_introl eq_refl))), IHl;
        [reflexivity |].
      intros x Hx. apply Hl. right. exact Hx. }
    apply E. intros mid Hmid. apply (ends_ascii fl a st mid Hst Hmid).
  - rewrite map_app, (IHa st Hst), (IHb st Hst). reflexivity.
  - apply embed_star_ends, Hr.
  - rewrite (IHa st Hst), !map_map. apply map_ext. intros e.
    unfold embed_state. cbn [Uni.m_prev Uni.m_rest m_prev m_rest m_grp option_map].
    rewrite embed_consumed. reflexivity.
  - unfold Uni.at_bol, at_bol, embed_state at 1. cbn [Uni.m_prev].
    destruct (m_prev st) as [c |]; cbn [option_map]; [| reflexivity].
    rewrite agree_nl. destruct (multiline fl && _); reflexivity.
  - unfold Uni.at_eol, at_eol, embed_state at 1. cbn [Uni.m_rest].
    destruct (m_rest st) as [| c tl]; cbn [embed map]; [reflexivity |].
    rewrite agree_nl.
    assert (Et : match map Uni.of_ascii tl with [] => true | _ => false end
                 = match tl with [] => true | _ => false end) by (destruct tl; reflexivity).
    rewrite Et. destruct (_ && _); reflexivity.
  - rewrite (agree_at_wordb st Hst). destruct (at_wordb st); reflexivity.
Qed.

Lemma embed_match_at (fl : flags) (r : regex) (prev : option ascii) (rest : str) :
  is_ascii_opt prev = true -> is_ascii rest = true ->
  Uni.match_at Uni.python_tables fl r (option_map Uni.of_ascii prev) (embed rest)
  = option_map embed_match (match_at fl r prev rest).
Proof.
  intros Hp Hr. unfold Uni.match_at, match_at.
  assert (Hst : ascii_state (MState prev rest None) = true).
  { unfold ascii_state. cbn [m_prev m_rest]. rewrite Hp, Hr. reflexivity. }
  pose proof (embed_ends fl r _ Hst) as E. unfold embed_state at 1 in E.
  cbn [m_prev m_rest m_grp option_map] in E. rewrite E.
  destruct (ends fl r (MState prev rest None)) as [| e l]; [reflexivity |].
  cbn [map option_map]. unfold embed_match.
  cbn [group0 group1 m_end]. f_equal. f_equal.
  - unfold embed_state. cbn [Uni.m_rest]. apply embed_consumed.
  - unfold embed_state. cbn [Uni.m_grp]. destruct (m_grp e); reflexivity.
Qed.

Lemma match_at_ascii (fl : flags) (r : regex) (prev : option ascii) (rest : str)
      (mo : match_obj) :
  is_ascii_opt prev = true -> is_ascii rest = true ->
  match_at fl r prev rest = Some mo ->
  is_ascii (group0 mo) = true /\ ascii_state (m_end mo) = true.
Proof.
  intros Hp Hr H. unfold match_at in H.
  destruct (ends fl r (MState prev rest None)) as [| e l] eqn:E; [discriminate |].
  injection H as <-. cbn [group0 m_end].
  assert (Hst : ascii_state (MState prev rest None) = true).
  { unfold ascii_state. cbn [m_prev m_rest]. rewrite Hp, Hr. reflexivity. }
  split.
  - unfold consumed. rewrite <- (firstn_skipn (length rest - length (m_rest e)) rest) in Hr.
    rewrite is_ascii_app in Hr. apply andb_true_iff in Hr. apply Hr.
  - apply (ends_ascii fl r _ e Hst). rewrite E. left. reflexivity.
Qed.

Lemma embed_findall_from (fl : flags) (r : regex) (fuel : nat) :
  forall prev rest,
    is_ascii_opt prev = true -> is_ascii rest = true ->
    Uni.findall_from Uni.python_tables fuel fl r (option_map Uni.of_ascii prev)
                     (embed rest)
    = map embed (findall_from fuel fl r prev rest)
    /\ forallb is_ascii (findall_from fuel fl r prev rest) = true.
Proof.
  induction fuel as [| fuel IH]; intros prev rest Hp Hr; [split; reflexivity |].
  cbn [Uni.findall_from findall_from].
  rewrite (embed_match_at fl r prev rest Hp Hr).
  assert (Htl : forall c tl, rest = c :: tl ->
                  is_ascii_opt (Some c) = true /\ is_ascii tl = true).
  { intros c tl ->. cbn [is_ascii forallb] in Hr. apply andb_true_iff in Hr. exact Hr. }
  destruct (match_at fl r prev rest) as [mo |] eqn:E; cbn [option_map].
  - destruct (match_at_ascii fl r prev rest mo Hp Hr E) as [Hg He].
    unfold embed_match. cbn [Uni.group0 Uni.m_end].
    destruct (group0 mo) as [| g0 g] eqn:G; cbn [embed map].
    + destruct rest as [| c tl]; [split; reflexivity |].
      destruct (Htl c tl eq_refl) as [Hc Ht].
      destruct (IH (Some c) tl Hc Ht) as [E1 E2]. cbn [option_map] in E1.
      cbn [embed map forallb is_ascii]. fold (embed tl). rewrite E1, E2.
      split; reflexivity.
    + unfold ascii_state in He. apply andb_true_iff in He. destruct He as [H1 H2].
      destruct (IH (m_prev (m_end mo)) (m_rest (m_end mo)) H1 H2) as [E1 E2].
      unfold embed_state. cbn [Uni.m_prev Uni.m_rest]. rewrite E1.
      cbn [forallb]. rewrite Hg, E2. split; reflexivity.
  - destruct rest as [| c tl]; [split; reflexivity |].
    destruct (Htl c tl eq_refl) as [Hc Ht].
    destruct (IH (Some c) tl Hc Ht) as [E1 E2]. cbn [option_map] in E1.
    cbn [embed map]. fold (embed tl). rewrite E1, E2. split; reflexivity.
Qed.

Lemma embed_re_findall (fl : flags) (r : regex) (s : str) :
  is_ascii s = true ->
  Uni.re_findall Uni.python_tables fl r (embed s) = map embed (re_findall fl r s)
  /\ forallb is_ascii (re_findall fl r s) = true.
Proof.
  intros H. unfold Uni.re_findall, re_findall, embed at 1. rewrite length_map.
  apply (embed_findall_from fl r (S (length s)) None s eq_refl H).
Qed.

Lemma embed_lstrip (s : str) :
  is_ascii s = true ->
  Uni.lstrip Uni.python_tables (embed s) = embed (Str.lstrip s)
  /\ is_ascii (Str.lstrip s) = true.
Proof.
  induction s as [| c s IH]; intros H; [split; reflexivity |].
  pose proof H as H'. cbn [is_ascii forallb] in H'. apply andb_true_iff in H'.
  destruct H' as [Hc Hs]. cbn [embed map Uni.lstrip Str.lstrip].
  rewrite (agree_space c Hc). destruct (Str.is_space c); [apply IH, Hs |].
  split; [reflexivity | exact H].
Qed.

Lemma is_ascii_rev (s : str) : is_ascii (rev s) = is_ascii s.
Proof.
  induction s as [| c s IH]; [reflexivity |].
  cbn [rev]. rewrite is_ascii_app, IH. cbn [is_ascii forallb].
  rewrite andb_true_r. apply andb_comm.
Qed.

Lemma embed_strip (s : str) :
  is_ascii s = true ->
  Uni.strip Uni.python_tables (embed s) = embed (Str.strip s)
  /\ is_ascii (Str.strip s) = true.
Proof.
  intros H. unfold Uni.strip, Uni.rstrip, Str.strip, Str.rstrip.
  destruct (embed_lstrip s H) as [E1 H1]. rewrite E1, <- embed_rev.
  assert (H2 : is_ascii (rev (Str.lstrip s)) = true) by (rewrite is_ascii_rev; exact H1).
  destruct (embed_lstrip _ H2) as [E2 H3]. rewrite E2, <- embed_rev.
  split; [reflexivity |]. rewrite is_ascii_rev. exact H3.
Qed.

Lemma embed_set_add (x : str) (s : list str) :
  Uni.set_add (embed x) (map embed s) = map embed (set_add x s).
Proof.
  unfold Uni.set_add, set_add.
  destruct (in_dec Uni.ustr_eq_dec (embed x) (map embed s)) as [I | I];
    destruct (in_dec str_eq_dec x s) as [J | J]; try reflexivity.
  - exfalso. apply J. apply in_map_iff in I. destruct I as (y & E & Hy).
    apply embed_inj in E. subst y. exact Hy.
  - exfalso. apply I, in_map, J.
  - rewrite map_app. reflexivity.
Qed.

Lemma set_add_ascii (x : str) (s : list str) :
  is_ascii x = true -> forallb is_ascii s = true ->
  forallb is_ascii (set_add x s) = true.
Proof.
  intros Hx Hs. unfold set_add. destruct (in_dec str_eq_dec x s); [exact Hs |].
  rewrite forallb_app, Hs. cbn [forallb]. rewrite Hx. reflexivity.
Qed.

Lemma embed_tech_loop (content : str) (patterns : list regex) :
  is_ascii content = true ->
  forall acc,
    forallb is_ascii acc = true ->
    Uni.tech_loop Uni.python_tables patterns (embed content) (map embed acc)
    = map embed (tech_loop patterns content acc)
    /\ forallb is_ascii (tech_loop patterns content acc) = true.
Proof.
  intros Hc. induction patterns as [| p ps IH]; intros acc Hacc;
    [split; [reflexivity | exact Hacc] |].
  cbn [Uni.tech_loop tech_loop].
  destruct (embed_re_findall IGNORECASE p content Hc) as [E H]. rewrite E.
  destruct (re_findall IGNORECASE p content) as [| m0 ms]; cbn [map];
    [apply IH, Hacc |].
  cbn [forallb] in H. apply andb_true_iff in H. destruct H as [Hm _].
  destruct (embed_strip m0 Hm) as [Es Hs]. rewrite Es, embed_set_add.
  apply IH, set_add_ascii; assumption.
Qed.

Lemma embed_lower (s : str) :
  is_ascii s = true -> Uni.python_lower (embed s) = embed (Str.lower s).
Proof.
  induction s as [| c s IH]; intros H; [reflexivity |].
  cbn [is_ascii forallb] in H. apply andb_true_iff in H. destruct H as [Hc Hs].
  unfold Uni.python_lower in *. cbn [embed map flat_map Str.lower].
  rewrite (agree_lower c Hc). fold (embed s). rewrite (IH Hs). reflexivity.
Qed.

Lemma embed_ltb (a : str) : forall b, Uni.ltb (embed a) (embed b) = Str.ltb a b.
Proof.
  induction a as [| x a IH]; intros [| y b]; try reflexivity.
  cbn [embed map Uni.ltb Str.ltb]. rewrite !of_ascii_ltb. fold (embed a) (embed b).
  rewrite IH. reflexivity.
Qed.

Lemma embed_lower_lt (a b : str) :
  is_ascii a = true -> is_ascii b = true ->
  Uni.lower_lt Uni.python_tables (embed a) (embed b) = lower_lt a b.
Proof.
  intros Ha Hb. unfold Uni.lower_lt, lower_lt. cbn [Uni.lower Uni.python_tables].
  rewrite (embed_lower a Ha), (embed_lower b Hb). apply embed_ltb.
Qed.

Lemma embed_insert_sorted (x : str) (l : list str) :
  is_ascii x = true -> forallb is_ascii l = true ->
  insert_sorted (Uni.lower_lt Uni.python_tables) (embed x) (map embed l)
  = map embed (insert_sorted lower_lt x l).
Proof.
  intros Hx. induction l as [| y l IH]; intros Hl; [reflexivity |].
  cbn [forallb] in Hl. apply andb_true_iff in Hl. destruct Hl as [Hy Hl].
  cbn [map insert_sorted]. rewrite (embed_lower_lt y x Hy Hx).
  destruct (lower_lt y x); cbn [map]; [rewrite (IH Hl) |]; reflexivity.
Qed.

Lemma embed_sorted (l : list str) :
  forallb is_ascii l = true ->
  sorted (Uni.lower_lt Uni.python_tables) (map embed l)
  = map embed (sorted lower_lt l).
Proof.
  induction l as [| x l IH]; intros Hl; [reflexivity |].
  cbn [forallb] in Hl. apply andb_true_iff in Hl. destruct Hl as [Hx Hl].
  unfold sorted in *. cbn [map fold_right]. rewrite (IH Hl).
  apply embed_insert_sorted; [exact Hx |].
  apply forallb_forall. intros y Hy.
  rewrite forallb_forall in Hl. apply Hl.
  apply (Permutation_in _ (sorted_perm str lower_lt l)). exact Hy.
Qed.

Lemma embed_join (sep : str) (l : list str) :
  Uni.join (embed sep) (map embed l) = embed (Str.join sep l).
Proof.
  induction l as [| p l IH]; [reflexivity |].
  destruct l as [| q l]; [reflexivity |].
  change (Uni.join (embed sep) (map embed (p :: q :: l)))
    with (embed p ++ embed sep ++ Uni.join (embed sep) (map embed (q :: l))).
  change (Str.join sep (p :: q :: l)) with (p ++ sep ++ Str.join sep (q :: l)).
  rewrite IH, !embed_app. reflexivity.
Qed.

(** X19. On a document of ASCII characters the two embeddings of
    [extract_technologies] give the same field: the one on code points,
    run with the tables of Python, returns the characters the one on
    ASCII characters returns, when both read the set of labels in the
    same order. *)
Theorem ascii_documents_agree
        (iter : list str -> list str) (uiter : list Uni.ustr -> list Uni.ustr)
        (Hiter : forall l, Permutation (iter l) l)
        (Huiter : forall l, uiter (map embed l) = map embed (iter l))
        (content : str) (Hascii : is_ascii content = true) :
  Uni.extract_technologies Uni.python_tables uiter (embed content)
  = embed (extract_technologies iter content).
Proof.
  unfold Uni.extract_technologies, extract_technologies.
  destruct (embed_tech_loop content tech_patterns Hascii [] eq_refl) as [E H].
  cbn [map] in E. rewrite E.
  destruct (tech_loop tech_patterns content []) as [| t ts] eqn:Et; [reflexivity |].
  cbn [map]. change (embed t :: map embed ts) with (map embed (t :: ts)).
  rewrite Huiter, embed_sorted.
  - apply (embed_join (L ", ")).
  - apply forallb_forall. intros y Hy. rewrite forallb_forall in H. apply H.
    apply (Permutation_in _ (Hiter (t :: ts))). exact Hy.
Qed.

(** A document that names two technologies, the set read backwards. *)
Lemma ascii_documents_agree_witness :
  Uni.extract_technologies Uni.python_tables (@rev Uni.ustr)
                           (embed (L "Use rag with Azure OpenAI."))
  = embed (L "Azure OpenAI, rag").
Proof.
  rewrite (ascii_documents_agree (@rev str) (@rev Uni.ustr)
             (fun l => Permutation_sym (Permutation_rev l))
             (fun l => eq_sym (map_rev embed l))
             (L "Use rag with Azure OpenAI.") eq_refl).
  reflexivity.
Defined.

(** * The technologies of a document of any script *)

Import Uni.

Section UniFacts.
Variable T : tables.

(** ** The matcher *)

Lemma uni_consumed_app (m rest : ustr) : consumed (m ++ rest) rest = m.
Proof.
  unfold consumed. rewrite length_app.
  replace (length m + length rest - length rest) with (length m + 0) by lia.
  rewrite firstn_app_2. simpl. apply app_nil_r.
Qed.

Lemma uni_lit_ends_between (fl : flags) (l : str) :
  forall prev rest g e,
    In e (lit_ends T fl l prev rest g) ->
    exists m, rest = m ++ m_rest e /\ length m = length l /\ m_grp e = g.
Proof.
  induction l as [| a l IH]; intros prev rest g e; simpl.
  - intros [<- | []]. exists []. auto.
  - destruct rest as [| c tl]; [intros [] |].
    destruct (eq_char T fl a c); [| intros []].
    intros H. destruct (IH _ _ _ _ H) as (m & -> & Hl & Hg).
    exists (c :: m). simpl. auto.
Qed.

Lemma uni_star_ends_between (p : char -> bool) (greedy : bool) :
  forall rest prev g e,
    In e (star_ends p greedy prev rest g) ->
    exists m, rest = m ++ m_rest e /\ forallb p m = true /\ m_grp e = g.
Proof.
  induction rest as [| c tl IH]; intros prev g e; simpl.
  - intros [<- | []]. exists []. auto.
  - destruct (p c) eqn:Hc.
    + intros H.
      assert (H' : e = MState prev (c :: tl) g \/ In e (star_ends p greedy (Some c) tl g)).
      { destruct greedy.
        - apply in_app_or in H. destruct H as [H | [H | []]]; auto.
        - destruct H as [H | H]; auto. }
      destruct H' as [-> | H'].
      * exists []. auto.
      * destruct (IH _ _ _ H') as (m & -> & Hm & Hg).
        exists (c :: m). simpl. rewrite Hc. auto.
    + intros [<- | []]. exists []. auto.
Qed.

(** Every end of a match is further on in the subject. *)
Lemma uni_ends_between (fl : flags) (r : regex) :
  forall st e, In e (ends T fl r st) -> exists m, m_rest st = m ++ m_rest e.
Proof.
  induction r as [| k | l | a IHa b IHb | a IHa b IHb | greedy k | a IHa | | |];
    intros st e; simpl.
  - intros [<- | []]. exists []. reflexivity.
  - destruct (m_rest st) as [| c tl]; [intros [] |].
    destruct (cmatch T fl k c); [| intros []].
    intros [<- | []]. exists [c]. reflexivity.
  - intros H. destruct (uni_lit_ends_between _ _ _ _ _ _ H) as (m & E & _). eauto.
  - intros H. apply in_flat_map in H. destruct H as (mid & H1 & H2).
    destruct (IHa _ _ H1) as (m1 & E1). destruct (IHb _ _ H2) as (m2 & E2).
    exists (m1 ++ m2). rewrite E1, E2. apply app_assoc.
  - intros H. apply in_app_or in H. destruct H; eauto.
  - intros H. destruct (uni_star_ends_between _ _ _ _ _ _ H) as (m & E & _). eauto.
  - intros H. apply in_map_iff in H. destruct H as (e' & <- & H).
    destruct (IHa _ _ H) as (m & E). exists m. exact E.
  - destruct (at_bol fl st); [| intros []]. intros [<- | []]. exists []. reflexivity.
  - destruct (at_eol fl st); [| intros []]. intros [<- | []]. exists []. reflexivity.
  - destruct (at_wordb T st); [| intros []]. intros [<- | []]. exists []. reflexivity.
Qed.

(** The text of a reported match lies in the subject where it was found. *)
Lemma uni_match_at_between (fl : flags) (r : regex) (prev : option char) (rest : ustr)
      (mo : match_obj) :
  match_at T fl r prev rest = Some mo ->
  rest = group0 mo ++ m_rest (m_end mo).
Proof.
  unfold match_at. destruct (ends T fl r (MState prev rest None)) as [| e l] eqn:E;
    [discriminate |].
  intros H. inversion H; subst; clear H. simpl.
  assert (Hin : In e (ends T fl r (MState prev rest None))) by (rewrite E; left; reflexivity).
  destruct (uni_ends_between _ _ _ _ Hin) as (m & Hm). simpl in Hm.
  rewrite Hm at 2. rewrite uni_consumed_app. exact Hm.
Qed.

Lemma uni_hd_rev_snoc (pre : ustr) (c : char) : hd_error (rev (pre ++ [c])) = Some c.
Proof. rewrite rev_app_distr. reflexivity. Qed.

(** [re.search] reports the match at the leftmost position that has one. *)
Lemma uni_search_from_first (fl : flags) (r : regex) :
  forall rest pre mo,
    search_from T fl r (hd_error (rev pre)) rest = Some mo ->
    exists skip rest',
      rest = skip ++ rest'
      /\ match_at T fl r (hd_error (rev (pre ++ skip))) rest' = Some mo
      /\ (forall a b, skip = a ++ b -> b <> [] ->
            match_at T fl r (hd_error (rev (pre ++ a))) (b ++ rest') = None).
Proof.
  induction rest as [| c tl IH]; intros pre mo; simpl.
  - destruct (match_at T fl r (hd_error (rev pre)) []) as [m |] eqn:E; [| discriminate].
    intros H. inversion H; subst; clear H.
    exists [], []. split; [reflexivity |]. rewrite app_nil_r. split; [exact E |].
    intros a b Hab Hb. destruct a; destruct b; simpl in Hab; congruence.
  - destruct (match_at T fl r (hd_error (rev pre)) (c :: tl)) as [m |] eqn:E.
    + intros H. inversion H; subst; clear H.
      exists [], (c :: tl). split; [reflexivity |]. rewrite app_nil_r. split; [exact E |].
      intros a b Hab Hb. destruct a; destruct b; simpl in Hab; congruence.
    + intros H. rewrite <- (uni_hd_rev_snoc pre c) in H.
      destruct (IH _ _ H) as (skip & rest' & -> & Hm & Hno).
      exists (c :: skip), rest'. split; [reflexivity |].
      rewrite <- app_assoc in Hm. split; [exact Hm |].
      intros a b Hab Hb. destruct a as [| x a].
      * simpl in Hab. subst b. rewrite app_nil_r. simpl. exact E.
      * simpl in Hab. injection Hab as Hx Hs. subst x.
        replace (pre ++ c :: a) with ((pre ++ [c]) ++ a) by (rewrite <- app_assoc; reflexivity).
        apply Hno; auto.
Qed.

Lemma uni_search_from_none (fl : flags) (r : regex) :
  forall rest pre,
    search_from T fl r (hd_error (rev pre)) rest = None ->
    forall a b, rest = a ++ b -> match_at T fl r (hd_error (rev (pre ++ a))) b = None.
Proof.
  induction rest as [| c tl IH]; intros pre; simpl.
  - destruct (match_at T fl r (hd_error (rev pre)) []) eqn:E; [discriminate |].
    intros _ a b Hab. destruct a; destruct b; simpl in Hab; try discriminate.
    rewrite app_nil_r. exact E.
  - destruct (match_at T fl r (hd_error (rev pre)) (c :: tl)) eqn:E; [discriminate |].
    intros H a b Hab. destruct a as [| x a].
    + simpl in Hab. subst b. rewrite app_nil_r. exact E.
    + simpl in Hab. injection Hab as Hx Hs. subst x.
      rewrite <- (uni_hd_rev_snoc pre c) in H.
      replace (pre ++ c :: a) with ((pre ++ [c]) ++ a) by (rewrite <- app_assoc; reflexivity).
      apply (IH _ H). exact Hs.
Qed.

Lemma uni_re_search_first (fl : flags) (r : regex) (s : ustr) (mo : match_obj) :
  re_search T fl r s = Some mo -> first_match T fl r s (group0 mo).
Proof.
  intros H. destruct (uni_search_from_first fl r s [] mo H) as (skip & rest' & -> & Hm & Hno).
  simpl in Hm. pose proof (uni_match_at_between _ _ _ _ _ Hm) as E.
  exists skip, (m_rest (m_end mo)), mo. rewrite <- E.
  split; [reflexivity | split; [exact Hm | split; [reflexivity | exact Hno]]].
Qed.

Lemma uni_re_search_none (fl : flags) (r : regex) (s : ustr) :
  re_search T fl r s = None -> no_match T fl r s.
Proof. intros H pre rest E. apply (uni_search_from_none fl r s [] H pre rest E). Qed.

(** The first element of [re.findall] is the match of [re.search]. *)
Lemma uni_findall_from_head (fl : flags) (r : regex) :
  forall rest fuel prev,
    length rest < fuel ->
    hd_error (findall_from T fuel fl r prev rest)
    = option_map group0 (search_from T fl r prev rest).
Proof.
  induction rest as [| c tl IH]; intros [| fuel] prev Hf; try (simpl in Hf; lia).
  - simpl. destruct (match_at T fl r prev []) as [m |]; [| reflexivity].
    destruct (group0 m) eqn:E; simpl; rewrite ?E; reflexivity.
  - simpl. destruct (match_at T fl r prev (c :: tl)) as [m |].
    + destruct (group0 m) eqn:E; simpl; rewrite ?E; reflexivity.
    + apply IH. simpl in Hf. lia.
Qed.

Lemma uni_re_findall_head (fl : flags) (r : regex) (s : ustr) :
  hd_error (re_findall T fl r s) = option_map group0 (re_search T fl r s).
Proof. apply uni_findall_from_head. lia. Qed.

Lemma uni_search_from_skip (fl : flags) (r : regex) (rest' : ustr) :
  forall skip pre,
    (forall a b, skip = a ++ b -> b <> [] ->
       match_at T fl r (hd_error (rev (pre ++ a))) (b ++ rest') = None) ->
    search_from T fl r (hd_error (rev pre)) (skip ++ rest')
    = search_from T fl r (hd_error (rev (pre ++ skip))) rest'.
Proof.
  induction skip as [| c skip IH]; intros pre H; simpl.
  - rewrite app_nil_r. reflexivity.
  - assert (E : match_at T fl r (hd_error (rev pre)) (c :: skip ++ rest') = None).
    { specialize (H [] (c :: skip) eq_refl). rewrite app_nil_r in H.
      apply H. discriminate. }
    rewrite E, <- (uni_hd_rev_snoc pre c).
    replace (pre ++ c :: skip) with ((pre ++ [c]) ++ skip)
      by (rewrite <- app_assoc; reflexivity).
    apply IH. intros a b Hab Hb. rewrite <- app_assoc. simpl.
    apply (H (c :: a) b); [simpl; congruence | exact Hb].
Qed.

Lemma uni_search_from_here (fl : flags) (r : regex) (prev : option char) (rest : ustr)
      (mo : match_obj) :
  match_at T fl r prev rest = Some mo -> search_from T fl r prev rest = Some mo.
Proof. intros H. destruct rest; simpl; rewrite H; reflexivity. Qed.

Lemma uni_first_match_search (fl : flags) (r : regex) (s m : ustr) :
  first_match T fl r s m ->
  exists mo, re_search T fl r s = Some mo /\ group0 mo = m.
Proof.
  intros (pre & post & mo & -> & Hm & Hg & Hno). exists mo. split; [| exact Hg].
  unfold re_search. pose proof (uni_search_from_skip fl r (m ++ post) pre [] Hno) as E.
  simpl in E. rewrite E. apply uni_search_from_here. exact Hm.
Qed.

(** ** The labels *)

Lemma uni_label_of_first_match (pattern : regex) (content l : ustr) :
  label_of T pattern content = Some l <->
  exists m, first_match T IGNORECASE pattern content m /\ l = strip T m.
Proof.
  unfold label_of. split.
  - destruct (re_search T IGNORECASE pattern content) as [mo |] eqn:E; [| discriminate].
    intros H. inversion H; subst. exists (group0 mo). split; [| reflexivity].
    apply uni_re_search_first, E.
  - intros (m & Hm & ->). destruct (uni_first_match_search _ _ _ _ Hm) as (mo & -> & ->).
    reflexivity.
Qed.

Lemma uni_label_of_none (pattern : regex) (content : ustr) :
  label_of T pattern content = None -> no_match T IGNORECASE pattern content.
Proof.
  unfold label_of.
  destruct (re_search T IGNORECASE pattern content) eqn:E; [discriminate |].
  intros _. apply uni_re_search_none, E.
Qed.

Lemma uni_in_first_labels (patterns : list regex) (content l : ustr) :
  In l (first_labels T patterns content) <->
  exists pattern, In pattern patterns /\ label_of T pattern content = Some l.
Proof.
  unfold first_labels. rewrite in_flat_map. split.
  - intros (p & Hp & Hl). exists p. split; [exact Hp |].
    destruct (label_of T p content) as [l' |]; [| contradiction].
    destruct Hl as [-> | []]. reflexivity.
  - intros (p & Hp & Hl). exists p. split; [exact Hp |]. rewrite Hl. left. reflexivity.
Qed.

Lemma uni_first_labels_length (patterns : list regex) (content : ustr) :
  length (first_labels T patterns content) <= length patterns.
Proof.
  induction patterns as [| p ps IH]; simpl; [lia |].
  rewrite length_app. destruct (label_of T p content); simpl; lia.
Qed.

Lemma uni_first_labels_nil (patterns : list regex) (content : ustr) :
  first_labels T patterns content = [] ->
  forall pattern, In pattern patterns -> no_match T IGNORECASE pattern content.
Proof.
  induction patterns as [| p ps IH]; simpl; intros H q Hq; [contradiction |].
  apply app_eq_nil in H. destruct H as [H1 H2].
  destruct Hq as [<- | Hq]; [| apply IH; assumption].
  apply uni_label_of_none. destruct (label_of T p content); [discriminate | reflexivity].
Qed.

(** The loop over the patterns adds the labels of the patterns that match,
    in their order. *)
Lemma uni_tech_loop_first_labels (content : ustr) (patterns : list regex) :
  forall technologies,
    tech_loop T patterns content technologies
    = fold_left (fun acc l => set_add l acc) (first_labels T patterns content)
                technologies.
Proof.
  induction patterns as [| p ps IH]; intros acc; simpl; [reflexivity |].
  rewrite fold_left_app. unfold label_of.
  pose proof (uni_re_findall_head IGNORECASE p content) as H.
  destruct (re_findall T IGNORECASE p content) as [| m0 l];
    destruct (re_search T IGNORECASE p content) as [mo |]; simpl in H; try discriminate.
  - apply IH.
  - inversion H; subst. simpl. apply IH.
Qed.

(** The set holds each label once. *)
Lemma uni_fold_set_add (l : list ustr) :
  forall acc,
    NoDup acc ->
    NoDup (fold_left (fun acc x => set_add x acc) l acc)
    /\ (forall x, In x (fold_left (fun acc x => set_add x acc) l acc)
                  <-> In x acc \/ In x l)
    /\ length (fold_left (fun acc x => set_add x acc) l acc) <= length acc + length l.
Proof.
  induction l as [| y l IH]; intros acc N; simpl.
  - split; [exact N |]. split; [intros x; tauto | lia].
  - assert (N' : NoDup (set_add y acc)).
    { unfold set_add. destruct (in_dec ustr_eq_dec y acc) as [Hin | Hout]; [exact N |].
      apply NoDup_app; [exact N | repeat constructor; intros [] |].
      intros x Hx [<- | []]. contradiction. }
    destruct (IH _ N') as (H1 & H2 & H3). split; [exact H1 |]. split.
    + intros x. rewrite H2. unfold set_add.
      destruct (in_dec ustr_eq_dec y acc) as [Hin | Hout].
      * split; [tauto |]. intros [H | [<- | H]]; auto.
      * rewrite in_app_iff. simpl. tauto.
    + assert (length (set_add y acc) <= S (length acc)).
      { unfold set_add. destruct (in_dec ustr_eq_dec y acc); [lia |].
        rewrite length_app. simpl. lia. }
      lia.
Qed.

(** ** The order of the keys *)

Lemma uni_ltb_irrefl (a : ustr) : ltb a a = false.
Proof.
  induction a as [| x a IH]; simpl; [reflexivity |].
  rewrite N.ltb_irrefl. exact IH.
Qed.

Lemma uni_ltb_trans (a b c : ustr) :
  ltb a b = true -> ltb b c = true -> ltb a c = true.
Proof.
  revert b c. induction a as [| x a IH]; intros [| y b] [| z c]; simpl;
    try congruence.
  destruct (x <? y)%N eqn:Exy.
  - intros _. apply N.ltb_lt in Exy.
    destruct (y <? z)%N eqn:Eyz.
    + intros _. apply N.ltb_lt in Eyz.
      assert (H : (x <? z)%N = true) by (apply N.ltb_lt; lia).
      rewrite H. reflexivity.
    + destruct (z <? y)%N eqn:Ezy; [discriminate |].
      apply N.ltb_ge in Eyz, Ezy. intros _.
      assert (H : (x <? z)%N = true) by (apply N.ltb_lt; lia).
      rewrite H. reflexivity.
  - destruct (y <? x)%N eqn:Eyx; [discriminate |].
    apply N.ltb_ge in Exy, Eyx. intros Hab.
    destruct (y <? z)%N eqn:Eyz.
    + intros _. apply N.ltb_lt in Eyz.
      assert (H : (x <? z)%N = true) by (apply N.ltb_lt; lia).
      rewrite H. reflexivity.
    + destruct (z <? y)%N eqn:Ezy; [discriminate |].
      apply N.ltb_ge in Eyz, Ezy. intros Hbc.
      assert (H1 : (x <? z)%N = false) by (apply N.ltb_ge; lia).
      assert (H2 : (z <? x)%N = false) by (apply N.ltb_ge; lia).
      rewrite H1, H2. eapply IH; eassumption.
Qed.

Lemma uni_ltb_total (a b : ustr) : ltb a b = false -> ltb b a = false -> a = b.
Proof.
  revert b. induction a as [| x a IH]; intros [| y b]; simpl; try congruence.
  destruct (x <? y)%N eqn:Exy; [discriminate |].
  destruct (y <? x)%N eqn:Eyx; [discriminate |].
  apply N.ltb_ge in Exy, Eyx. intros H1 H2.
  assert (x = y) by lia. subst y.
  f_equal. apply IH; assumption.
Qed.

Lemma uni_lower_lt_irrefl (a : ustr) : lower_lt T a a = false.
Proof. apply uni_ltb_irrefl. Qed.

Lemma uni_lower_lt_trans (a b c : ustr) :
  lower_lt T a b = true -> lower_lt T b c = true -> lower_lt T a c = true.
Proof. apply uni_ltb_trans. Qed.

Lemma uni_lower_lt_cotrans (a b c : ustr) :
  lower_lt T a b = false -> lower_lt T b c = false -> lower_lt T a c = false.
Proof.
  unfold lower_lt.
  apply (cotrans_of_total _ ltb uni_ltb_irrefl uni_ltb_trans uni_ltb_total).
Qed.

(** ** Stripping *)

Lemma uni_lstrip_infix (s : ustr) :
  exists a, s = a ++ lstrip T s /\ forallb (is_space T) a = true.
Proof.
  induction s as [| c s (a & E & Ha)]; simpl.
  - exists []. auto.
  - destruct (is_space T c) eqn:Ec.
    + exists (c :: a). simpl. rewrite Ec, Ha. split; [congruence | reflexivity].
    + exists []. auto.
Qed.

(** [strip] takes whitespace away at both ends and nothing else. *)
Lemma uni_strip_infix (s : ustr) :
  exists a b, s = a ++ strip T s ++ b
              /\ forallb (is_space T) a = true /\ forallb (is_space T) b = true.
Proof.
  unfold strip, rstrip.
  destruct (uni_lstrip_infix s) as (a & Ea & Ha).
  destruct (uni_lstrip_infix (rev (lstrip T s))) as (b & Eb & Hb).
  exists a, (rev b). split; [| split; [exact Ha |]].
  - rewrite Ea at 1. f_equal. rewrite <- rev_app_distr, <- Eb, rev_involutive.
    reflexivity.
  - rewrite forallb_forall in Hb |- *. intros x Hx. apply Hb, in_rev, Hx.
Qed.

(** A label stands in the document as it is. *)
Lemma uni_label_of_infix (pattern : regex) (content l : ustr) :
  label_of T pattern content = Some l ->
  exists before after, content = before ++ l ++ after.
Proof.
  intros H. apply uni_label_of_first_match in H.
  destruct H as (m & (pre & post & mo & -> & _) & ->).
  destruct (uni_strip_infix m) as (a & b & E & _).
  exists (pre ++ a), (b ++ post). rewrite E at 1. rewrite <- !app_assoc. reflexivity.
Qed.

(** ** The result *)

Lemma uni_technologies (content : ustr) :
  let technologies := tech_loop T tech_patterns content [] in
  NoDup technologies
  /\ (forall l, In l technologies <-> In l (first_labels T tech_patterns content))
  /\ length technologies <= 19.
Proof.
  intros technologies. subst technologies. rewrite uni_tech_loop_first_labels.
  destruct (uni_fold_set_add (first_labels T tech_patterns content) [] (NoDup_nil _))
    as (H1 & H2 & H3).
  split; [exact H1 |]. split.
  - intros l. rewrite H2. simpl. tauto.
  - pose proof (uni_first_labels_length tech_patterns content) as H.
    change (length tech_patterns) with 19 in H.
    change (@length ustr []) with 0 in H3. lia.
Qed.

End UniFacts.

(** ** Matching with [IGNORECASE] does not see the case of ASCII letters *)

Lemma ascii_lower_nl (c1 c2 : char) :
  ascii_lower c1 = ascii_lower c2 -> (c1 =? nl)%N = (c2 =? nl)%N.
Proof.
  unfold ascii_lower, nl. intros H.
  destruct ((65 <=? c1) && (c1 <=? 90))%N eqn:E1;
    destruct ((65 <=? c2) && (c2 <=? 90))%N eqn:E2;
    repeat match goal with
           | H : (_ && _)%bool = true |- _ => apply andb_true_iff in H; destruct H
           | H : (_ && _)%bool = false |- _ => apply andb_false_iff in H
           | H : (_ <=? _)%N = true |- _ => apply N.leb_le in H
           end;
    destruct (c1 =? 10)%N eqn:A1; destruct (c2 =? 10)%N eqn:A2; try reflexivity;
    try apply N.eqb_eq in A1; try apply N.eqb_eq in A2;
    try apply N.eqb_neq in A1; try apply N.eqb_neq in A2; exfalso; lia.
Qed.

Lemma map_lower_length (a b : ustr) :
  map ascii_lower a = map ascii_lower b -> length a = length b.
Proof.
  intros H. rewrite <- (length_map ascii_lower a), <- (length_map ascii_lower b), H.
  reflexivity.
Qed.

Lemma uni_consumed_ci (a1 a2 b1 b2 : ustr) :
  map ascii_lower a1 = map ascii_lower a2 -> map ascii_lower b1 = map ascii_lower b2 ->
  map ascii_lower (consumed a1 b1) = map ascii_lower (consumed a2 b2).
Proof.
  intros Ha Hb. unfold consumed.
  rewrite <- !firstn_map, Ha, (map_lower_length _ _ Ha), (map_lower_length _ _ Hb).
  reflexivity.
Qed.

Section UniCase.
Variable T : tables.
Hypothesis Hcase : ignores_ascii_case T.

Lemma uni_eq_char_ci (fl : flags) (a : ascii) (c1 c2 : char) :
  ignorecase fl = true -> ascii_lower c1 = ascii_lower c2 ->
  eq_char T fl a c1 = eq_char T fl a c2.
Proof.
  unfold eq_char. intros -> Hc. destruct (Hcase c1 c2 Hc) as (_ & _ & H). apply H.
Qed.

Lemma uni_cmatch_ci (fl : flags) (k : cclass) (c1 c2 : char) :
  ignorecase fl = true -> ascii_lower c1 = ascii_lower c2 ->
  cmatch T fl k c1 = cmatch T fl k c2.
Proof.
  intros Hfl Hc. destruct k as [a | cs | |]; simpl.
  - apply uni_eq_char_ci; assumption.
  - induction cs as [| a cs IH]; simpl; [reflexivity |].
    rewrite IH, (uni_eq_char_ci fl a c1 c2 Hfl Hc). reflexivity.
  - destruct (Hcase c1 c2 Hc) as (H & _). exact H.
  - rewrite (ascii_lower_nl c1 c2 Hc). reflexivity.
Qed.

Lemma uni_is_word_opt_ci (p1 p2 : option char) :
  option_map ascii_lower p1 = option_map ascii_lower p2 ->
  is_word_opt T p1 = is_word_opt T p2.
Proof.
  destruct p1 as [c1 |]; destruct p2 as [c2 |]; simpl; try discriminate;
    [| reflexivity].
  intros H. injection H as H. destruct (Hcase c1 c2 H) as (_ & Hw & _). exact Hw.
Qed.

Lemma uni_lit_ends_ci (fl : flags) (l : str) :
  ignorecase fl = true ->
  forall p1 p2 r1 r2 g1 g2,
    same_but_case (MState p1 r1 g1) (MState p2 r2 g2) ->
    Forall2 same_but_case (lit_ends T fl l p1 r1 g1) (lit_ends T fl l p2 r2 g2).
Proof.
  intros Hfl. induction l as [| a l IH]; intros p1 p2 r1 r2 g1 g2 H; simpl.
  - constructor; [exact H | constructor].
  - destruct H as (Hp & Hr & Hg). simpl in *.
    destruct r1 as [| c1 t1]; destruct r2 as [| c2 t2]; try discriminate;
      [constructor |].
    simpl in Hr. injection Hr as Hc Ht.
    rewrite (uni_eq_char_ci fl a c1 c2 Hfl Hc).
    destruct (eq_char T fl a c2); [| constructor].
    apply IH. repeat split; simpl; congruence.
Qed.

Lemma uni_star_ends_ci (fl : flags) (k : cclass) (greedy : bool) :
  ignorecase fl = true ->
  forall r1 r2 p1 p2 g1 g2,
    same_but_case (MState p1 r1 g1) (MState p2 r2 g2) ->
    Forall2 same_but_case (star_ends (cmatch T fl k) greedy p1 r1 g1)
            (star_ends (cmatch T fl k) greedy p2 r2 g2).
Proof.
  intros Hfl. induction r1 as [| c1 t1 IH]; intros r2 p1 p2 g1 g2 H;
    pose proof H as (Hp & Hr & Hg); simpl in Hp, Hr, Hg;
    destruct r2 as [| c2 t2]; try discriminate; simpl.
  - constructor; [exact H | constructor].
  - simpl in Hr. injection Hr as Hc Ht.
    rewrite (uni_cmatch_ci fl k c1 c2 Hfl Hc).
    destruct (cmatch T fl k c2); [| constructor; [exact H | constructor]].
    assert (IH' : Forall2 same_but_case
                    (star_ends (cmatch T fl k) greedy (Some c1) t1 g1)
                    (star_ends (cmatch T fl k) greedy (Some c2) t2 g2)).
    { apply IH. repeat split; simpl; congruence. }
    destruct greedy.
    + apply Forall2_app; [exact IH' | constructor; [exact H | constructor]].
    + constructor; [exact H | exact IH'].
Qed.

Lemma uni_ends_ci (fl : flags) (r : regex) :
  ignorecase fl = true ->
  forall s1 s2, same_but_case s1 s2 ->
    Forall2 same_but_case (ends T fl r s1) (ends T fl r s2).
Proof.
  intros Hfl.
  induction r as [| k | l | a IHa b IHb | a IHa b IHb | greedy k | a IHa | | |];
    intros s1 s2 H; pose proof H as (Hp & Hr & Hg); simpl.
  - constructor; [exact H | constructor].
  - destruct (m_rest s1) as [| c1 t1]; destruct (m_rest s2) as [| c2 t2];
      try discriminate; [constructor |].
    simpl in Hr. injection Hr as Hc Ht.
    rewrite (uni_cmatch_ci fl k c1 c2 Hfl Hc).
    destruct (cmatch T fl k c2); constructor; [| constructor].
    repeat split; simpl; congruence.
  - apply uni_lit_ends_ci; [exact Hfl |]. repeat split; assumption.
  - apply Forall2_flat_map with (R := same_but_case); [exact IHb | apply IHa, H].
  - apply Forall2_app; [apply IHa, H | apply IHb, H].
  - apply uni_star_ends_ci; [exact Hfl |]. repeat split; assumption.
  - specialize (IHa _ _ H). induction IHa as [| e1 e2 l1 l2 He _ IH]; simpl;
      constructor; [| exact IH].
    destruct He as (Hp' & Hr' & Hg'). repeat split; simpl; try assumption.
    f_equal. apply uni_consumed_ci; assumption.
  - unfold at_bol. destruct (m_prev s1) as [c1 |]; destruct (m_prev s2) as [c2 |];
      try discriminate.
    + simpl in Hp. injection Hp as Hc. rewrite (ascii_lower_nl c1 c2 Hc).
      destruct (multiline fl && _); constructor; [exact H | constructor].
    + constructor; [exact H | constructor].
  - unfold at_eol. destruct (m_rest s1) as [| c1 t1]; destruct (m_rest s2) as [| c2 t2];
      try discriminate.
    + constructor; [exact H | constructor].
    + simpl in Hr. injection Hr as Hc Ht. rewrite (ascii_lower_nl c1 c2 Hc).
      assert (Et : match t1 with [] => true | _ => false end
                   = match t2 with [] => true | _ => false end).
      { destruct t1; destruct t2; try discriminate; reflexivity. }
      rewrite Et. destruct (_ && _); constructor; [exact H | constructor].
  - unfold at_wordb. rewrite (uni_is_word_opt_ci _ _ Hp).
    assert (Eh : is_word_opt T (hd_error (m_rest s1))
                 = is_word_opt T (hd_error (m_rest s2))).
    { apply uni_is_word_opt_ci.
      destruct (m_rest s1); destruct (m_rest s2); try discriminate; simpl;
        [reflexivity |]. simpl in Hr. congruence. }
    rewrite Eh. destruct (negb _); constructor; [exact H | constructor].
Qed.

Lemma uni_match_at_ci (fl : flags) (r : regex) (p1 p2 : option char) (r1 r2 : ustr) :
  ignorecase fl = true ->
  option_map ascii_lower p1 = option_map ascii_lower p2 ->
  map ascii_lower r1 = map ascii_lower r2 ->
  same_match_but_case (match_at T fl r p1 r1) (match_at T fl r p2 r2).
Proof.
  intros Hfl Hp Hr. unfold match_at.
  assert (H : same_but_case (MState p1 r1 None) (MState p2 r2 None))
    by (repeat split; assumption).
  destruct (uni_ends_ci fl r Hfl _ _ H) as [| e1 e2 l1 l2 He _]; simpl; [exact I |].
  pose proof He as (Hp' & Hr' & Hg'). split; [| exact He].
  apply uni_consumed_ci; assumption.
Qed.

Lemma uni_search_from_ci (fl : flags) (r : regex) :
  ignorecase fl = true ->
  forall r1 r2 p1 p2,
    option_map ascii_lower p1 = option_map ascii_lower p2 ->
    map ascii_lower r1 = map ascii_lower r2 ->
    same_match_but_case (search_from T fl r p1 r1) (search_from T fl r p2 r2).
Proof.
  intros Hfl. induction r1 as [| c1 t1 IH]; intros r2 p1 p2 Hp Hr;
    destruct r2 as [| c2 t2]; try discriminate; simpl;
    pose proof (uni_match_at_ci fl r p1 p2 _ _ Hfl Hp Hr) as Hm;
    destruct (match_at T fl r p1 _) as [m1 |]; destruct (match_at T fl r p2 _) as [m2 |];
    simpl in Hm; try contradiction; try exact Hm.
  simpl in Hr. injection Hr as Hc Ht. apply IH; simpl; congruence.
Qed.

Lemma uni_lstrip_ci :
  forall s1 s2,
    map ascii_lower s1 = map ascii_lower s2 ->
    map ascii_lower (lstrip T s1) = map ascii_lower (lstrip T s2).
Proof.
  induction s1 as [| c1 s1 IH]; intros [| c2 s2] H; try discriminate; [reflexivity |].
  simpl in H. injection H as Hc Hs. cbn [lstrip].
  destruct (Hcase c1 c2 Hc) as (Hsp & _). rewrite Hsp.
  destruct (is_space T c2); [apply IH, Hs |]. simpl. congruence.
Qed.

Lemma uni_strip_ci (s1 s2 : ustr) :
  map ascii_lower s1 = map ascii_lower s2 ->
  map ascii_lower (strip T s1) = map ascii_lower (strip T s2).
Proof.
  intros H. unfold strip, rstrip. rewrite !map_rev. f_equal.
  apply uni_lstrip_ci. rewrite !map_rev. f_equal. apply uni_lstrip_ci, H.
Qed.

(** Two documents that differ in the case of ASCII letters only give, for
    every pattern, the same label up to that case. *)
Lemma uni_label_of_ci (pattern : regex) (c1 c2 : ustr) :
  map ascii_lower c1 = map ascii_lower c2 ->
  option_map (map ascii_lower) (label_of T pattern c1)
  = option_map (map ascii_lower) (label_of T pattern c2).
Proof.
  intros Hc. unfold label_of, re_search.
  pose proof (uni_search_from_ci IGNORECASE pattern eq_refl c1 c2 None None eq_refl Hc) as H.
  destruct (search_from T IGNORECASE pattern None c1) as [m1 |];
    destruct (search_from T IGNORECASE pattern None c2) as [m2 |];
    simpl in H; try contradiction; [| reflexivity].
  destruct H as (H0 & _). simpl. f_equal. apply uni_strip_ci, H0.
Qed.

End UniCase.

(** ** The tables of Python *)

Lemma in_all_ascii (a : ascii) : In a all_ascii.
Proof.
  unfold all_ascii. rewrite <- (ascii_nat_embedding a). apply in_map, in_seq.
  pose proof (nat_ascii_bounded a). lia.
Qed.

Lemma in_below_128 (c : char) : (c < 128)%N -> In c below_128.
Proof.
  intros H. unfold below_128. rewrite <- (N2Nat.id c). apply in_map, in_seq. lia.
Qed.

Lemma ascii_lower_above (c c' : char) :
  ascii_lower c = ascii_lower c' -> (128 <= c)%N \/ (128 <= c')%N -> c = c'.
Proof.
  unfold ascii_lower. intros H Hc.
  destruct ((65 <=? c) && (c <=? 90))%N eqn:E1;
    destruct ((65 <=? c') && (c' <=? 90))%N eqn:E2;
    repeat match goal with
           | H : (_ && _)%bool = true |- _ => apply andb_true_iff in H; destruct H
           | H : (_ <=? _)%N = true |- _ => apply N.leb_le in H
           end; lia.
Qed.

Lemma case_blind_sound (T : tables) :
  case_blind_below_128 T = true -> ignores_ascii_case T.
Proof.
  intros H c c' Hc.
  destruct (N.lt_ge_cases c 128) as [L | G];
    [destruct (N.lt_ge_cases c' 128) as [L' | G'] |].
  - unfold case_blind_below_128 in H. rewrite forallb_forall in H.
    specialize (H c (in_below_128 c L)). rewrite forallb_forall in H.
    specialize (H c' (in_below_128 c' L')). rewrite Hc, N.eqb_refl in H.
    apply andb_true_iff in H. destruct H as [H H3].
    apply andb_true_iff in H. destruct H as [H1 H2].
    apply eqb_prop in H1, H2. split; [exact H1 | split; [exact H2 |]].
    intros a. rewrite forallb_forall in H3. apply eqb_prop, H3, in_all_ascii.
  - rewrite (ascii_lower_above c c' Hc (or_intror G')). auto.
  - rewrite (ascii_lower_above c c' Hc (or_introl G)). auto.
Qed.

Lemma python_ignores_ascii_case : ignores_ascii_case python_tables.
Proof. apply case_blind_sound. vm_compute. reflexivity. Qed.

(** ** The technologies field *)

(** C5. The technologies field, whatever the script of the document and
    whatever the Unicode tables of the interpreter: it is the sentinel,
    when no pattern of the catalog matches, or the labels joined by a comma
    and a space; the labels are unique, they are in the order of their
    lower-case forms, and they are the first matches of the patterns, found
    with [IGNORECASE] and kept as the document writes them, stripped.
    Matching does not see the case: a document that differs in the case of
    ASCII letters only gives, for every pattern, the same label up to that
    case. *)
Theorem technologies_sorted_unique_labels
        (T : tables) (iter : list ustr -> list ustr)
        (Hiter : forall l, Permutation (iter l) l)
        (Hcase : ignores_ascii_case T)
        (content : ustr) :
  ((extract_technologies T iter content = NA
    /\ forall pattern, In pattern tech_patterns ->
                       no_match T IGNORECASE pattern content)
   \/ exists labels,
        labels <> []
        /\ extract_technologies T iter content = join (U ", ") labels
        /\ NoDup labels
        /\ StronglySorted (key_le T) labels
        /\ (forall l, In l labels <->
              exists pattern m,
                In pattern tech_patterns
                /\ first_match T IGNORECASE pattern content m
                /\ l = strip T m))
  /\ (forall content' pattern,
        map ascii_lower content' = map ascii_lower content ->
        In pattern tech_patterns ->
        option_map (map ascii_lower) (label_of T pattern content')
        = option_map (map ascii_lower) (label_of T pattern content)).
Proof.
  split.
  - destruct (uni_technologies T content) as (N & Hin & _).
    unfold extract_technologies.
    destruct (tech_loop T tech_patterns content []) as [| t ts] eqn:E.
    + left. split; [reflexivity |]. apply uni_first_labels_nil.
      destruct (first_labels T tech_patterns content) as [| l ls] eqn:El;
        [reflexivity |].
      exfalso. apply (proj2 (Hin l)). left. reflexivity.
    + right.
      assert (Hne : tech_loop T tech_patterns content [] <> [])
        by (rewrite E; discriminate).
      rewrite <- E in *. clear E t ts.
      set (technologies := tech_loop T tech_patterns content []) in *.
      assert (P : Permutation (sorted (lower_lt T) (iter technologies)) technologies).
      { rewrite sorted_perm. apply Hiter. }
      exists (sorted (lower_lt T) (iter technologies)).
      split; [| split; [reflexivity | split; [| split]]].
      * intros H. rewrite H in P. apply Permutation_nil in P. exact (Hne P).
      * apply (Permutation_NoDup (Permutation_sym P) N).
      * apply (sorted_sorted _ (lower_lt T) (uni_lower_lt_irrefl T)
                 (uni_lower_lt_trans T) (uni_lower_lt_cotrans T)).
      * intros l. split.
        -- intros H. apply (Permutation_in _ P), Hin, uni_in_first_labels in H.
           destruct H as (p & Hp & Hl). apply uni_label_of_first_match in Hl.
           destruct Hl as (m & Hm & ->). exists p, m. auto.
        -- intros (p & m & Hp & Hm & ->).
           apply (Permutation_in _ (Permutation_sym P)), Hin, uni_in_first_labels.
           exists p. split; [exact Hp |]. apply uni_label_of_first_match. exists m. auto.
  - intros content' pattern Hc _. apply (uni_label_of_ci T Hcase), Hc.
Qed.

(** A document in which the two words of a name are held together by a
    no-break space, with the tables of Python 3.11: the
    label keeps the no-break space and the case of the document, and the
    same document in capitals gives the same labels up to case. *)
Lemma technologies_sorted_unique_labels_witness :
  extract_technologies python_tables (@rev ustr) nbsp_doc
  = U "Azure" ++ [160%N] ++ U "OpenAI, rag"
  /\ (forall pattern,
        In pattern tech_patterns ->
        option_map (map ascii_lower) (label_of python_tables pattern nbsp_doc_capitals)
        = option_map (map ascii_lower) (label_of python_tables pattern nbsp_doc)).
Proof.
  split; [reflexivity |]. intros pattern Hp.
  apply (proj2 (technologies_sorted_unique_labels python_tables (@rev ustr)
                  (fun l => Permutation_sym (Permutation_rev l))
                  python_ignores_ascii_case nbsp_doc)
               nbsp_doc_capitals pattern);
    [reflexivity | exact Hp].
Defined.

(** C10. When the technologies field is not the sentinel, whatever the
    script of the document and whatever the Unicode tables of the
    interpreter: it joins the labels of the patterns that match, each
    once, so at most one label for each of the 19 patterns of the catalog
    and at most 19 labels; each label is the first match of its pattern
    with the whitespace at its two ends stripped, and it stands in the
    document as it is, the whitespace inside it, line feeds included,
    unchanged. *)
Theorem at_most_one_label_per_pattern
        (T : tables) (iter : list ustr -> list ustr)
        (Hiter : forall l, Permutation (iter l) l)
        (content : ustr)
        (Hsome : extract_technologies T iter content <> NA) :
  exists labels,
    extract_technologies T iter content = join (U ", ") labels
    /\ Permutation labels (nodup ustr_eq_dec (first_labels T tech_patterns content))
    /\ length (first_labels T tech_patterns content) <= length tech_patterns
    /\ length tech_patterns = 19
    /\ length labels <= 19
    /\ (forall l, In l labels ->
          exists pattern m before after,
            In pattern tech_patterns
            /\ first_match T IGNORECASE pattern content m
            /\ l = strip T m
            /\ content = before ++ l ++ after).
Proof.
  destruct (uni_technologies T content) as (N & Hin & Hlen).
  unfold extract_technologies in Hsome |- *.
  destruct (tech_loop T tech_patterns content []) as [| t ts] eqn:E; [congruence |].
  rewrite <- E in *. clear E t ts.
  set (technologies := tech_loop T tech_patterns content []) in *.
  assert (P : Permutation (sorted (lower_lt T) (iter technologies)) technologies).
  { rewrite sorted_perm. apply Hiter. }
  exists (sorted (lower_lt T) (iter technologies)).
  split; [reflexivity |]. split; [| split; [| split; [reflexivity | split]]].
  - apply NoDup_Permutation.
    + apply (Permutation_NoDup (Permutation_sym P) N).
    + apply NoDup_nodup.
    + intros l. rewrite nodup_In, <- Hin. split; apply Permutation_in;
        [exact P | exact (Permutation_sym P)].
  - apply uni_first_labels_length.
  - rewrite (Permutation_length P). exact Hlen.
  - intros l H. apply (Permutation_in _ P), Hin, uni_in_first_labels in H.
    destruct H as (p & Hp & Hl).
    destruct (uni_label_of_infix T p content l Hl) as (before & after & Hc).
    apply uni_label_of_first_match in Hl. destruct Hl as (m & Hm & ->).
    exists p, m, before, after. auto.
Qed.

(** A label that runs over a line break keeps it, and the no-break space
    that follows it: the document [Try Azure], line feed, no-break space,
    [OpenAI and rag.] *)
Lemma at_most_one_label_per_pattern_witness :
  extract_technologies python_tables (fun l => l) line_break_doc
  = U "Azure" ++ [nl; 160%N] ++ U "OpenAI, rag"
  /\ exists labels,
       extract_technologies python_tables (fun l => l) line_break_doc
       = join (U ", ") labels
       /\ Permutation labels
            (nodup ustr_eq_dec (first_labels python_tables tech_patterns line_break_doc))
       /\ length (first_labels python_tables tech_patterns line_break_doc)
          <= length tech_patterns
       /\ length tech_patterns = 19
       /\ length labels <= 19
       /\ (forall l, In l labels ->
             exists pattern m before after,
               In pattern tech_patterns
               /\ first_match python_tables IGNORECASE pattern line_break_doc m
               /\ l = strip python_tables m
               /\ line_break_doc = before ++ l ++ after).
Proof.
  split; [reflexivity |].
  apply (at_most_one_label_per_pattern python_tables (fun l => l)
           (fun l => Permutation_refl l) line_break_doc).
  vm_compute. discriminate.
Defined.
